(** * sqlfluff core linter: a shallow embedding of [sqlfluff/core/linter.py]

    The development follows the source file: the [LintedFile] queries
    ([get_violations], [check_tuples], [fix_string]), the serialisation of
    [LintingResult.as_records], and the [Linter] ([extract_ignore_from_comment]
    and the fix loop of [lint_string]); then the counters, statistics and
    dicts of [LintedPath] and [LintingResult], the persisting of fixes, and
    [paths_from_path].  Collaborators that live in other modules of the
    package (templater, lexer, parser, rules, errors), the operating system
    and the files on disk appear as section variables or as records holding
    what their methods return.

    The model comes first, then the vocabulary of the statements and the
    concrete files and rules the examples run on, then the properties.
    Strings are sequences of code points below 256, offsets are integers. *)

From Stdlib Require Import ZArith String Ascii List Lia DecimalString.
From stdpp Require Import gmap strings list sorting.
From Equations Require Import Equations.

Local Open Scope string_scope.
Local Open Scope list_scope.
Local Open Scope Z_scope.

(** ** Python built-ins used by the linter *)

Module Py.

(** [str.isspace] on one character, for code points below 256: the
    characters [str.strip()] removes. *)
Definition is_space (c : ascii) : bool :=
  let n := N_of_ascii c in
  ((9 <=? n) && (n <=? 13) || (28 <=? n) && (n <=? 32)
   || (n =? 133) || (n =? 160))%N.

Fixpoint lstrip (s : string) : string :=
  match s with
  | String c s' => if is_space c then lstrip s' else s
  | EmptyString => EmptyString
  end.

Fixpoint rstrip (s : string) : string :=
  match s with
  | String c s' =>
      match rstrip s' with
      | EmptyString => if is_space c then EmptyString else String c EmptyString
      | r => String c r
      end
  | EmptyString => EmptyString
  end.

(** [s.strip()] *)
Definition strip (s : string) : string := rstrip (lstrip s).

(** [s.startswith(p)] *)
Definition startswith (s p : string) : bool := String.prefix p s.

(** [s[n:]] for a literal [n >= 0] *)
Fixpoint drop (n : nat) (s : string) : string :=
  match n, s with
  | S n', String _ s' => drop n' s'
  | _, _ => s
  end.

(** [s[:n]] for [n >= 0] *)
Fixpoint take (n : nat) (s : string) : string :=
  match n, s with
  | S n', String c s' => String c (take n' s')
  | _, _ => EmptyString
  end.

(** [s.split(sep)] for a one-character separator: one more piece than
    there are separators, empty pieces kept. *)
Fixpoint split (sep : ascii) (s : string) : list string :=
  match s with
  | EmptyString => [EmptyString]
  | String c s' =>
      if Ascii.eqb c sep then EmptyString :: split sep s'
      else match split sep s' with
           | p :: ps => String c p :: ps
           | [] => [String c EmptyString]
           end
  end.

(** [sep.join(pieces)] *)
Fixpoint join (sep : ascii) (pieces : list string) : string :=
  match pieces with
  | [] => EmptyString
  | [p] => p
  | p :: ps => p +:+ String sep (join sep ps)
  end.

(** [needle in s] on strings *)
Fixpoint contains (needle s : string) : bool :=
  String.prefix needle s ||
  match s with
  | String _ s' => contains needle s'
  | EmptyString => false
  end.

(** A [slice(start, stop)] object with integer bounds. *)
Record slice : Type := Slice { start : Z; stop : Z }.

#[global] Instance slice_eq_dec : EqDecision slice.
Proof. solve_decision. Defined.

(** Index normalisation of [s[a:b]]: a negative bound counts from the
    end, and both bounds are clamped to [0, len]. *)
Definition clamp (len i : Z) : Z :=
  if (i <? 0)%Z then Z.max 0 (i + len) else Z.min i len.

(** [s[sl]] on a string *)
Definition getslice (s : string) (sl : slice) : string :=
  let len := Z.of_nat (String.length s) in
  let a := clamp len (start sl) in
  let b := clamp len (stop sl) in
  take (Z.to_nat (b - a)) (drop (Z.to_nat a) s).

(** [sorted(l, key=...)]: a stable sort, here by insertion; [le] is the
    order of the keys. *)
Section Sorted.
Context {A : Type} (le : A -> A -> bool).

Fixpoint insert_sorted (x : A) (l : list A) : list A :=
  match l with
  | [] => [x]
  | y :: l' => if le x y then x :: l else y :: insert_sorted x l'
  end.

Fixpoint sorted (l : list A) : list A :=
  match l with
  | [] => []
  | x :: l' => insert_sorted x (sorted l')
  end.
End Sorted.

(** [[x for idx, x in enumerate(l) if x not in l[:idx]]] *)
Section Dedupe.
Context {A : Type} `{EqDecision A}.

Fixpoint dedupe_from (seen l : list A) : list A :=
  match l with
  | [] => []
  | x :: l' =>
      if bool_decide (x ∈ seen) then dedupe_from (seen ++ [x]) l'
      else x :: dedupe_from (seen ++ [x]) l'
  end.

Definition dedupe (l : list A) : list A := dedupe_from [] l.
End Dedupe.

End Py.

(** ** Data model *)

(** Exceptions that escape the modelled functions. *)
Inductive exn : Type :=
| AttributeError
| UnboundLocalError
| SliceMapError.

Inductive res (A : Type) : Type :=
| Ok (a : A)
| Err (e : exn).
Arguments Ok {A} a.
Arguments Err {A} e.

Definition res_bind {A B : Type} (r : res A) (k : A -> res B) : res B :=
  match r with
  | Ok a => k a
  | Err e => Err e
  end.

Notation "'let*' x ':=' r 'in' k" := (res_bind r (fun x => k))
  (at level 10, x pattern, r at level 100, k at level 200).

Fixpoint res_mapM {A B : Type} (f : A -> res B) (l : list A) : res (list B) :=
  match l with
  | [] => Ok []
  | x :: l' => let* y := f x in let* ys := res_mapM f l' in Ok (y :: ys)
  end.

(** The error classes of [sqlfluff.core.errors]; every class derives from
    [SQLBaseError]. *)
Inductive ErrClass : Type :=
| SQLBaseError
| SQLTemplaterError
| SQLLexError
| SQLParseError
| SQLLintError.

#[export] Instance ErrClass_eq_dec : EqDecision ErrClass.
Proof. solve_decision. Defined.

(** A violation object, as the linter observes it: its class, what
    [rule_code()], [line_no()] and the line position give, its description
    and the [fixable] and [ignore] attributes. *)
Record Violation : Type := mkViolation {
  v_class : ErrClass;
  rule_code : string;
  line_no : Z;
  line_pos : Z;
  description : string;
  fixable : bool;
  ignore : bool
}.

#[export] Instance Violation_eq_dec : EqDecision Violation.
Proof. solve_decision. Defined.

(** [isinstance(v, cls)] *)
Definition isinstance (v : Violation) (cls : ErrClass) : bool :=
  bool_decide (cls = SQLBaseError) || bool_decide (v_class v = cls).

(** Modelled from the spec: [errors.py] is not among the sources.  The
    violation contract gives [check_tuple() -> (code, line, pos)]; only
    linting violations implement it ([LintedFile.check_tuples] tests
    [hasattr(v, "check_tuple")]). *)
Definition check_tuple (v : Violation) : option (string * Z * Z) :=
  match v_class v with
  | SQLLintError => Some (rule_code v, line_no v, line_pos v)
  | _ => None
  end.

(** Modelled from the spec: [get_info_dict() -> {code, line_no, line_pos, ...}]. *)
Record InfoDict : Type := mkInfoDict {
  d_line_no : Z;
  d_line_pos : Z;
  d_code : string;
  d_description : string
}.

(** Modelled from the spec: [v.get_info_dict()], the dict of the
    violation's line number, line position, code and description. *)
Definition get_info_dict (v : Violation) : InfoDict :=
  {| d_line_no := line_no v; d_line_pos := line_pos v;
     d_code := rule_code v; d_description := description v |}.

(** Position markers: the plain [FilePositionMarker] of a segment a fix
    created, and the [EnrichedFilePositionMarker] of a parsed segment. *)
Inductive PosMarker : Type :=
| FilePositionMarker (line pos : Z)
| EnrichedFilePositionMarker (line pos : Z)
    (templated_slice source_slice : Py.slice) (is_literal : bool).

Definition pm_line_no (m : PosMarker) : Z :=
  match m with
  | FilePositionMarker l _ => l
  | EnrichedFilePositionMarker l _ _ _ _ => l
  end.

Definition pm_line_pos (m : PosMarker) : Z :=
  match m with
  | FilePositionMarker _ p => p
  | EnrichedFilePositionMarker _ p _ _ _ => p
  end.

(** A segment of the parse tree. *)
#[warnings="-register-all"]
Inductive Segment : Type :=
  mkSegment {
    raw : string;
    pos_marker : PosMarker;
    name : string;
    class_types : list string;
    is_meta : bool;
    segments : list Segment
  }.

(** [seg.is_type(t)] *)
Definition is_type (seg : Segment) (t : string) : bool :=
  bool_decide (t ∈ class_types seg).

(** The templated file: source and templated strings and the file slices
    [(slice_type, source_slice, templated_slice)]. *)
Record FileSlice : Type := mkFileSlice {
  slice_type : string;
  fs_source_slice : Py.slice;
  fs_templated_slice : Py.slice
}.

Record TemplatedFile : Type := mkTemplatedFile {
  source_str : string;
  templated_str : string;
  sliced_file : list FileSlice
}.

(** An entry of the ignore mask: [(line_no, rules)], [rules] being [None]
    for a bare [noqa]. *)
Definition IgnoreEntry : Type := (Z * option (list string))%type.

(** ** LintedFile *)

(** The namedtuple [(path, violations, time_dict, tree, ignore_mask,
    templated_file)]; the timings of [time_dict] are wall-clock
    measurements and are not carried. *)
Record LintedFile : Type := mkLintedFile {
  path : string;
  violations : list Violation;
  tree : option Segment;
  ignore_mask : list IgnoreEntry;
  templated_file : option TemplatedFile
}.

(** The condition of the comprehension inside the ignore-mask loop: the
    violation is on the entry's line and the entry names all rules or the
    violation's. *)
Definition mask_matches (entry : IgnoreEntry) (v : Violation) : bool :=
  (line_no v =? fst entry)%Z &&
  match snd entry with
  | None => true
  | Some rules => bool_decide (rule_code v ∈ rules)
  end.

(** [LintedFile.get_violations(rules, types, filter_ignore, fixable)].
    An empty [rules] or [types] stands for a falsy argument ([None]); a
    single string or class is the one-element list. *)
Definition get_violations (lf : LintedFile) (rules : list string)
    (types : list ErrClass) (filter_ignore : bool) (fixable_arg : option bool)
    : list Violation :=
  let violations := violations lf in
  (* Filter types *)
  let violations :=
    match types with
    | [] => violations
    | _ => List.filter (fun v => existsb (isinstance v) types) violations
    end in
  (* Filter rules *)
  let violations :=
    match rules with
    | [] => violations
    | _ => List.filter (fun v => bool_decide (rule_code v ∈ rules)) violations
    end in
  (* Filter fixable *)
  let violations :=
    match fixable_arg with
    | Some b => List.filter (fun v => Bool.eqb (fixable v) b) violations
    | None => violations
    end in
  (* Filter ignorable violations *)
  if filter_ignore then
    let violations := List.filter (fun v => negb (ignore v)) violations in
    match ignore_mask lf with
    | [] => violations
    | mask =>
        fold_left
          (fun vs entry => List.filter (fun v => negb (mask_matches entry v)) vs)
          mask violations
    end
  else violations.

(** [get_violations()] with the default arguments. *)
Definition get_violations_default (lf : LintedFile) : list Violation :=
  get_violations lf [] [] true None.

(** [LintedFile.check_tuples()]: the result list, or the violation that is
    raised because it has no [check_tuple]. *)
Fixpoint check_tuples_loop (todo : list Violation) (vs : list (string * Z * Z))
    : list (string * Z * Z) + Violation :=
  match todo with
  | [] => inl vs
  | v :: todo' =>
      match check_tuple v with
      | Some t => check_tuples_loop todo' (vs ++ [t])
      | None => inr v
      end
  end.

Definition check_tuples (lf : LintedFile) : list (string * Z * Z) + Violation :=
  check_tuples_loop (get_violations_default lf) [].

(** ** LintedPath and LintingResult *)

(** A dict with string keys in insertion order: assigning an existing key
    keeps its place and replaces its value. *)
Fixpoint dict_set {V : Type} (k : string) (v : V) (d : list (string * V))
    : list (string * V) :=
  match d with
  | [] => [(k, v)]
  | (k', v') :: d' =>
      if String.eqb k k' then (k, v) :: d' else (k', v') :: dict_set k v d'
  end.

(** [LintedPath.violation_dict()] *)
Definition violation_dict (files : list LintedFile)
    : list (string * list Violation) :=
  fold_left (fun d file => dict_set (path file) (get_violations_default file) d)
            files [].

(** The sort key of [as_records]: [(line_no, line_pos, code)], compared as
    Python compares tuples. *)
Definition record_key (d : InfoDict) : Z * Z * string :=
  (d_line_no d, d_line_pos d, d_code d).

Definition key_leb (k1 k2 : Z * Z * string) : bool :=
  let '(l1, p1, c1) := k1 in
  let '(l2, p2, c2) := k2 in
  (l1 <? l2)%Z ||
  ((l1 =? l2)%Z && ((p1 <? p2)%Z || ((p1 =? p2)%Z && String.leb c1 c2))).

Definition record_leb (d1 d2 : InfoDict) : bool :=
  key_leb (record_key d1) (record_key d2).

Record ResultRecord : Type := mkRecord {
  filepath : string;
  rec_violations : list InfoDict
}.

(** [LintingResult.as_records()]: [paths] holds the files of each
    [LintedPath]. *)
Definition as_records (paths : list (list LintedFile)) : list ResultRecord :=
  flat_map
    (fun files =>
       flat_map
         (fun '(path, violations) =>
            match violations with
            | [] => []
            | _ => [ {| filepath := path;
                        rec_violations :=
                          Py.sorted record_leb (map get_info_dict violations) |} ]
            end)
         (violation_dict files))
    paths.

(** ** Source reconstruction: [LintedFile.fix_string] *)

(** A patch in templated space [(templated_slice, text, post_placeholder)]
    and a patch in source space [(source_slice, text)]. *)
Definition TemplatedPatch : Type := (Py.slice * string * Z)%type.
Definition SourcePatch : Type := (Py.slice * string)%type.

(** The nested generator [iter_patches].  Reading [templated_slice] or
    [is_literal] off a marker that is not enriched is an [AttributeError];
    the loop over the children only recurses into enriched children. *)
Fixpoint iter_patches (templated : string) (seg : Segment)
    : res (list TemplatedPatch) :=
  match seg with
  | mkSegment seg_raw marker _ _ _ children =>
      match marker with
      | FilePositionMarker _ _ => Err AttributeError
      | EnrichedFilePositionMarker _ _ seg_ts _ seg_is_literal =>
          (* Does it match? If so we can ignore it. *)
          if String.eqb seg_raw (Py.getslice templated seg_ts) then Ok []
          else if seg_is_literal then Ok [(seg_ts, seg_raw, 0)]
          else
            (fix children_loop (todo : list Segment) (templated_idx : Z)
                 (insert_buff : string) (post_placeholder : Z)
                 {struct todo} : res (list TemplatedPatch) :=
               match todo with
               | segment :: todo' =>
                   let post_placeholder :=
                     if is_meta segment && is_type segment "placeholder"
                     then post_placeholder + 1 else post_placeholder in
                   match pos_marker segment with
                   | FilePositionMarker _ _ =>
                       (* an insertion: buffer its text if it has any *)
                       let insert_buff :=
                         match raw segment with
                         | EmptyString => insert_buff
                         | r => insert_buff +:+ r
                         end in
                       children_loop todo' templated_idx insert_buff
                                     post_placeholder
                   | EnrichedFilePositionMarker _ _ ts _ _ =>
                       let start_diff := Py.start ts - templated_idx in
                       let discontinuity :=
                         (start_diff >? 0)%Z
                         || negb (String.eqb insert_buff EmptyString) in
                       let mid :=
                         if discontinuity
                         then [(Py.Slice (Py.start ts - start_diff) (Py.start ts),
                                insert_buff, post_placeholder)]
                         else [] in
                       let insert_buff :=
                         if discontinuity then EmptyString else insert_buff in
                       let post_placeholder :=
                         if discontinuity then 0 else post_placeholder in
                       let* inner := iter_patches templated segment in
                       let* rest :=
                         children_loop todo' (Py.stop ts) insert_buff
                                       post_placeholder in
                       Ok (mid ++ inner ++ rest)
                   end
               | [] =>
                   (* trailing deletion or insertion *)
                   let end_diff := Py.stop seg_ts - templated_idx in
                   if negb (end_diff =? 0)%Z
                      || negb (String.eqb insert_buff EmptyString)
                   then Ok [(Py.Slice (Py.stop seg_ts - end_diff) (Py.stop seg_ts),
                             insert_buff, 0)]
                   else Ok []
               end) children (Py.start seg_ts) EmptyString 0
      end
  end.

(** The inner [while] of the slicing loop: untouchables that start before
    the patch are moved to the slice buffer, each after a pre-slice when
    there is a gap.  State: the untouchables left, [source_idx] and the
    buffer. *)
Fixpoint pop_untouchables (untouchable_slices : list Py.slice) (patch_start : Z)
    (source_idx : Z) (slice_buff : list Py.slice)
    : list Py.slice * Z * list Py.slice :=
  match untouchable_slices with
  | next_untouchable_slice :: rest =>
      if (Py.start next_untouchable_slice <? patch_start)%Z then
        let slice_buff :=
          if (Py.start next_untouchable_slice >? source_idx)%Z
          then slice_buff ++ [Py.Slice source_idx (Py.start next_untouchable_slice)]
          else slice_buff in
        pop_untouchables rest patch_start (Py.stop next_untouchable_slice)
                         (slice_buff ++ [next_untouchable_slice])
      else (untouchable_slices, source_idx, slice_buff)
  | [] => ([], source_idx, slice_buff)
  end.

(** One turn of [for patch in patches]. *)
Definition slice_step (st : list Py.slice * Z * list Py.slice)
    (patch : SourcePatch) : list Py.slice * Z * list Py.slice :=
  let '(untouchable_slices, source_idx, slice_buff) := st in
  let '(untouchable_slices, source_idx, slice_buff) :=
    pop_untouchables untouchable_slices (Py.start (fst patch)) source_idx
                     slice_buff in
  (* Is there a gap between current position and this patch? *)
  let slice_buff :=
    if (Py.start (fst patch) >? source_idx)%Z
    then slice_buff ++ [Py.Slice source_idx (Py.start (fst patch))]
    else slice_buff in
  (* Is this patch covering an area we've already covered? *)
  if (Py.start (fst patch) <? source_idx)%Z
  then (untouchable_slices, source_idx, slice_buff)
  else (untouchable_slices, Py.stop (fst patch), slice_buff ++ [fst patch]).

(** The final slice buffer: the loop over the patches and the tail slice. *)
Definition build_slice_buff (source : string) (untouchable_slices : list Py.slice)
    (patches : list SourcePatch) : list Py.slice :=
  let '(_, source_idx, slice_buff) :=
    fold_left slice_step patches (untouchable_slices, 0, []) in
  let len := Z.of_nat (String.length source) in
  if (source_idx <? len)%Z then slice_buff ++ [Py.Slice source_idx len]
  else slice_buff.

(** One turn of the rendering loop: the text of the first patch whose
    slice equals the buffer slice, else the source text of the slice. *)
Definition render_slice (source : string) (patches : list SourcePatch)
    (source_slice : Py.slice) : string :=
  match List.find (fun patch => bool_decide (fst patch = source_slice)) patches with
  | Some patch => snd patch
  | None => Py.getslice source source_slice
  end.

Definition render (source : string) (patches : list SourcePatch)
    (slice_buff : list Py.slice) : string :=
  fold_left (fun str_buff sl => str_buff +:+ render_slice source patches sl)
            slice_buff EmptyString.

(** From the deduplicated source-space patches to the returned pair. *)
Definition fix_source (source : string) (untouchable_slices : list Py.slice)
    (patches : list SourcePatch) : string * bool :=
  let slice_buff := build_slice_buff source untouchable_slices patches in
  let str_buff := render source patches slice_buff in
  (str_buff, negb (String.eqb str_buff source)).

Section FixString.

(** The slice map of the templated file ([TemplatedFile] is defined in
    the templater module).  [untouchable_slices()] returns tuples whose
    first component is the source slice; only that component is read. *)
Variable templated_slice_to_source_slice :
  TemplatedFile -> Py.slice -> res Py.slice.
Variable untouchable_slices : TemplatedFile -> list Py.slice.

(** The source-space patches after deduplication. *)
Definition source_patches (tf : TemplatedFile) (tree : Segment)
    : res (list SourcePatch) :=
  let* tpatches := iter_patches (templated_str tf) tree in
  (* Patches, sorted by start *)
  let patches :=
    Py.sorted (fun p q : TemplatedPatch =>
                 (Py.start (fst (fst p)) <=? Py.start (fst (fst q)))%Z)
              tpatches in
  (* We now convert enrich the patches into source space *)
  let* patches :=
    res_mapM (fun patch : TemplatedPatch =>
                let* s := templated_slice_to_source_slice tf (fst (fst patch)) in
                Ok (s, snd (fst patch)))
             patches in
  (* Dedupe on source space *)
  Ok (Py.dedupe patches).

(** [LintedFile.fix_string()] *)
Definition fix_string (lf : LintedFile) : res (string * bool) :=
  match templated_file lf, tree lf with
  | Some tf, Some tree =>
      let* patches := source_patches tf tree in
      Ok (fix_source (source_str tf) (untouchable_slices tf) patches)
  | _, _ => Err AttributeError
  end.

End FixString.

(** ** Linter *)

(** What the linter reads from the configuration object. *)
Record Config : Type := mkConfig {
  runaway_limit : Z;
  cfg_ignore : list string;
  dialect : string
}.

(** Modelled from the spec: [errors.py] is not among the sources.
    [SQLParseError(description, segment=seg)] is a parse violation placed
    at the segment's position marker; a parse error carries the
    placeholder rule code and is neither fixable nor ignored. *)
Definition new_SQLParseError (description : string) (seg : Segment) : Violation :=
  {| v_class := SQLParseError;
     rule_code := "PRS";
     line_no := pm_line_no (pos_marker seg);
     line_pos := pm_line_pos (pos_marker seg);
     description := description;
     fixable := false;
     ignore := false |}.

(** What [extract_ignore_from_comment] returns: a parse error, a mask
    entry, or [None]. *)
Inductive NoqaResult : Type :=
| NoqaError (err : Violation)
| NoqaEntry (entry : IgnoreEntry)
| NoqaNone.

(** How the [while True] loop of [lint_string] was left. *)
Inductive LoopExit : Type :=
| LoopLimitReached   (* [fix_loop_idx > loop_limit] *)
| NotFixing          (* round 1 done and [fix] is false *)
| Unchanged.         (* [changed] stayed false *)

Section Linter.

(** The fixes a rule proposes (defined with the rules); the linter tests
    them for truth and compares them with [==]. *)
Context {Fixes : Type} `{EqDecision Fixes}.
Variable fixes_truthy : Fixes -> bool.

(** A rule: its code and its [crawl(tree, dialect, fix)], of which the
    linter keeps the linting errors and the fixes. *)
Record Crawler : Type := mkCrawler {
  code : string;
  crawl : Segment -> string -> bool -> list Violation * Fixes
}.

Variable get_ruleset : Config -> list Crawler.
(** [tree.apply_fixes(fixes)]: the new tree and the fixes left over. *)
Variable apply_fixes : Segment -> Fixes -> Segment * Fixes.
(** [parse_string]: [(parsed, violations, templated_file)]; templater,
    lexer and parser are collaborators. *)
Variable parse_string :
  string -> string -> Config ->
  option Segment * list Violation * option TemplatedFile.
(** [tree.recursive_crawl(type)] and [comment.raw_trimmed()] *)
Variable recursive_crawl : Segment -> string -> list Segment.
Variable raw_trimmed : Segment -> string.
(** [violation.ignore_if_in(ignore_iterable)], which may set the
    violation's [ignore] attribute. *)
Variable ignore_if_in : Violation -> list string -> Violation.

(** [Linter.extract_ignore_from_comment(comment)] *)
Definition extract_ignore_from_comment (comment : Segment) : NoqaResult :=
  (* Also trim any whitespace afterward *)
  let comment_content := Py.strip (raw_trimmed comment) in
  if Py.startswith comment_content "noqa" then
    (* This is an ignore identifier *)
    let comment_remainder := Py.drop 4 comment_content in
    match comment_remainder with
    | String _ _ =>
        if negb (Py.startswith comment_remainder ":") then
          NoqaError
            (new_SQLParseError
               "Malformed 'noqa' section. Expected 'noqa: <rule>[,...]"
               comment)
        else
          let comment_remainder := Py.drop 1 comment_remainder in
          let rules := map Py.strip (Py.split "," comment_remainder) in
          NoqaEntry (pm_line_no (pos_marker comment), Some rules)
    | EmptyString => NoqaEntry (pm_line_no (pos_marker comment), None)
    end
  else NoqaNone.

(** The loop of [lint_string] over the comment segments: the violations
    and the ignore buffer it leaves. *)
Definition noqa_step (st : list Violation * list IgnoreEntry)
    (comment : Segment) : list Violation * list IgnoreEntry :=
  let '(vs, ignore_buff) := st in
  if String.eqb (name comment) "inline_comment" then
    match extract_ignore_from_comment comment with
    | NoqaError err => (vs ++ [err], ignore_buff)
    | NoqaEntry entry => (vs, ignore_buff ++ [entry])
    | NoqaNone => (vs, ignore_buff)
    end
  else (vs, ignore_buff).

Definition collect_noqa (parsed : Segment) (vs : list Violation)
    : list Violation * list IgnoreEntry :=
  fold_left noqa_step (recursive_crawl parsed "comment") (vs, []).

(** Records the linter logger receives from the fix loop. *)
Inductive LogRecord : Type :=
| LoopLimitWarning (loop_limit : Z)
| FixNotAppliedWarning (rule : string)
| ApplyingFixes (loop : Z) (fixes : Fixes)
| RemainderFixes (loop : Z) (fixes : Fixes).

(** The variables of the fix loop that the loop over the rules updates. *)
Record LoopVars : Type := mkLoopVars {
  working : Segment;
  previous_versions : gset string;
  linting_errors : list Violation;
  last_fixes : option Fixes;
  log : list LogRecord
}.

Definition add_log (r : LogRecord) (vars : LoopVars) : LoopVars :=
  {| working := working vars;
     previous_versions := previous_versions vars;
     linting_errors := linting_errors vars;
     last_fixes := last_fixes vars;
     log := log vars ++ [r] |}.

(** [last_fixes and fixes == last_fixes] *)
Definition same_as_last (last : option Fixes) (fixes : Fixes) : bool :=
  match last with
  | Some lf => fixes_truthy lf && bool_decide (fixes = lf)
  | None => false
  end.

(** One turn of [for crawler in self.get_ruleset(config=config)]; the
    boolean is [changed]. *)
Definition crawl_step (config : Config) (fixing : bool) (fix_loop_idx : Z)
    (st : LoopVars * bool) (crawler : Crawler) : LoopVars * bool :=
  let '(vars, changed) := st in
  let '(lerrs, fixes) := crawl crawler (working vars) (dialect config) fixing in
  let vars :=
    {| working := working vars;
       previous_versions := previous_versions vars;
       linting_errors := linting_errors vars ++ lerrs;
       last_fixes := last_fixes vars;
       log := log vars |} in
  if fixing && fixes_truthy fixes then
    if same_as_last (last_fixes vars) fixes then
      (add_log (FixNotAppliedWarning (code crawler)) vars, changed)
    else
      let vars :=
        {| working := working vars;
           previous_versions := previous_versions vars;
           linting_errors := linting_errors vars;
           last_fixes := Some fixes;
           log := log vars ++ [ApplyingFixes fix_loop_idx fixes] |} in
      let '(new_working, fixes) := apply_fixes (working vars) fixes in
      let vars := add_log (RemainderFixes fix_loop_idx fixes) vars in
      (* Check for infinite loops *)
      if bool_decide (raw new_working ∉ previous_versions vars) then
        ({| working := new_working;
            previous_versions := previous_versions vars ∪ {[ raw new_working ]};
            linting_errors := linting_errors vars;
            last_fixes := last_fixes vars;
            log := log vars |}, true)
      else
        (add_log (FixNotAppliedWarning (code crawler)) vars, changed)
  else (vars, changed).

(** The whole loop over the rules, starting with [changed = False]. *)
Definition run_rules (config : Config) (fixing : bool) (fix_loop_idx : Z)
    (vars : LoopVars) : LoopVars * bool :=
  fold_left (crawl_step config fixing fix_loop_idx) (get_ruleset config)
            (vars, false).

(** The variables as the [while True] loop leaves them.
    [initial_linting_errors] is [None] while the name is unbound. *)
Record LoopResult : Type := mkLoopResult {
  final_vars : LoopVars;
  parsed_tree : Segment;
  initial_linting_errors : option (list Violation);
  fix_loop_idx : Z;
  loop_exit : LoopExit
}.

(** The [while True] loop.  Every turn that does not break has
    [fix_loop_idx <= loop_limit] after the increment, so
    [loop_limit - fix_loop_idx] decreases. *)
Equations? fix_loop (config : Config) (fixing : bool) (idx : Z)
    (parsed : Segment) (initial : option (list Violation)) (vars : LoopVars)
    : LoopResult by wf (Z.to_nat (runaway_limit config - idx)) lt :=
  fix_loop config fixing idx parsed initial vars
    with decide (idx + 1 > runaway_limit config) => {
    | left _ :=
        {| final_vars := add_log (LoopLimitWarning (runaway_limit config)) vars;
           parsed_tree := parsed;
           initial_linting_errors := initial;
           fix_loop_idx := idx + 1;
           loop_exit := LoopLimitReached |}
    | right _ :=
        let swept := run_rules config fixing (idx + 1) vars in
        (* Store a copy of initial errors if we're on round 1. *)
        let round1 := (idx + 1 =? 1)%Z in
        let initial' :=
          if round1 then Some (linting_errors (fst swept)) else initial in
        if round1 && negb fixing then
          {| final_vars := fst swept;
             parsed_tree := working (fst swept);
             initial_linting_errors := initial';
             fix_loop_idx := idx + 1;
             loop_exit := NotFixing |}
        else if negb (snd swept) then
          {| final_vars := fst swept;
             parsed_tree := parsed;
             initial_linting_errors := initial';
             fix_loop_idx := idx + 1;
             loop_exit := Unchanged |}
        else
          fix_loop config fixing (idx + 1) (working (fst swept)) initial'
                   (fst swept) }.
Proof. lia. Qed.

(** The state in which [lint_string] enters the loop. *)
Definition initial_vars (parsed : Segment) : LoopVars :=
  {| working := parsed;
     previous_versions := {[ raw parsed ]};
     linting_errors := [];
     last_fixes := None;
     log := [] |}.

Definition lint_loop (config : Config) (fixing : bool) (parsed : Segment)
    : LoopResult :=
  fix_loop config fixing 0 parsed None (initial_vars parsed).

(** [Linter.lint_string(in_str, fname, fix, config)], with [fixing] for [fix].  Reading
    [initial_linting_errors] while it is unbound raises
    [UnboundLocalError].  The formatter calls at the end only print. *)
Definition lint_string (in_str fname : string) (fixing : bool) (config : Config)
    : res LintedFile :=
  let '(parsed, vs, templated_file) := parse_string in_str fname config in
  (* Look for comment segments which might indicate lines to ignore. *)
  let '(vs, ignore_buff) :=
    match parsed with
    | Some p => collect_noqa p vs
    | None => (vs, [])
    end in
  let* linted :=
    match parsed with
    | Some p =>
        let r := lint_loop config fixing p in
        (* We're only going to return the *initial* errors, rather
           than any generated during the fixing cycle. *)
        match initial_linting_errors r with
        | Some initial => Ok (Some (parsed_tree r), vs ++ initial)
        | None => Err UnboundLocalError
        end
    | None => Ok (None, vs)
    end in
  let '(parsed, vs) := linted in
  (* We process the ignore config here if appropriate *)
  let vs := map (fun violation => ignore_if_in violation (cfg_ignore config)) vs in
  Ok {| path := fname;
        violations := vs;
        tree := parsed;
        ignore_mask := ignore_buff;
        templated_file := templated_file |}.

End Linter.

Arguments Crawler : clear implicits.
Arguments LogRecord : clear implicits.
Arguments LoopVars : clear implicits.
Arguments LoopResult : clear implicits.

(** ** The slice map of the templated file *)

Module SliceMap.

Definition is_zero_slice (s : Py.slice) : bool := (Py.start s =? Py.stop s)%Z.

(** The part of a file slice's source range that the templated range
    [[a, b)] reaches: offsets carry over inside a literal slice, any other
    slice snaps to its full source range. *)
Definition lift_within (a b : Z) (fs : FileSlice) : Py.slice :=
  if String.eqb (slice_type fs) "literal" then
    let t0 := Py.start (fs_templated_slice fs) in
    let s0 := Py.start (fs_source_slice fs) in
    Py.Slice (s0 + (Z.max a t0 - t0))
             (s0 + (Z.min b (Py.stop (fs_templated_slice fs)) - t0))
  else fs_source_slice fs.

Definition intersects (a b : Z) (fs : FileSlice) : bool :=
  (Py.start (fs_templated_slice fs) <? b)%Z
  && (a <? Py.stop (fs_templated_slice fs))%Z.

Definition touches (a : Z) (fs : FileSlice) : bool :=
  (Py.start (fs_templated_slice fs) <=? a)%Z
  && (a <=? Py.stop (fs_templated_slice fs))%Z.

Definition hull (l : list Py.slice) : option Py.slice :=
  match l with
  | [] => None
  | s :: l' =>
      Some (fold_left
              (fun acc x => Py.Slice (Z.min (Py.start acc) (Py.start x))
                                     (Z.max (Py.stop acc) (Py.stop x)))
              l' s)
  end.

(** Modelled from the spec: [TemplatedFile.templated_slice_to_source_slice]
    is defined in the templater module, which is not among the sources.
    The file slices that the templated range intersects are found and
    the end points mapped: by offset inside a literal slice, to the full
    source range of any other slice; a range over several slices gives
    the least start and the greatest stop.  An empty range maps to the
    source position of the place it sits at.  A range out of bounds
    fails. *)
Definition templated_slice_to_source_slice (tf : TemplatedFile)
    (ts : Py.slice) : res Py.slice :=
  let a := Py.start ts in
  let b := Py.stop ts in
  let len := Z.of_nat (String.length (templated_str tf)) in
  if (a <? 0)%Z || (b <? a)%Z || (len <? b)%Z then Err SliceMapError
  else if (a =? b)%Z then
    match List.filter (touches a) (sliced_file tf) with
    | fs :: _ =>
        let p := Py.start (lift_within a a fs) in Ok (Py.Slice p p)
    | [] => Err SliceMapError
    end
  else
    match hull (map (lift_within a b)
                    (List.filter (intersects a b) (sliced_file tf))) with
    | Some s => Ok s
    | None => Err SliceMapError
    end.

(** Ranges sorted by start, merged where they overlap: [current] is the
    range being grown, a range that starts inside it is absorbed. *)
Fixpoint merge_into (current : Py.slice) (l : list Py.slice)
    : list Py.slice :=
  match l with
  | s :: l' =>
      if (Py.start s <? Py.stop current)%Z
      then merge_into
             (Py.Slice (Py.start current) (Z.max (Py.stop current) (Py.stop s)))
             l'
      else current :: merge_into s l'
  | [] => [current]
  end.

Definition merge_overlaps (l : list Py.slice) : list Py.slice :=
  match l with
  | s :: l' => merge_into s l'
  | [] => []
  end.

(** Modelled from the spec: [TemplatedFile.untouchable_slices] is defined
    in the templater module.  The source ranges of the block slices and
    of the templated slices of zero templated length, sorted by source
    start and merged where they overlap. *)
Definition untouchable_slices (tf : TemplatedFile) : list Py.slice :=
  merge_overlaps
    (Py.sorted (fun s1 s2 => (Py.start s1 <=? Py.start s2)%Z)
       (map fs_source_slice
          (List.filter
             (fun fs =>
                String.eqb (slice_type fs) "block"
                || (String.eqb (slice_type fs) "templated"
                    && is_zero_slice (fs_templated_slice fs)))
             (sliced_file tf)))).

End SliceMap.

(** ** Counting violations *)

(** The keyword arguments that [num_violations] and the collections pass
    on to [LintedFile.get_violations]; [no_kwargs] is the call without
    any. *)
Record Kwargs : Type := mkKwargs {
  kw_rules : list string;
  kw_types : list ErrClass;
  kw_filter_ignore : bool;
  kw_fixable : option bool
}.

Definition no_kwargs : Kwargs :=
  {| kw_rules := []; kw_types := []; kw_filter_ignore := true;
     kw_fixable := None |}.

(** [file.get_violations(kwargs)] *)
Definition get_violations_kw (lf : LintedFile) (kwargs : Kwargs)
    : list Violation :=
  get_violations lf (kw_rules kwargs) (kw_types kwargs)
                 (kw_filter_ignore kwargs) (kw_fixable kwargs).

(** [LintedFile.num_violations(kwargs)] *)
Definition num_violations (lf : LintedFile) (kwargs : Kwargs) : Z :=
  let violations := get_violations_kw lf kwargs in
  Z.of_nat (length violations).

(** [LintedFile.is_clean()]: a violation object is truthy, so [any] is
    true as soon as the list holds one. *)
Definition is_clean (lf : LintedFile) : bool :=
  negb (existsb (fun _ => true) (get_violations lf [] [] true None)).

(** [sum(...)] over integers, and over booleans counted as 0 and 1. *)
Definition py_sum (l : list Z) : Z := fold_left Z.add l 0.
Definition int_of_bool (b : bool) : Z := if b then 1 else 0.

(** Exceptions raised by the collections and by the built-ins they
    call. *)
Inductive raised : Type :=
| ValueError (message : string)
| IndexError
| KeyError (key : string)
| IOError (message : string).

Inductive outcome (A : Type) : Type :=
| Returns (a : A)
| Raises (e : raised).
Arguments Returns {A} a.
Arguments Raises {A} e.

Definition outcome_bind {A B : Type} (r : outcome A) (k : A -> outcome B)
    : outcome B :=
  match r with
  | Returns a => k a
  | Raises e => Raises e
  end.

Notation "'do*' x ':=' r 'in' k" := (outcome_bind r (fun x => k))
  (at level 10, x pattern, r at level 100, k at level 200).

(** [d[key]] on a dict of integers. *)
Definition getitem (d : gmap string Z) (key : string) : outcome Z :=
  match d !! key with
  | Some v => Returns v
  | None => Raises (KeyError key)
  end.

(** [d.update(other)] on dicts in insertion order. *)
Definition dict_update {V : Type} (d other : list (string * V))
    : list (string * V) :=
  fold_left (fun d kv => dict_set (fst kv) (snd kv) d) other d.

(** *** LintedPath *)

Module LintedPath.

(** [LintedPath.check_tuples()] with [by_path] false: the tuples of the
    files one after the other, or the violation a file raises. *)
Fixpoint check_tuples_from (files : list LintedFile)
    (tuple_buffer : list (string * Z * Z))
    : list (string * Z * Z) + Violation :=
  match files with
  | [] => inl tuple_buffer
  | file :: files' =>
      match check_tuples file with
      | inl tuples => check_tuples_from files' (tuple_buffer ++ tuples)
      | inr v => inr v
      end
  end.

Definition check_tuples (files : list LintedFile)
    : list (string * Z * Z) + Violation :=
  check_tuples_from files [].

(** [LintedPath.get_violations(kwargs)] *)
Definition get_violations (files : list LintedFile) (kwargs : Kwargs)
    : list Violation :=
  fold_left (fun buff file => buff ++ get_violations_kw file kwargs) files [].

(** [LintedPath.violation_dict(kwargs)] *)
Definition violation_dict (files : list LintedFile) (kwargs : Kwargs)
    : list (string * list Violation) :=
  fold_left (fun d file => dict_set (path file) (get_violations_kw file kwargs) d)
            files [].

(** [LintedPath.stats()] *)
Definition stats (files : list LintedFile) : gmap string Z :=
  <["violations" := py_sum (map (fun file => num_violations file no_kwargs) files)]>
    (<["unclean" := py_sum (map (fun file => int_of_bool (negb (is_clean file))) files)]>
       (<["clean" := py_sum (map (fun file => int_of_bool (is_clean file)) files)]>
          (<["files" := Z.of_nat (length files)]> ∅))).

(** [LintedPath.num_violations(kwargs)] *)
Definition num_violations (files : list LintedFile) (kwargs : Kwargs) : Z :=
  py_sum (map (fun file => num_violations file kwargs) files).

End LintedPath.

(** *** LintingResult *)

(** The values of the final statistics: integers, the float
    [num * 1.0 / den], and strings. *)
Inductive StatValue : Type :=
| IntValue (i : Z)
| FloatQuotient (num den : Z)
| StrValue (s : string).

Module LintingResult.

(** [LintingResult.sum_dicts(d1, d2)] *)
Definition sum_dicts (d1 d2 : gmap string Z) : gmap string Z :=
  let keys : gset string := dom d1 ∪ dom d2 in
  set_to_map
    (fun key => (key, default 0 (d1 !! key) + default 0 (d2 !! key)))
    keys.

(** [LintingResult.combine_dicts( *d )] *)
Definition combine_dicts {V : Type} (d : list (list (string * V)))
    : list (string * V) :=
  fold_left (fun dict_buffer dct => dict_update dict_buffer dct) d [].

(** [LintingResult.check_tuples()] with [by_path] false. *)
Fixpoint check_tuples_from (paths : list (list LintedFile))
    (tuple_buffer : list (string * Z * Z))
    : list (string * Z * Z) + Violation :=
  match paths with
  | [] => inl tuple_buffer
  | path :: paths' =>
      match LintedPath.check_tuples path with
      | inl tuples => check_tuples_from paths' (tuple_buffer ++ tuples)
      | inr v => inr v
      end
  end.

Definition check_tuples (paths : list (list LintedFile))
    : list (string * Z * Z) + Violation :=
  check_tuples_from paths [].

(** [LintingResult.num_violations(kwargs)] *)
Definition num_violations (paths : list (list LintedFile)) (kwargs : Kwargs)
    : Z :=
  py_sum (map (fun path => LintedPath.num_violations path kwargs) paths).

(** [LintingResult.get_violations(kwargs)] *)
Definition get_violations (paths : list (list LintedFile)) (kwargs : Kwargs)
    : list Violation :=
  fold_left (fun buff path => buff ++ LintedPath.get_violations path kwargs)
            paths [].

(** The message of the [ValueError] that [dict.update] raises on an
    element that is not a pair. *)
Definition update_message (index length : nat) : string :=
  "dictionary update sequence element #"
  +:+ NilZero.string_of_uint (Nat.to_uint index)
  +:+ " has length " +:+ NilZero.string_of_uint (Nat.to_uint length)
  +:+ "; 2 is required".

(** [dict_buffer.update(iterable)] on an iterable of dicts: each dict
    is read as the sequence of its keys, which has to be a key and a
    value. *)
Fixpoint update_from_dicts {V : Type} (dict_buffer : list (string * string))
    (index : nat) (dicts : list (list (string * V)))
    : outcome (list (string * string)) :=
  match dicts with
  | [] => Returns dict_buffer
  | dct :: dicts' =>
      match map fst dct with
      | [key; value] =>
          update_from_dicts (dict_set key value dict_buffer) (S index) dicts'
      | keys => Raises (ValueError (update_message index (length keys)))
      end
  end.

(** [LintingResult.violation_dict(kwargs)]: [combine_dicts] is called
    with one argument, the generator of the dicts of the paths, so the
    loop over [d] has one turn, which updates the buffer with the
    generator. *)
Definition violation_dict (paths : list (list LintedFile)) (kwargs : Kwargs)
    : outcome (list (string * string)) :=
  update_from_dicts []
    0%nat (map (fun path => LintedPath.violation_dict path kwargs) paths).

(** [LintingResult.stats()] *)
Definition stats (paths : list (list LintedFile))
    : outcome (gmap string StatValue) :=
  let all_stats : gmap string Z :=
    <["violations" := 0]> (<["unclean" := 0]> (<["clean" := 0]>
      (<["files" := 0]> ∅))) in
  let all_stats :=
    fold_left (fun all_stats path => sum_dicts (LintedPath.stats path) all_stats)
              paths all_stats in
  do* files := getitem all_stats "files" in
  do* rates :=
    if (files >? 0)%Z then
      do* violations := getitem all_stats "violations" in
      do* files := getitem all_stats "files" in
      do* unclean := getitem all_stats "unclean" in
      do* files' := getitem all_stats "files" in
      Returns (FloatQuotient violations files, FloatQuotient unclean files')
    else Returns (IntValue 0, IntValue 0) in
  do* clean := getitem all_stats "clean" in
  do* unclean := getitem all_stats "unclean" in
  do* violations := getitem all_stats "violations" in
  do* violations' := getitem all_stats "violations" in
  Returns
    (<["status" := StrValue (if (violations' >? 0)%Z then "FAIL" else "PASS")]>
       (<["exit code" := IntValue (if (violations >? 0)%Z then 65 else 0)]>
          (<["unclean files" := IntValue unclean]>
             (<["clean files" := IntValue clean]>
                (<["unclean rate" := snd rates]>
                   (<["avg per file" := fst rates]>
                      (IntValue <$> all_stats))))))).

(** The property [LintingResult.tree]. *)
Definition tree (paths : list (list LintedFile)) : outcome (option Segment) :=
  if (Z.of_nat (length paths) >? 1)%Z then
    Raises (ValueError
      ".tree() cannot be called when a LintingResult contains more than one path.")
  else
    match paths with
    | [] => Raises IndexError
    | path0 :: _ =>
        if (Z.of_nat (length path0) >? 1)%Z then
          Raises (ValueError
            ".tree() cannot be called when a LintingResult contains more than one file.")
        else
          match path0 with
          | [] => Raises IndexError
          | file0 :: _ => Returns (tree file0)
          end
    end.

End LintingResult.

(** ** Persisting the fixes *)

(** The keyword arguments of [num_violations(fixable=True, **kwargs)]. *)
Definition with_fixable (kwargs : Kwargs) : Kwargs :=
  {| kw_rules := kw_rules kwargs; kw_types := kw_types kwargs;
     kw_filter_ignore := kw_filter_ignore kwargs;
     kw_fixable := Some true |}.

(** The files on disk: their names and their text. *)
Abbreviation FileSystem := (gmap string string).

Section Persist.

Variable templated_slice_to_source_slice :
  TemplatedFile -> Py.slice -> res Py.slice.
Variable untouchable_slices : TemplatedFile -> list Py.slice.
(** [os.path.splitext] *)
Variable splitext : string -> string * string.

(** The name [persist_tree] writes to. *)
Definition target_name (lf : LintedFile) (suffix : string) : string :=
  let fname := path lf in
  (* If there is a suffix specified, then use it. *)
  match suffix with
  | EmptyString => fname
  | _ => let '(root, ext) := splitext fname in root +:+ suffix +:+ ext
  end.

(** [LintedFile.persist_tree(suffix)]; opening and writing the file is
    taken to succeed. *)
Definition persist_tree (lf : LintedFile) (suffix : string) (fs : FileSystem)
    : res (bool * FileSystem) :=
  let* fixed := fix_string templated_slice_to_source_slice untouchable_slices lf in
  let '(write_buff, success) := fixed in
  if success
  then Ok (success, <[target_name lf suffix := write_buff]> fs)
  else Ok (success, fs).

(** One turn of the loop of [LintedPath.persist_changes]; [kwargs] are
    filters other than [fixable], which the call sets. *)
Definition persist_step (fixed_file_suffix : string) (kwargs : Kwargs)
    (st : list (string * bool) * FileSystem) (file : LintedFile)
    : res (list (string * bool) * FileSystem) :=
  let '(buffer, fs) := st in
  if (num_violations file (with_fixable kwargs) >? 0)%Z then
    let* persisted := persist_tree file fixed_file_suffix fs in
    Ok (dict_set (path file) (fst persisted) buffer, snd persisted)
  else Ok (dict_set (path file) true buffer, fs).

Fixpoint persist_loop (fixed_file_suffix : string) (kwargs : Kwargs)
    (files : list LintedFile) (st : list (string * bool) * FileSystem)
    : res (list (string * bool) * FileSystem) :=
  match files with
  | [] => Ok st
  | file :: files' =>
      let* st := persist_step fixed_file_suffix kwargs st file in
      persist_loop fixed_file_suffix kwargs files' st
  end.

(** [LintedPath.persist_changes(fixed_file_suffix=..., **kwargs)]: the
    dict of the results and the files afterwards. *)
Definition path_persist_changes (fixed_file_suffix : string) (kwargs : Kwargs)
    (files : list LintedFile) (fs : FileSystem)
    : res (list (string * bool) * FileSystem) :=
  persist_loop fixed_file_suffix kwargs files ([], fs).

(** [LintingResult.persist_changes(kwargs)]: the list of the dicts of
    the paths is built first, then the dicts are combined. *)
Fixpoint persist_paths (fixed_file_suffix : string) (kwargs : Kwargs)
    (paths : list (list LintedFile)) (fs : FileSystem)
    : res (list (list (string * bool)) * FileSystem) :=
  match paths with
  | [] => Ok ([], fs)
  | path :: paths' =>
      let* persisted := path_persist_changes fixed_file_suffix kwargs path fs in
      let* rest := persist_paths fixed_file_suffix kwargs paths' (snd persisted) in
      Ok (fst persisted :: fst rest, snd rest)
  end.

Definition persist_changes (fixed_file_suffix : string) (kwargs : Kwargs)
    (paths : list (list LintedFile)) (fs : FileSystem)
    : res (list (string * bool) * FileSystem) :=
  let* persisted := persist_paths fixed_file_suffix kwargs paths fs in
  Ok (LintingResult.combine_dicts (fst persisted), snd persisted).

End Persist.

(** ** Linting a string into a result *)

Section LinterWrapped.

Context {Fixes : Type} `{EqDecision Fixes}.
Variable fixes_truthy : Fixes -> bool.
Variable get_ruleset : Config -> list (Crawler Fixes).
Variable apply_fixes : Segment -> Fixes -> Segment * Fixes.
Variable parse_string :
  string -> string -> Config ->
  option Segment * list Violation * option TemplatedFile.
Variable recursive_crawl : Segment -> string -> list Segment.
Variable raw_trimmed : Segment -> string.
Variable ignore_if_in : Violation -> list string -> Violation.

(** [Linter.lint_string_wrapped(string, fname, fix)]: [lint_string] is
    called without [config] and falls back on the linter's own,
    [self_config]. *)
Definition lint_string_wrapped (self_config : Config)
    (in_str fname : string) (fixing : bool) : res (list (list LintedFile)) :=
  let result : list (list LintedFile) := [] in
  let linted_path : list LintedFile := [] in
  let* linted :=
    lint_string fixes_truthy get_ruleset apply_fixes parse_string
                recursive_crawl raw_trimmed ignore_if_in
                in_str fname fixing self_config in
  let linted_path := linted_path ++ [linted] in
  Ok (result ++ [linted_path]).

End LinterWrapped.

(** ** Finding the files of a path *)

(** [s.endswith(suffix)] *)
Definition endswith (s suffix : string) : bool :=
  (String.length suffix <=? String.length s)%nat
  && String.eqb (Py.drop (String.length s - String.length suffix) s) suffix.

Section PathsFromPath.

(** What the function reads from the operating system:
    [os.path.exists], [os.path.isdir], [os.walk] (its directory paths
    and file names), [os.path.join] and [os.path.normpath]. *)
Variable path_exists : string -> bool.
Variable isdir : string -> bool.
Variable walk : string -> list (string * list string).
Variable path_join : string -> string -> string.
Variable normpath : string -> string.
(** The exceptions of [open] and of [pathspec]. *)
Context {Exc : Type}.
(** Opening the ignore file [fpath], reading the spec from its lines
    and [spec.match_tree(dirpath)]: the matches, or the exception that
    one of the three raises. *)
Variable match_tree : string -> string -> list string + Exc.
(** [self.sql_exts] *)
Variable sql_exts : list string.

(** One turn of [for fname in filenames]; the state is the ignore set
    and the buffer.  An exception from the ignore file ends the
    call. *)
Definition scan_file (ignore_file_name dirpath : string)
    (st : gset string * list string) (fname : string)
    : gset string * list string + Exc :=
  let '(ignore_set, buffer) := st in
  let fpath := path_join dirpath fname in
  (* Handle potential .sqlfluffignore files *)
  if String.eqb fname ignore_file_name then
    match match_tree fpath dirpath with
    | inl matches =>
        inl (fold_left
               (fun ignore_set m => ignore_set ∪ {[ path_join dirpath m ]})
               matches ignore_set,
             buffer)
    | inr e => inr e
    end
  else
    (* Scan for remaining files *)
    inl (ignore_set,
         fold_left (fun buffer ext =>
                      if endswith fname ext then buffer ++ [fpath] else buffer)
                   sql_exts buffer).

(** [for fname in filenames] *)
Fixpoint scan_files (ignore_file_name dirpath : string)
    (filenames : list string) (st : gset string * list string)
    : gset string * list string + Exc :=
  match filenames with
  | [] => inl st
  | fname :: filenames' =>
      match scan_file ignore_file_name dirpath st fname with
      | inl st' => scan_files ignore_file_name dirpath filenames' st'
      | inr e => inr e
      end
  end.

(** [for dirpath, _, filenames in os.walk(path)] *)
Fixpoint scan_dirs (ignore_file_name : string)
    (entries : list (string * list string)) (st : gset string * list string)
    : gset string * list string + Exc :=
  match entries with
  | [] => inl st
  | (dirpath, filenames) :: entries' =>
      match scan_files ignore_file_name dirpath filenames st with
      | inl st' => scan_dirs ignore_file_name entries' st'
      | inr e => inr e
      end
  end.

(** [Linter.paths_from_path(path, ignore_file_name,
    ignore_non_existent_files)]: what the function returns or raises
    itself, or the exception of an ignore file, passed on. *)
Definition paths_from_path (path ignore_file_name : string)
    (ignore_non_existent_files : bool) : outcome (list string) + Exc :=
  if negb (path_exists path) then
    if ignore_non_existent_files then inl (Returns [])
    else inl (Raises (IOError "Specified path does not exist"))
  (* Files referred to exactly are never ignored. *)
  else if negb (isdir path) then inl (Returns [path])
  else
    match scan_dirs ignore_file_name (walk path) (∅, []) with
    | inl (ignore_set, buffer) =>
        (* Check the buffer for ignore items and normalise the rest. *)
        let filtered_buffer :=
          fold_left (fun filtered_buffer fpath =>
                       if bool_decide (fpath ∉ ignore_set)
                       then filtered_buffer ++ [normpath fpath]
                       else filtered_buffer)
                    buffer [] in
        inl (Returns (Py.sorted String.leb filtered_buffer))
    | inr e => inr e
    end.

End PathsFromPath.


(** ** Vocabulary of the statements *)

(** What the condition of the ignore-mask loop says: the violation is on
    the entry's line, and the entry names all rules or the violation's. *)
Definition entry_applies (entry : IgnoreEntry) (v : Violation) : Prop :=
  line_no v = fst entry
  /\ (snd entry = None \/ exists rules, snd entry = Some rules /\ rule_code v ∈ rules).

(** The order of the sort key [(line_no, line_pos, code)]: tuples compare
    component by component, strings by code point. *)
Definition key_le (k1 k2 : Z * Z * string) : Prop :=
  let '(l1, p1, c1) := k1 in
  let '(l2, p2, c2) := k2 in
  l1 < l2 \/ (l1 = l2 /\ (p1 < p2 \/ (p1 = p2 /\ String.leb c1 c2 = true))).

Definition record_le (d1 d2 : InfoDict) : Prop :=
  key_le (record_key d1) (record_key d2).

(** The same order on check tuples [(code, line, pos)]. *)
Definition tuple_le (t1 t2 : string * Z * Z) : Prop :=
  let '(c1, l1, p1) := t1 in
  let '(c2, l2, p2) := t2 in
  key_le (l1, p1, c1) (l2, p2, c2).

(** The claim that [check_tuples] returns its tuples in
    [(line_no, line_pos, code)] order. *)
Definition check_tuples_sorted : Prop :=
  forall lf l, check_tuples lf = inl l -> Sorted tuple_le l.

(** How often the slices of a buffer cover a source offset. *)
Definition covers (s : Py.slice) (i : Z) : bool :=
  (Py.start s <=? i) && (i <? Py.stop s).

Definition cover_count (buff : list Py.slice) (i : Z) : nat :=
  length (List.filter (fun s => covers s i) buff).

(** A buffer tiles [[0, len)]: the slices come in the order of their start
    offsets and every offset of the source is covered exactly once, none
    outside. *)
Definition tiles (len : Z) (buff : list Py.slice) : Prop :=
  Sorted (fun s1 s2 => Py.start s1 <= Py.start s2) buff
  /\ forall i, cover_count buff i = if (0 <=? i) && (i <? len) then 1%nat else 0%nat.

(** A buffer whose slices follow one another from offset [a] to offset
    [b] without gap or overlap. *)
Inductive contiguous : Z -> list Py.slice -> Z -> Prop :=
| contiguous_nil a : contiguous a [] a
| contiguous_cons a s buff b :
    Py.start s = a -> a <= Py.stop s -> contiguous (Py.stop s) buff b ->
    contiguous a (s :: buff) b.

(** Untouchable ranges as [untouchable_slices()] is meant to give them:
    inside the source, in order and disjoint, none before [lo]. *)
Fixpoint untouchables_ordered (lo len : Z) (us : list Py.slice) : Prop :=
  match us with
  | [] => True
  | u :: rest =>
      lo <= Py.start u /\ Py.start u <= Py.stop u /\ Py.stop u <= len
      /\ untouchables_ordered (Py.stop u) len rest
  end.

Definition patch_in_bounds (len : Z) (patch : SourcePatch) : Prop :=
  0 <= Py.start (fst patch) <= Py.stop (fst patch) /\ Py.stop (fst patch) <= len.

(** The patch starts at or before the start of the untouchable range and
    goes on beyond it. *)
Definition reaches_into (patch : SourcePatch) (u : Py.slice) : Prop :=
  Py.start (fst patch) <= Py.start u < Py.stop (fst patch).

Section FixStringSpec.

Variable templated_slice_to_source_slice :
TemplatedFile -> Py.slice -> res Py.slice.
Variable untouchable_slices : TemplatedFile -> list Py.slice.

(** The claim that the output of [fix_string] equals the source exactly
  when no patch remains after deduplication. *)
Definition unchanged_iff_no_patches : Prop :=
forall lf tf seg patches out changed,
  templated_file lf = Some tf -> tree lf = Some seg ->
  source_patches templated_slice_to_source_slice tf seg = Ok patches ->
  fix_string templated_slice_to_source_slice untouchable_slices lf
  = Ok (out, changed) ->
  (out = source_str tf <-> patches = [])
  /\ (changed = true <-> out <> source_str tf).

End FixStringSpec.

Section LinterSpec.

Context {Fixes : Type} `{EqDecision Fixes}.
Variable fixes_truthy : Fixes -> bool.
Variable apply_fixes : Segment -> Fixes -> Segment * Fixes.

(** The fixes of the last [ApplyingFixes] record of a log. *)
Fixpoint last_applying (records : list (LogRecord Fixes)) : option Fixes :=
match records with
| [] => None
| r :: rest =>
    match last_applying rest, r with
    | Some f, _ => Some f
    | None, ApplyingFixes _ f => Some f
    | None, _ => None
    end
end.

(** [last_fixes] is the last edit set whose application was logged. *)
Definition last_fixes_logged (vars : LoopVars Fixes) : Prop :=
last_fixes vars = last_applying (log vars).

(** The linting errors only grow. *)
Definition errors_extend (vars0 vars : LoopVars Fixes) : Prop :=
exists later, linting_errors vars = linting_errors vars0 ++ later.

(** Every fix application logged since [vars0] belongs to a round in
  [(lo, hi]]. *)
Definition applications_within (lo hi : Z) (vars0 vars : LoopVars Fixes) : Prop :=
forall k fixes,
  ApplyingFixes k fixes ∈ log vars ->
  ApplyingFixes k fixes ∈ log vars0 \/ lo < k <= hi.

(** What one turn of the loop over the rules does to the loop variables,
  case by case: the rule proposed nothing to apply; its fixes are those
  of [last_fixes]; its fixes were applied and the new tree committed; its
  fixes were applied and the new tree rejected as already seen. *)
Inductive step_outcome (config : Config) (fixing : bool) (idx : Z)
  (vars : LoopVars Fixes) (changed : bool) (crawler : Crawler Fixes)
  : LoopVars Fixes * bool -> Prop :=
| step_no_fix lerrs fixes :
  crawl crawler (working vars) (dialect config) fixing = (lerrs, fixes) ->
  fixing && fixes_truthy fixes = false ->
  step_outcome config fixing idx vars changed crawler
    ({| working := working vars;
        previous_versions := previous_versions vars;
        linting_errors := linting_errors vars ++ lerrs;
        last_fixes := last_fixes vars;
        log := log vars |}, changed)
| step_same_fix lerrs fixes :
  crawl crawler (working vars) (dialect config) fixing = (lerrs, fixes) ->
  fixing && fixes_truthy fixes = true ->
  last_fixes vars = Some fixes ->
  step_outcome config fixing idx vars changed crawler
    ({| working := working vars;
        previous_versions := previous_versions vars;
        linting_errors := linting_errors vars ++ lerrs;
        last_fixes := last_fixes vars;
        log := log vars ++ [FixNotAppliedWarning (code crawler)] |}, changed)
| step_commit lerrs fixes new_working unused :
  crawl crawler (working vars) (dialect config) fixing = (lerrs, fixes) ->
  fixing && fixes_truthy fixes = true ->
  last_fixes vars <> Some fixes ->
  apply_fixes (working vars) fixes = (new_working, unused) ->
  raw new_working ∉ previous_versions vars ->
  step_outcome config fixing idx vars changed crawler
    ({| working := new_working;
        previous_versions := previous_versions vars ∪ {[ raw new_working ]};
        linting_errors := linting_errors vars ++ lerrs;
        last_fixes := Some fixes;
        log := log vars ++ [ApplyingFixes idx fixes]
                        ++ [RemainderFixes idx unused] |}, true)
| step_seen lerrs fixes new_working unused :
  crawl crawler (working vars) (dialect config) fixing = (lerrs, fixes) ->
  fixing && fixes_truthy fixes = true ->
  last_fixes vars <> Some fixes ->
  apply_fixes (working vars) fixes = (new_working, unused) ->
  raw new_working ∈ previous_versions vars ->
  step_outcome config fixing idx vars changed crawler
    ({| working := working vars;
        previous_versions := previous_versions vars;
        linting_errors := linting_errors vars ++ lerrs;
        last_fixes := Some fixes;
        log := log vars ++ [ApplyingFixes idx fixes]
                        ++ [RemainderFixes idx unused]
                        ++ [FixNotAppliedWarning (code crawler)] |}, changed).

(** The value [fix_loop_idx] has when the loop is left counts the turns
  begun; the turn that breaks at the limit test runs no rule, every
  other turn is a full iteration. *)
Definition full_iterations (r : LoopResult Fixes) : Z :=
match loop_exit r with
| LoopLimitReached => fix_loop_idx r - 1
| _ => fix_loop_idx r
end.

(** The claim that [last_fixes] is assigned only where the new tree is
  committed, for one turn of the loop over the rules. *)
Definition last_fixes_assigned_only_on_commit : Prop :=
forall config fixing idx vars changed crawler,
  let st := crawl_step fixes_truthy apply_fixes config fixing idx
                       (vars, changed) crawler in
  last_fixes (fst st) <> last_fixes vars ->
  snd st = true
  /\ (raw (working (fst st)) ∉ previous_versions vars)
  /\ previous_versions (fst st)
     = previous_versions vars ∪ {[ raw (working (fst st)) ]}.

End LinterSpec.

(** ** Vocabulary of the further properties *)

(** Patches that follow one another from [idx] on: each starts at or
    after the stop of the one before it. *)
Fixpoint well_separated (idx : Z) (patches : list SourcePatch) : Prop :=
  match patches with
  | [] => True
  | patch :: rest =>
      idx <= Py.start (fst patch) /\ Py.start (fst patch) <= Py.stop (fst patch)
      /\ well_separated (Py.stop (fst patch)) rest
  end.

(** The source from [idx] on with every patch range replaced by the text
    of its patch, and all the rest copied. *)
Fixpoint apply_patches (source : string) (idx : Z) (patches : list SourcePatch)
    : string :=
  match patches with
  | [] => Py.getslice source (Py.Slice idx (Z.of_nat (String.length source)))
  | patch :: rest =>
      Py.getslice source (Py.Slice idx (Py.start (fst patch)))
      +:+ snd patch +:+ apply_patches source (Py.stop (fst patch)) rest
  end.

(** The patch and the untouchable range keep apart: the range ends at or
    before the start of the patch, having started before it, or starts at
    or after the stop of the patch; and they are not the same slice. *)
Definition apart (patch : SourcePatch) (u : Py.slice) : Prop :=
  fst patch <> u
  /\ ((Py.start u < Py.start (fst patch) /\ Py.stop u <= Py.start (fst patch))
      \/ Py.stop (fst patch) <= Py.start u).

(** The segment carries the enriched marker of a parsed segment, not the
    plain marker of a segment that a fix created. *)
Definition enriched (seg : Segment) : Prop :=
  match pos_marker seg with
  | EnrichedFilePositionMarker _ _ _ _ _ => True
  | FilePositionMarker _ _ => False
  end.

(** What the filters of [get_violations] ask of a violation: its class is
    one of [types], its rule code one of [rules], its [fixable] attribute
    the one asked for, and with [filter_ignore] its ignore flag is unset
    and no entry of the ignore mask applies.  A filter that is not given
    asks nothing. *)
Definition passes_filters (lf : LintedFile) (kwargs : Kwargs) (v : Violation)
    : Prop :=
  (kw_types kwargs = []
   \/ exists cls, cls ∈ kw_types kwargs /\ isinstance v cls = true)
  /\ (kw_rules kwargs = [] \/ rule_code v ∈ kw_rules kwargs)
  /\ (forall b, kw_fixable kwargs = Some b -> fixable v = b)
  /\ (kw_filter_ignore kwargs = true ->
      ignore v = false
      /\ forall entry, entry ∈ ignore_mask lf -> ~ entry_applies entry v).

(** The filters by class, rule and fixability as one test. *)
Definition keep_unignored (rules : list string) (types : list ErrClass)
    (fixable_arg : option bool) (v : Violation) : bool :=
  match types with [] => true | _ => existsb (isinstance v) types end
  && (match rules with [] => true | _ => bool_decide (rule_code v ∈ rules) end
      && match fixable_arg with Some b => Bool.eqb (fixable v) b | None => true end).

(** The check tuple of a linting violation. *)
Definition tuple_of (v : Violation) : string * Z * Z :=
  (rule_code v, line_no v, line_pos v).

Definition is_lint_error (v : Violation) : Prop := v_class v = SQLLintError.

(** What a [check_tuples] gives on the violations [vs] it goes through:
    their tuples when all are linting violations, else the first one
    that is not, raised. *)
Definition tuples_or_first_other (vs : list Violation)
    (result : list (string * Z * Z) + Violation) : Prop :=
  match result with
  | inl tuples => Forall is_lint_error vs /\ tuples = map tuple_of vs
  | inr v =>
      exists before after,
        vs = before ++ v :: after
        /\ Forall is_lint_error before /\ ~ is_lint_error v
  end.

(** A dict of the four counters of [stats]. *)
Definition stats_dict (files clean unclean violations : Z) : gmap string Z :=
  <["violations" := violations]>
    (<["unclean" := unclean]> (<["clean" := clean]> (<["files" := files]> ∅))).

(** How many of the files satisfy a test. *)
Definition count_files (test : LintedFile -> bool) (files : list LintedFile) : Z :=
  Z.of_nat (length (List.filter test files)).

(** The dict [LintingResult.stats] returns for given counters. *)
Definition final_stats (files clean unclean violations : Z)
    : gmap string StatValue :=
  <["status" := StrValue (if (violations >? 0)%Z then "FAIL" else "PASS")]>
    (<["exit code" := IntValue (if (violations >? 0)%Z then 65 else 0)]>
       (<["unclean files" := IntValue unclean]>
          (<["clean files" := IntValue clean]>
             (<["unclean rate" :=
                  if (files >? 0)%Z then FloatQuotient unclean files
                  else IntValue 0]>
                (<["avg per file" :=
                     if (files >? 0)%Z then FloatQuotient violations files
                     else IntValue 0]>
                   (IntValue <$> stats_dict files clean unclean violations)))))).

(** The file names of a path, each once, in the order in which they
    first occur: the keys of the dicts built over the files. *)
Definition file_names (files : list LintedFile) : list string :=
  Py.dedupe (map path files).

(** The record of a file in [as_records]. *)
Definition record_of (file : LintedFile) : ResultRecord :=
  {| filepath := path file;
     rec_violations :=
       Py.sorted record_leb (map get_info_dict (get_violations_default file)) |}.

Section PersistSpec.

Variable templated_slice_to_source_slice :
TemplatedFile -> Py.slice -> res Py.slice.
Variable untouchable_slices : TemplatedFile -> list Py.slice.
Variable splitext : string -> string * string.

(** The file is one that [persist_changes] writes: it has a fixable
  violation under the filters and [fix_string] returns [out] for it,
  with the flag [changed]. *)
Definition fixed_to (kwargs : Kwargs) (file : LintedFile)
  (out : string) (changed : bool) : Prop :=
0 < num_violations file (with_fixable kwargs)
/\ fix_string templated_slice_to_source_slice untouchable_slices file
   = Ok (out, changed).

(** What [persist_changes] leaves behind, for the files that satisfy
  [linted]: a file on disk is as it was in [before], or it holds the
  changed text of one of them; and a [False] in the dict of results
  stands for one of them that [fix_string] did not change. *)
Definition persisted (linted : LintedFile -> Prop) (suffix : string)
  (kwargs : Kwargs) (before : FileSystem)
  (results : list (string * bool)) (after : FileSystem) : Prop :=
(forall fname,
   after !! fname = before !! fname
   \/ exists file out,
        linted file /\ target_name splitext file suffix = fname
        /\ fixed_to kwargs file out true
        /\ after !! fname = Some out)
/\ (forall fname,
      (fname, false) ∈ results ->
      exists file out,
        linted file /\ path file = fname
        /\ fixed_to kwargs file out false).

End PersistSpec.

(** The working tree is a version on record, and the record only
    grows. *)
Definition on_record {Fixes : Type} (seen : gset string)
    (vars : LoopVars Fixes) : Prop :=
  raw (working vars) ∈ previous_versions vars
  /\ seen ⊆ previous_versions vars.

Section PathsSpec.

Variable walk : string -> list (string * list string).
Variable path_join : string -> string -> string.
Context {Exc : Type}.
Variable match_tree : string -> string -> list string + Exc.
Variable sql_exts : list string.

(** [fpath] is a file under [path] whose name ends in one of the SQL
  extensions and is not the name of the ignore file. *)
Definition sql_file_under (path ignore_file_name fpath : string) : Prop :=
exists dirpath filenames fname,
  (dirpath, filenames) ∈ walk path /\ fname ∈ filenames
  /\ fname <> ignore_file_name
  /\ (exists ext, ext ∈ sql_exts /\ endswith fname ext = true)
  /\ fpath = path_join dirpath fname.

(** Some ignore file under [path], in whatever directory, matches
  [fpath]. *)
Definition ignored_under (path ignore_file_name fpath : string) : Prop :=
exists dirpath filenames matches m,
  (dirpath, filenames) ∈ walk path /\ ignore_file_name ∈ filenames
  /\ match_tree (path_join dirpath ignore_file_name) dirpath = inl matches
  /\ m ∈ matches
  /\ fpath = path_join dirpath m.

(** The directory has no ignore file, or one that is read without an
  exception. *)
Definition ignore_file_read (ignore_file_name : string)
  (entry : string * list string) : Prop :=
ignore_file_name ∈ snd entry ->
exists matches,
  match_tree (path_join (fst entry) ignore_file_name) (fst entry)
  = inl matches.

End PathsSpec.

Section NoqaSpec.

Variable raw_trimmed : Segment -> string.

(** What the comment loop of [lint_string] is to keep of the comments it
  goes through: the mask entries of the inline comments, in the order
  of the comments, and the parse errors of the malformed ones. *)
Definition noqa_entries (comments : list Segment) : list IgnoreEntry :=
flat_map
  (fun comment =>
     if String.eqb (name comment) "inline_comment" then
       match extract_ignore_from_comment raw_trimmed comment with
       | NoqaEntry entry => [entry]
       | _ => []
       end
     else [])
  comments.

Definition noqa_errors (comments : list Segment) : list Violation :=
flat_map
  (fun comment =>
     if String.eqb (name comment) "inline_comment" then
       match extract_ignore_from_comment raw_trimmed comment with
       | NoqaError err => [err]
       | _ => []
       end
     else [])
  comments.

End NoqaSpec.

(** ** Concrete files and rules *)

Module Examples.

Definition leaf (raw : string) (marker : PosMarker) : Segment :=
  {| raw := raw; pos_marker := marker; name := "raw"; class_types := ["raw"];
     is_meta := false; segments := [] |}.

Definition literal_leaf (raw : string) (t0 t1 s0 s1 : Z) : Segment :=
  leaf raw (EnrichedFilePositionMarker 1 (t0 + 1) (Py.Slice t0 t1)
              (Py.Slice s0 s1) true).

Definition file_root (raw : string) (t1 s1 : Z) (children : list Segment)
    : Segment :=
  {| raw := raw;
     pos_marker :=
       EnrichedFilePositionMarker 1 1 (Py.Slice 0 t1) (Py.Slice 0 s1) false;
     name := "file"; class_types := ["file"]; is_meta := false;
     segments := children |}.

(** A source with an [if] block; the templated text has a blank on each
    side of the place where the opening tag stood, lexed as one
    whitespace segment. *)
Definition tag_source : string := "1 {%if c%} +2{%endif%}".
Definition tag_templated : string := "1  +2".

Definition tag_file : TemplatedFile :=
  {| source_str := tag_source;
     templated_str := tag_templated;
     sliced_file :=
       [ mkFileSlice "literal" (Py.Slice 0 2) (Py.Slice 0 2);
         mkFileSlice "block" (Py.Slice 2 10) (Py.Slice 2 2);
         mkFileSlice "literal" (Py.Slice 10 13) (Py.Slice 2 5);
         mkFileSlice "block" (Py.Slice 13 22) (Py.Slice 5 5) ] |}.

(** The tree after a fix replaced the two blanks by one: the new
    whitespace segment has a plain marker. *)
Definition tag_tree_one_fix : Segment :=
  file_root "1 +2" 5 22
    [ literal_leaf "1" 0 1 0 1;
      leaf " " (FilePositionMarker 1 2);
      literal_leaf "+" 3 4 11 12;
      literal_leaf "2" 4 5 12 13 ].

Definition tag_linted_one_fix : LintedFile :=
  {| path := "tag.sql"; violations := []; tree := Some tag_tree_one_fix;
     ignore_mask := []; templated_file := Some tag_file |}.

(** The same with a second fix that rewrote the literal [2]. *)
Definition tag_tree_two_fixes : Segment :=
  file_root "1 +3" 5 22
    [ literal_leaf "1" 0 1 0 1;
      leaf " " (FilePositionMarker 1 2);
      literal_leaf "+" 3 4 11 12;
      literal_leaf "3" 4 5 12 13 ].

Definition tag_linted_two_fixes : LintedFile :=
  {| path := "tag.sql"; violations := []; tree := Some tag_tree_two_fixes;
     ignore_mask := []; templated_file := Some tag_file |}.

(** A templated slice without source text: the templater put [XYZ ]
    into the templated string at source offset 2. *)
Definition gen_file : TemplatedFile :=
  {| source_str := "a b";
     templated_str := "a XYZ b";
     sliced_file :=
       [ mkFileSlice "literal" (Py.Slice 0 2) (Py.Slice 0 2);
         mkFileSlice "templated" (Py.Slice 2 2) (Py.Slice 2 6);
         mkFileSlice "literal" (Py.Slice 2 3) (Py.Slice 6 7) ] |}.

(** The tree after a fix deleted the generated segment. *)
Definition gen_tree : Segment :=
  file_root "a b" 7 3
    [ literal_leaf "a " 0 2 0 2; literal_leaf "b" 6 7 2 3 ].

Definition gen_linted : LintedFile :=
  {| path := "gen.sql"; violations := []; tree := Some gen_tree;
     ignore_mask := []; templated_file := Some gen_file |}.

(** A file whose tree is untouched. *)
Definition clean_linted : LintedFile :=
  {| path := "tag.sql"; violations := [];
     tree := Some (file_root tag_templated 5 22
                     [ literal_leaf "1" 0 1 0 1;
                       literal_leaf "  " 1 3 1 11;
                       literal_leaf "+" 3 4 11 12;
                       literal_leaf "2" 4 5 12 13 ]);
     ignore_mask := []; templated_file := Some tag_file |}.

Definition lint_error (code : string) (line pos : Z) : Violation :=
  {| v_class := SQLLintError; rule_code := code; line_no := line;
     line_pos := pos; description := "";
     fixable := true; ignore := false |}.

(** Two rules ran one after the other: the first found something on
    line 5, the second on line 2. *)
Definition unsorted_linted : LintedFile :=
  {| path := "a.sql";
     violations := [lint_error "L001" 5 1; lint_error "L003" 2 3];
     tree := None; ignore_mask := []; templated_file := None |}.

(** The violations of [SELECT  1  -- noqa: L001] over [SELECT  1], with
    the mask entry of the comment, and the same under a bare [noqa]. *)
Definition noqa_linted : LintedFile :=
  {| path := "noqa.sql";
     violations :=
       [lint_error "L001" 1 7; lint_error "L003" 1 9; lint_error "L001" 2 7];
     tree := None; ignore_mask := [(1, Some ["L001"])];
     templated_file := None |}.

Definition bare_noqa_linted : LintedFile :=
  {| path := "noqa.sql";
     violations :=
       [lint_error "L001" 1 7; lint_error "L003" 1 9; lint_error "L001" 2 7];
     tree := None; ignore_mask := [(1, None)];
     templated_file := None |}.

(** A toy rule set on one-segment trees.  A fix [(old, new)] rewrites
    the raw text [old] to [new]. *)
Definition ToyFixes : Type := list (string * string).

Definition toy_truthy (fixes : ToyFixes) : bool :=
  match fixes with [] => false | _ => true end.

Definition toy_tree (raw : string) : Segment :=
  file_root raw (Z.of_nat (String.length raw)) (Z.of_nat (String.length raw)) [].

Fixpoint toy_apply_fixes (seg : Segment) (fixes : ToyFixes)
    : Segment * ToyFixes :=
  match fixes with
  | [] => (seg, [])
  | (old, new) :: rest =>
      if String.eqb (raw seg) old
      then toy_apply_fixes (toy_tree new) rest
      else let '(seg', unused) := toy_apply_fixes seg rest in
           (seg', (old, new) :: unused)
  end.

(** A rule that reports [code] and proposes [old -> new] wherever the
    text is [old]. *)
Definition rewrite_rule (code old new : string) : Crawler ToyFixes :=
  {| code := code;
     crawl := fun seg _ fixing =>
       if String.eqb (raw seg) old
       then ([lint_error code 1 1], if fixing then [(old, new)] else [])
       else ([], []) |}.

(** Two rules that undo each other. *)
Definition oscillating_rules (_ : Config) : list (Crawler ToyFixes) :=
  [rewrite_rule "L001" "A" "B"; rewrite_rule "L002" "B" "A"].

(** A rule that never settles: it appends a character. *)
Definition growing_rule : Crawler ToyFixes :=
  {| code := "L009";
     crawl := fun seg _ fixing =>
       ([lint_error "L009" 1 1],
        if fixing then [(raw seg, raw seg +:+ "x")] else []) |}.

Definition toy_parse_string (in_str fname : string) (_ : Config)
    : option Segment * list Violation * option TemplatedFile :=
  (Some (toy_tree in_str), [], None).

Definition toy_recursive_crawl (seg : Segment) (ty : string) : list Segment :=
  List.filter (fun s => is_type s ty) (segments seg).

(** [raw_trimmed] of a comment drops the leading dashes. *)
Definition toy_raw_trimmed (seg : Segment) : string :=
  if Py.startswith (raw seg) "--" then Py.drop 2 (raw seg) else raw seg.

Definition toy_ignore_if_in (v : Violation) (ignore_iterable : list string)
    : Violation :=
  if bool_decide ("linting" ∈ ignore_iterable) then
    {| v_class := v_class v; rule_code := rule_code v; line_no := line_no v;
       line_pos := line_pos v; description := description v;
       fixable := fixable v; ignore := true |}
  else v.

Definition toy_config (limit : Z) : Config :=
  {| runaway_limit := limit; cfg_ignore := []; dialect := "ansi" |}.

Definition toy_lint_loop (rules : Config -> list (Crawler ToyFixes))
    (limit : Z) (fixing : bool) (in_str : string) : LoopResult ToyFixes :=
  lint_loop toy_truthy rules toy_apply_fixes (toy_config limit) fixing
            (toy_tree in_str).

Definition toy_lint_string (rules : Config -> list (Crawler ToyFixes))
    (limit : Z) (fixing : bool) (in_str : string) : res LintedFile :=
  lint_string toy_truthy rules toy_apply_fixes toy_parse_string
              toy_recursive_crawl toy_raw_trimmed toy_ignore_if_in
              in_str "<string input>" fixing (toy_config limit).

Definition comment_segment (raw : string) (line : Z) : Segment :=
  {| raw := raw; pos_marker := FilePositionMarker line 10;
     name := "inline_comment"; class_types := ["comment"; "raw"];
     is_meta := false; segments := [] |}.

End Examples.

(** ** Files on disk *)

Module DiskExamples.

(** [os.path.splitext] as [posixpath] has it.  The extension starts at
    the last dot of the last component of the path, the text after
    the last [/]; a component without a dot, or with nothing but dots
    before its last dot, has no extension. *)
Fixpoint split_last_dot (s : string) : option (string * string) :=
  match s with
  | EmptyString => None
  | String c rest =>
      match split_last_dot rest with
      | Some (root, ext) => Some (String c root, ext)
      | None => if Ascii.eqb c "." then Some (EmptyString, s) else None
      end
  end.

(** The path up to and including its last [/], and the component
    after it. *)
Fixpoint split_last_sep (s : string) : string * string :=
  match s with
  | EmptyString => (EmptyString, EmptyString)
  | String c rest =>
      let '(head, tail) := split_last_sep rest in
      match head with
      | EmptyString =>
          if Ascii.eqb c "/" then (String c EmptyString, rest)
          else (EmptyString, s)
      | _ => (String c head, tail)
      end
  end.

Fixpoint all_dots (s : string) : bool :=
  match s with
  | EmptyString => true
  | String c rest => Ascii.eqb c "." && all_dots rest
  end.

Definition splitext (p : string) : string * string :=
  let '(head, tail) := split_last_sep p in
  match split_last_dot tail with
  | Some (root, ext) =>
      if all_dots root then (p, EmptyString) else (head +:+ root, ext)
  | None => (p, EmptyString)
  end.

(** The file with the [if] block after two fixes, with the violation
    that the second fix answers, and the same file without a fixable
    violation. *)
Definition fixable_linted : LintedFile :=
  {| path := "tag.sql";
     violations := [Examples.lint_error "L039" 1 2];
     tree := Some Examples.tag_tree_two_fixes;
     ignore_mask := [];
     templated_file := Some Examples.tag_file |}.

(** A file that failed to parse: its only violation is the parse
    error, which is not fixable. *)
Definition unparsed_linted : LintedFile :=
  {| path := "other.sql";
     violations :=
       [ {| v_class := SQLParseError; rule_code := "PRS"; line_no := 1;
            line_pos := 1; description := "Found unparsable section";
            fixable := false; ignore := false |} ];
     tree := None; ignore_mask := []; templated_file := None |}.

Definition disk : FileSystem :=
  <["tag.sql" := Examples.tag_source]> (<["other.sql" := "SELEC 1"]> ∅).

Definition persist_changes_on_disk (suffix : string)
    : res (list (string * bool) * FileSystem) :=
  persist_changes SliceMap.templated_slice_to_source_slice
    SliceMap.untouchable_slices splitext suffix no_kwargs
    [[fixable_linted; unparsed_linted]] disk.

End DiskExamples.

(** ** Linted strings *)

Module WrappedExamples.

(** What the toy linter returns for the text [A] without [fix]. *)
Definition linted_A : LintedFile :=
  {| path := "<string input>";
     violations := [Examples.lint_error "L001" 1 1];
     tree := Some (Examples.toy_tree "A");
     ignore_mask := [];
     templated_file := None |}.

End WrappedExamples.

(** ** A file with [noqa] comments *)

Module NoqaExamples.

(** The tree of two lines [SELECT  1]: the first ends in the comment
    [-- noqa: L001], the second in [-- noqa L003], which lacks the
    colon. *)
Definition commented_tree : Segment :=
  Examples.file_root "SELECT  1 -- noqa: L001 SELECT  1 -- noqa L003" 46 46
    [ Examples.comment_segment "-- noqa: L001" 1;
      Examples.comment_segment "-- noqa L003" 2 ].

Definition parse_commented (in_str fname : string) (_ : Config)
    : option Segment * list Violation * option TemplatedFile :=
  (Some commented_tree, [], None).

(** A rule that finds the double blank of both lines, and a second
    thing on line 1. *)
Definition reporting_rule : Crawler Examples.ToyFixes :=
  {| code := "L001";
     crawl := fun _ _ _ =>
       ([ Examples.lint_error "L001" 1 7; Examples.lint_error "L003" 1 9;
          Examples.lint_error "L001" 2 7 ], []) |}.

Definition lint_commented : res LintedFile :=
  lint_string Examples.toy_truthy (fun _ => [reporting_rule])
    Examples.toy_apply_fixes parse_commented Examples.toy_recursive_crawl
    Examples.toy_raw_trimmed Examples.toy_ignore_if_in
    "SELECT  1 -- noqa: L001 SELECT  1 -- noqa L003" "<string input>" false
    (Examples.toy_config 10).

(** The parse error of the comment of line 2. *)
Definition malformed_error : Violation :=
  new_SQLParseError "Malformed 'noqa' section. Expected 'noqa: <rule>[,...]"
    (Examples.comment_segment "-- noqa L003" 2).

(** The file that [lint_commented] returns. *)
Definition commented_linted : LintedFile :=
  {| path := "<string input>";
     violations :=
       [ malformed_error; Examples.lint_error "L001" 1 7;
         Examples.lint_error "L003" 1 9; Examples.lint_error "L001" 2 7 ];
     tree := Some commented_tree;
     ignore_mask := [(1, Some ["L001"])];
     templated_file := None |}.

End NoqaExamples.

(** ** Directories *)

Module PathExamples.

(** A directory [src] with two SQL files, an ignore file that matches
    one of them, a text file, and a subdirectory with one SQL file. *)
Definition walk (path : string) : list (string * list string) :=
  if String.eqb path "src" then
    [ ("src", ["a.sql"; ".sqlfluffignore"; "b.sql"; "notes.txt"]);
      ("src/gen", ["c.sql"]) ]
  else [].

Definition path_exists (path : string) : bool := String.eqb path "src".
Definition isdir (path : string) : bool := String.eqb path "src".
Definition path_join (dirpath fname : string) : string :=
  dirpath +:+ "/" +:+ fname.
Definition normpath (path : string) : string := path.

(** The ignore file names [b.sql]; and an ignore file that cannot be
    opened. *)
Definition match_tree (fpath dirpath : string) : list string + string :=
  inl ["b.sql"].
Definition unreadable (fpath dirpath : string) : list string + string :=
  inr "PermissionError".

Definition paths (match_tree : string -> string -> list string + string)
    : outcome (list string) + string :=
  paths_from_path path_exists isdir walk path_join normpath match_tree
    [".sql"] "src" ".sqlfluffignore" false.

End PathExamples.

(** * Properties *)

(** Unfolds the constant at the head of a term; inside a section the
    model's functions are used through abbreviations that fix the section's
    variables. *)
Ltac head_of t := lazymatch t with ?f _ => head_of f | _ => t end.
Tactic Notation "unfold_def" constr(t) := let h := head_of t in unfold h.

(** ** Python built-ins *)

Lemma prefix_empty (s : string) : String.prefix "" s = true.
Proof. now destruct s. Qed.

Lemma split_no_sep (sep : ascii) (s : string) :
  Py.contains (String sep EmptyString) s = false -> Py.split sep s = [s].
Proof.
  induction s as [|c s IH]; simpl; [reflexivity|].
  destruct (Ascii.ascii_dec sep c) as [->|Hne]; [destruct s; discriminate|].
  simpl. intros Hc. rewrite (IH Hc).
  destruct (Ascii.eqb_spec c sep) as [->|_]; [contradiction|reflexivity].
Qed.

Lemma split_nonempty (sep : ascii) (s : string) : Py.split sep s <> [].
Proof.
  induction s as [|c s IH]; simpl; [discriminate|].
  destruct (Ascii.eqb c sep); [discriminate|].
  destruct (Py.split sep s); [contradiction|discriminate].
Qed.

(** Joining the pieces of a split gives the string back. *)
Lemma join_split (sep : ascii) (s : string) : Py.join sep (Py.split sep s) = s.
Proof.
  induction s as [|c s IH]; simpl; [reflexivity|].
  pose proof (split_nonempty sep s) as Hne.
  destruct (Ascii.eqb_spec c sep) as [->|_].
  - destruct (Py.split sep s) as [|p ps]; [contradiction|].
    simpl in *. now rewrite IH.
  - destruct (Py.split sep s) as [|p ps]; [contradiction|].
    destruct ps as [|q ps]; simpl in *; now rewrite <- IH.
Qed.

(** ** Ignore mask: [extract_ignore_from_comment] *)

Lemma startswith_noqa (r : string) : Py.startswith ("noqa" +:+ r) "noqa" = true.
Proof.
  unfold Py.startswith. cbv [String.append]. simpl. apply prefix_empty.
Qed.

Lemma drop_noqa (r : string) : Py.drop 4 ("noqa" +:+ r) = r.
Proof. reflexivity. Qed.

Lemma startswith_colon (c : ascii) (r : string) :
  Py.startswith (String c r) ":" = bool_decide (c = ":"%char).
Proof.
  unfold Py.startswith.
  change (String.prefix ":" (String c r))
    with (if Ascii.ascii_dec ":" c then String.prefix "" r else false).
  destruct (Ascii.ascii_dec ":" c) as [<-|Hne].
  - now rewrite prefix_empty.
  - symmetry. apply bool_decide_eq_false_2. congruence.
Qed.

Section NoqaFacts.

Variable raw_trimmed : Segment -> string.

Let content (comment : Segment) : string := Py.strip (raw_trimmed comment).
Let line (comment : Segment) : Z := pm_line_no (pos_marker comment).

Lemma extract_bare (comment : Segment) :
  content comment = "noqa" ->
  extract_ignore_from_comment raw_trimmed comment
  = NoqaEntry (line comment, None).
Proof.
  unfold content, extract_ignore_from_comment. intros ->. reflexivity.
Qed.

Lemma extract_after_noqa (comment : Segment) (c : ascii) (rest : string) :
  content comment = "noqa" +:+ String c rest ->
  extract_ignore_from_comment raw_trimmed comment
  = if bool_decide (c = ":"%char)
    then NoqaEntry (line comment, Some (map Py.strip (Py.split "," rest)))
    else NoqaError
           (new_SQLParseError
              "Malformed 'noqa' section. Expected 'noqa: <rule>[,...]"
              comment).
Proof.
  unfold content, extract_ignore_from_comment. intros ->.
  rewrite startswith_noqa, drop_noqa, startswith_colon.
  now destruct (bool_decide (c = ":"%char)).
Qed.

Lemma extract_rules (comment : Segment) (rest : string) :
  content comment = "noqa:" +:+ rest ->
  extract_ignore_from_comment raw_trimmed comment
  = NoqaEntry (line comment, Some (map Py.strip (Py.split "," rest))).
Proof.
  intros H. now rewrite (extract_after_noqa comment ":" rest H).
Qed.

Lemma extract_malformed (comment : Segment) (c : ascii) (rest : string) :
  content comment = "noqa" +:+ String c rest -> c <> ":"%char ->
  extract_ignore_from_comment raw_trimmed comment
  = NoqaError
      (new_SQLParseError
         "Malformed 'noqa' section. Expected 'noqa: <rule>[,...]" comment).
Proof.
  intros H Hc. rewrite (extract_after_noqa comment c rest H).
  now rewrite bool_decide_eq_false_2.
Qed.

Lemma extract_other (comment : Segment) :
  Py.startswith (content comment) "noqa" = false ->
  extract_ignore_from_comment raw_trimmed comment = NoqaNone.
Proof.
  unfold content, extract_ignore_from_comment. intros ->. reflexivity.
Qed.

End NoqaFacts.

(** The four cases of [extract_ignore_from_comment] on a comment whose
    stripped content is [content], and what one turn of the comment loop
    does with a malformed comment. *)
Lemma extract_cases
    (raw_trimmed : Segment -> string) (comment : Segment) :
  let content := Py.strip (raw_trimmed comment) in
  let line := pm_line_no (pos_marker comment) in
  let result := extract_ignore_from_comment raw_trimmed comment in
  (content = "noqa" -> result = NoqaEntry (line, None))
  /\ (forall rest, content = "noqa:" +:+ rest ->
        result = NoqaEntry (line, Some (map Py.strip (Py.split "," rest)))
        /\ Py.join "," (Py.split "," rest) = rest)
  /\ (forall c rest, content = "noqa" +:+ String c rest -> c <> ":"%char ->
        exists err,
          result = NoqaError err
          /\ v_class err = SQLParseError
          /\ line_no err = line
          /\ forall vs ignore_buff,
               name comment = "inline_comment" ->
               noqa_step raw_trimmed (vs, ignore_buff) comment
               = (vs ++ [err], ignore_buff))
  /\ (Py.startswith content "noqa" = false -> result = NoqaNone).
Proof.
  cbv zeta. repeat split.
  - apply extract_bare.
  - now apply extract_rules.
  - apply join_split.
  - intros c rest Hcontent Hc.
    eexists. split; [now apply (extract_malformed _ _ c rest)|].
    repeat split. intros vs buff Hname. unfold noqa_step.
    rewrite Hname. simpl. now rewrite (extract_malformed _ _ c rest).
  - apply extract_other.
Qed.

(** The built-ins on small inputs. *)
Example strip_ex : Py.strip "  noqa: L001 , L002  " = "noqa: L001 , L002".
Proof. reflexivity. Qed.
Example split_ex : Py.split "," " L001 , L002" = [" L001 "; " L002"].
Proof. reflexivity. Qed.
Example split_ex2 : Py.split "," "a,,b," = ["a"; ""; "b"; ""].
Proof. reflexivity. Qed.
Example getslice_ex : Py.getslice "0123456789" (Py.Slice 2 5) = "234".
Proof. reflexivity. Qed.
Example getslice_ex2 : Py.getslice "0123456789" (Py.Slice (-3) 50) = "789".
Proof. reflexivity. Qed.
Example sorted_ex : Py.sorted Z.leb [3; 1; 2; 1] = [1; 1; 2; 3].
Proof. reflexivity. Qed.
Example dedupe_ex : Py.dedupe [3; 1; 3; 2; 1] = [3; 1; 2].
Proof. reflexivity. Qed.

(** ** Violation filter: [get_violations] *)

Lemma filter_filter_and {A : Type} (f g : A -> bool) (l : list A) :
  List.filter g (List.filter f l) = List.filter (fun x => f x && g x) l.
Proof.
  induction l as [|x l IH]; simpl; [reflexivity|].
  destruct (f x); simpl; [destruct (g x)|]; now rewrite IH.
Qed.

(** The loop over the ignore mask is one filter: a violation stays when no
    entry matches it. *)
Lemma mask_loop_filter (mask : list IgnoreEntry) (vs : list Violation) :
  fold_left
    (fun vs entry => List.filter (fun v => negb (mask_matches entry v)) vs)
    mask vs
  = List.filter (fun v => forallb (fun entry => negb (mask_matches entry v)) mask) vs.
Proof.
  revert vs. induction mask as [|entry mask IH]; intros vs; simpl.
  - induction vs as [|v vs IHvs]; simpl; [reflexivity|]. now rewrite <- IHvs.
  - rewrite IH. apply filter_filter_and.
Qed.

Lemma mask_matches_spec (entry : IgnoreEntry) (v : Violation) :
  mask_matches entry v = true <-> entry_applies entry v.
Proof.
  unfold mask_matches, entry_applies. destruct entry as [n [rules|]]; simpl.
  - rewrite andb_true_iff, Z.eqb_eq, bool_decide_eq_true. split.
    + intros [? ?]. split; [assumption|]. right. eauto.
    + intros [? [?|(rs & [= <-] & ?)]]; [discriminate|auto].
  - rewrite andb_true_r, Z.eqb_eq. intuition auto.
Qed.

(** [get_violations] with [filter_ignore] on is a filter of what it gives
    with [filter_ignore] off; the order is kept. *)
Lemma get_violations_ignore_as_filter (lf : LintedFile) (rules : list string)
    (types : list ErrClass) (fixable_arg : option bool) :
  get_violations lf rules types true fixable_arg
  = List.filter
      (fun v => negb (ignore v)
                && forallb (fun entry => negb (mask_matches entry v)) (ignore_mask lf))
      (get_violations lf rules types false fixable_arg).
Proof.
  unfold get_violations. cbv zeta.
  set (vs := match fixable_arg with Some _ => _ | None => _ end).
  destruct (ignore_mask lf) as [|entry mask] eqn:Hmask.
  - simpl. apply List.filter_ext. intros v. now rewrite andb_true_r.
  - rewrite mask_loop_filter. apply filter_filter_and.
Qed.

Lemma get_violations_survivor (lf : LintedFile) (rules : list string)
    (types : list ErrClass) (fixable_arg : option bool) (v : Violation) :
  v ∈ get_violations lf rules types true fixable_arg
  <-> v ∈ get_violations lf rules types false fixable_arg
      /\ ignore v = false
      /\ forall entry, entry ∈ ignore_mask lf -> ~ entry_applies entry v.
Proof.
  rewrite get_violations_ignore_as_filter, !list_elem_of_In, filter_In.
  rewrite andb_true_iff, negb_true_iff, forallb_forall.
  split; intros (Hin & Hign & Hmask); repeat split; try assumption.
  - intros entry He Happ. apply list_elem_of_In in He.
    specialize (Hmask entry He). apply mask_matches_spec in Happ.
    rewrite Happ in Hmask. discriminate.
  - intros entry He. apply negb_true_iff.
    destruct (mask_matches entry v) eqn:Hm; [|reflexivity].
    exfalso. apply (Hmask entry); [now apply list_elem_of_In|].
    now apply mask_matches_spec.
Qed.

(** With ignore filtering on, a violation survives [get_violations]
    exactly when it passes the other filters, its ignore flag is unset and
    no entry of the ignore mask applies to it; and what this gives for a
    mask that holds the one entry of a [noqa: R] or of a bare [noqa]
    comment. *)
Lemma get_violations_mask_entries (lf : LintedFile) (rules : list string)
    (types : list ErrClass) (fixable_arg : option bool) (v : Violation) :
  let kept := get_violations lf rules types true fixable_arg in
  let unfiltered := get_violations lf rules types false fixable_arg in
  (v ∈ kept <->
     v ∈ unfiltered /\ ignore v = false
     /\ forall entry, entry ∈ ignore_mask lf -> ~ entry_applies entry v)
  /\ (forall raw_trimmed comment rest,
        Py.strip (raw_trimmed comment) = "noqa:" +:+ rest ->
        Py.contains "," rest = false ->
        let n := pm_line_no (pos_marker comment) in
        let R := Py.strip rest in
        extract_ignore_from_comment raw_trimmed comment = NoqaEntry (n, Some [R])
        /\ (ignore_mask lf = [(n, Some [R])] ->
            (v ∈ kept <->
               v ∈ unfiltered /\ ignore v = false
               /\ ~ (line_no v = n /\ rule_code v = R))))
  /\ (forall raw_trimmed comment,
        Py.strip (raw_trimmed comment) = "noqa" ->
        let n := pm_line_no (pos_marker comment) in
        extract_ignore_from_comment raw_trimmed comment = NoqaEntry (n, None)
        /\ (ignore_mask lf = [(n, None)] ->
            (v ∈ kept <->
               v ∈ unfiltered /\ ignore v = false /\ line_no v <> n))).
Proof.
  cbv zeta. split; [apply get_violations_survivor|]. split.
  - intros raw_trimmed comment rest Hcontent Hcomma. split.
    + rewrite (extract_rules _ _ rest Hcontent).
      now rewrite (split_no_sep _ _ Hcomma).
    + intros Hmask. rewrite get_violations_survivor, Hmask.
      split; intros (Hin & Hign & H); repeat split; try assumption.
      * intros [Hl Hr]. apply (H (pm_line_no (pos_marker comment), Some [Py.strip rest]));
          [set_solver|].
        split; [exact Hl|]. right. eexists. split; [reflexivity|].
        simpl. rewrite Hr. set_solver.
      * intros entry He [Hl Hr]. apply list_elem_of_singleton in He. subst entry.
        simpl in *. apply H. split; [exact Hl|].
        destruct Hr as [?|(rs & [= <-] & Hr)]; [discriminate|].
        now apply list_elem_of_singleton in Hr.
  - intros raw_trimmed comment Hcontent. split.
    + now apply extract_bare.
    + intros Hmask. rewrite get_violations_survivor, Hmask.
      split; intros (Hin & Hign & H); repeat split; try assumption.
      * intros Hl. apply (H (pm_line_no (pos_marker comment), None)); [set_solver|].
        split; [exact Hl|]. now left.
      * intros entry He [Hl _]. apply list_elem_of_singleton in He. subst entry.
        now apply H.
Qed.

(** ** Check tuples and result records *)

Lemma key_leb_spec (k1 k2 : Z * Z * string) :
  key_leb k1 k2 = true <-> key_le k1 k2.
Proof.
  destruct k1 as [[l1 p1] c1], k2 as [[l2 p2] c2]. unfold key_leb, key_le.
  rewrite !orb_true_iff, !andb_true_iff, orb_true_iff, andb_true_iff.
  rewrite !Z.ltb_lt, !Z.eqb_eq. reflexivity.
Qed.

Lemma key_leb_total (k1 k2 : Z * Z * string) :
  key_leb k1 k2 = false -> key_leb k2 k1 = true.
Proof.
  intros H. apply key_leb_spec.
  assert (Hn : ~ key_le k1 k2) by (rewrite <- key_leb_spec, H; discriminate).
  destruct k1 as [[l1 p1] c1], k2 as [[l2 p2] c2]. unfold key_le in *.
  destruct (Z.lt_trichotomy l1 l2) as [?|[->|?]]; [tauto| |tauto].
  right. split; [reflexivity|].
  destruct (Z.lt_trichotomy p1 p2) as [?|[->|?]]; [tauto| |tauto].
  right. split; [reflexivity|].
  destruct (String.leb_total c1 c2); [tauto|assumption].
Qed.

Lemma ascii_compare_lt_trans (a b c : ascii) :
  Ascii.compare a b = Lt -> Ascii.compare b c = Lt -> Ascii.compare a c = Lt.
Proof.
  unfold Ascii.compare. rewrite !N.compare_lt_iff. apply N.lt_trans.
Qed.

Lemma string_leb_trans (s1 s2 s3 : string) :
  String.leb s1 s2 = true -> String.leb s2 s3 = true -> String.leb s1 s3 = true.
Proof.
  unfold String.leb. revert s2 s3.
  induction s1 as [|a s1 IH]; intros [|b s2] [|c s3]; simpl; try easy.
  destruct (Ascii.compare a b) eqn:Hab; [|intros _|easy].
  - apply Ascii.compare_eq_iff in Hab. subst b.
    destruct (Ascii.compare a c); [apply IH|easy|easy].
  - destruct (Ascii.compare b c) eqn:Hbc; [|intros _|easy].
    + apply Ascii.compare_eq_iff in Hbc. subst c. now rewrite Hab.
    + now rewrite (ascii_compare_lt_trans a b c Hab Hbc).
Qed.

Lemma key_le_trans (k1 k2 k3 : Z * Z * string) :
  key_le k1 k2 -> key_le k2 k3 -> key_le k1 k3.
Proof.
  destruct k1 as [[l1 p1] c1], k2 as [[l2 p2] c2], k3 as [[l3 p3] c3].
  unfold key_le.
  intros [?|[-> [?|[-> H12]]]] [?|[-> [?|[-> H23]]]]; try (left; lia);
    try (right; split; [reflexivity|]; left; lia).
  right. split; [reflexivity|]. right. split; [reflexivity|].
  exact (string_leb_trans _ _ _ H12 H23).
Qed.

Section SortedFacts.

Context {A : Type} (leb : A -> A -> bool).
Hypothesis leb_total : forall x y, leb x y = false -> leb y x = true.
Hypothesis leb_trans :
  forall x y z, leb x y = true -> leb y z = true -> leb x z = true.

Let le (x y : A) : Prop := leb x y = true.

Lemma insert_sorted_perm (x : A) (l : list A) :
  Py.insert_sorted leb x l ≡ₚ x :: l.
Proof.
  induction l as [|y l IH]; simpl; [reflexivity|].
  destruct (leb x y); [reflexivity|].
  rewrite IH. apply Permutation_swap.
Qed.

Lemma sorted_perm (l : list A) : Py.sorted leb l ≡ₚ l.
Proof.
  induction l as [|x l IH]; simpl; [reflexivity|].
  now rewrite insert_sorted_perm, IH.
Qed.

Lemma insert_sorted_strongly (x : A) (l : list A) :
  StronglySorted le l -> StronglySorted le (Py.insert_sorted leb x l).
Proof.
  induction 1 as [|y l Hs IH Hy]; simpl.
  - repeat constructor.
  - destruct (leb x y) eqn:Hxy.
    + constructor; [now constructor|].
      constructor; [exact Hxy|].
      eapply Forall_impl; [exact Hy|].
      intros z Hz. exact (leb_trans _ _ _ Hxy Hz).
    + constructor; [exact IH|].
      rewrite insert_sorted_perm. constructor; [|exact Hy].
      now apply leb_total.
Qed.

Lemma sorted_strongly (l : list A) : StronglySorted le (Py.sorted leb l).
Proof.
  induction l as [|x l IH]; simpl; [constructor|].
  now apply insert_sorted_strongly.
Qed.

End SortedFacts.

Lemma strongly_sorted_mono {A : Type} (R R' : A -> A -> Prop) (l : list A) :
  (forall x y, R x y -> R' x y) -> StronglySorted R l -> StronglySorted R' l.
Proof.
  intros HR. induction 1 as [|x l Hs IH Hx]; constructor; [assumption|].
  eapply Forall_impl; [exact Hx|]. auto.
Qed.

Lemma record_leb_spec (d1 d2 : InfoDict) :
  record_leb d1 d2 = true <-> record_le d1 d2.
Proof. apply key_leb_spec. Qed.

(** What [sorted(..., key=...)] of [as_records] returns is in key order and
    holds the same records. *)
Lemma sorted_records (ds : list InfoDict) :
  StronglySorted record_le (Py.sorted record_leb ds)
  /\ Py.sorted record_leb ds ≡ₚ ds.
Proof.
  split; [|apply sorted_perm].
  eapply strongly_sorted_mono; [|apply sorted_strongly].
  - intros d1 d2. apply record_leb_spec.
  - intros x y. apply key_leb_total.
  - intros x y z Hxy Hyz. apply record_leb_spec.
    eapply key_le_trans; apply key_leb_spec; eassumption.
Qed.

(** [check_tuples] keeps the order of the violations. *)
Lemma check_tuples_loop_map (todo : list Violation) (vs l : list (string * Z * Z)) :
  check_tuples_loop todo vs = inl l ->
  l = vs ++ map (fun v => (rule_code v, line_no v, line_pos v)) todo
  /\ Forall (fun v => v_class v = SQLLintError) todo.
Proof.
  revert vs. induction todo as [|v todo IH]; intros vs; simpl.
  - intros [= <-]. now rewrite app_nil_r.
  - unfold check_tuple. destruct (v_class v) eqn:Hc; try discriminate.
    intros H. apply IH in H as [-> HF]. rewrite <- app_assoc. auto.
Qed.

Lemma check_tuples_loop_lint (todo : list Violation) (vs : list (string * Z * Z)) :
  Forall (fun v => v_class v = SQLLintError) todo ->
  check_tuples_loop todo vs
  = inl (vs ++ map (fun v => (rule_code v, line_no v, line_pos v)) todo).
Proof.
  intros HF. revert vs. induction HF as [|v todo Hv HF IH]; intros vs; simpl.
  - now rewrite app_nil_r.
  - unfold check_tuple. rewrite Hv, IH, <- app_assoc. reflexivity.
Qed.

(** The per-file record of [as_records] for a result with one file. *)
Lemma as_records_single (lf : LintedFile) :
  as_records [[lf]]
  = match get_violations_default lf with
    | [] => []
    | vs => [ {| filepath := path lf;
                 rec_violations := Py.sorted record_leb (map get_info_dict vs) |} ]
    end.
Proof.
  unfold as_records, violation_dict. simpl.
  destruct (get_violations_default lf); reflexivity.
Qed.

(** C9, the claim as written fails: two rules ran one after the other, the
    first reported line 5 and the second line 2; [check_tuples] returns the
    tuples in that order. *)
Lemma check_tuples_not_sorted : ~ check_tuples_sorted.
Proof.
  intros H. specialize (H Examples.unsorted_linted _ eq_refl).
  inversion H as [|t l _ Hhd]; subst. inversion Hhd as [|t' l' Hle]; subst.
  unfold tuple_le, key_le in Hle. lia.
Qed.

(** C9, amended.  [check_tuples] returns the check tuples
    [(code, line, pos)] of the violations that [get_violations()] gives, in
    the order in which the file holds them, and only when all of them are
    linting violations; it is the per-file violation list of [as_records]
    that is in [(line_no, line_pos, code)] order: that list holds the
    info dicts of the same violations, sorted. *)
Theorem check_tuples_order_as_records_sorted (lf : LintedFile) :
  (forall l, check_tuples lf = inl l ->
     l = map (fun v => (rule_code v, line_no v, line_pos v))
             (get_violations_default lf))
  /\ (Forall (fun v => v_class v = SQLLintError) (get_violations_default lf) ->
      check_tuples lf
      = inl (map (fun v => (rule_code v, line_no v, line_pos v))
                 (get_violations_default lf)))
  /\ (forall r, r ∈ as_records [[lf]] ->
        filepath r = path lf
        /\ StronglySorted record_le (rec_violations r)
        /\ rec_violations r ≡ₚ map get_info_dict (get_violations_default lf)).
Proof.
  split; [|split].
  - intros l H. now apply check_tuples_loop_map in H as [-> _].
  - intros HF. unfold check_tuples. now rewrite check_tuples_loop_lint.
  - intros r. rewrite as_records_single.
    destruct (get_violations_default lf) as [|v vs] eqn:Hvs; [set_solver|].
    intros ->%list_elem_of_singleton.
    split; [reflexivity|]. exact (sorted_records (map get_info_dict (v :: vs))).
Qed.

(** C9 amended, on the file of the counterexample. *)
Lemma check_tuples_order_as_records_sorted_witness :
  check_tuples Examples.unsorted_linted = inl [("L001", 5, 1); ("L003", 2, 3)]
  /\ forall r, r ∈ as_records [[Examples.unsorted_linted]] ->
       StronglySorted record_le (rec_violations r).
Proof.
  pose proof (check_tuples_order_as_records_sorted Examples.unsorted_linted)
    as (_ & Hct & Hrec).
  split.
  - apply Hct. repeat constructor.
  - intros r Hr. exact (proj1 (proj2 (Hrec r Hr))).
Defined.

(** ** Source reconstruction: [fix_string] *)

Lemma take_length (s : string) : Py.take (String.length s) s = s.
Proof. induction s as [|c s IH]; simpl; [reflexivity|]. now rewrite IH. Qed.

Lemma drop_zero (s : string) : Py.drop 0 s = s.
Proof. now destruct s. Qed.

Lemma getslice_full (s : string) :
  Py.getslice s (Py.Slice 0 (Z.of_nat (String.length s))) = s.
Proof.
  unfold Py.getslice, Py.clamp. cbn [Py.start Py.stop].
  destruct (Z.ltb_spec (Z.of_nat (String.length s)) 0) as [Hneg|_]; [lia|].
  cbn [Z.ltb Z.compare]. rewrite Z.min_id.
  replace (Z.min 0 (Z.of_nat (String.length s))) with 0 by lia.
  rewrite Z.sub_0_r, Nat2Z.id. cbn [Z.to_nat]. rewrite drop_zero.
  apply take_length.
Qed.

(** Without patches the slice buffer is the whole source in one slice, and
    the source comes back. *)
Lemma fix_source_no_patches (source : string) (untouchable_slices : list Py.slice) :
  fix_source source untouchable_slices [] = (source, false).
Proof.
  unfold fix_source, build_slice_buff. cbn [fold_left].
  destruct (Z.ltb_spec 0 (Z.of_nat (String.length source))) as [Hpos|Hzero].
  - cbn [app]. unfold render, render_slice. cbn [fold_left find].
    rewrite getslice_full. cbv [String.append].
    now rewrite String.eqb_refl.
  - destruct source; [reflexivity|]. simpl in Hzero. lia.
Qed.

Section FixStringFacts.

Variable templated_slice_to_source_slice :
  TemplatedFile -> Py.slice -> res Py.slice.
Variable untouchable_slices : TemplatedFile -> list Py.slice.

Local Abbreviation source_patches :=
  (source_patches templated_slice_to_source_slice).
Local Abbreviation fix_string :=
  (fix_string templated_slice_to_source_slice untouchable_slices).

(** C5, amended.  When no source-space patch remains after
    deduplication, [fix_string] returns the original source string, and
    the boolean is false; the converse is not claimed (a patch may be
    skipped, or replace a range by the text it had).  In every case the
    boolean returned is true exactly when the returned string differs
    from the original source. *)
Theorem fix_string_no_patches_unchanged (lf : LintedFile)
    (tf : TemplatedFile) (seg : Segment) :
  templated_file lf = Some tf -> tree lf = Some seg ->
  (source_patches tf seg = Ok [] ->
     fix_string lf = Ok (source_str tf, false))
  /\ (forall out changed,
        fix_string lf = Ok (out, changed) ->
        (changed = true <-> out <> source_str tf)).
Proof.
  intros Htf Htree. unfold_def fix_string. rewrite Htf, Htree. split.
  - intros ->. cbn [res_bind]. now rewrite fix_source_no_patches.
  - intros out changed.
    destruct (source_patches tf seg) as [patches|e]; cbn [res_bind];
      [|discriminate].
    unfold fix_source. intros [= <- <-].
    rewrite negb_true_iff. apply String.eqb_neq.
Qed.

End FixStringFacts.

(** C5, the claim as written fails.  The templater generated [XYZ ] with
    no source text behind it and a fix deleted the generated segment: one
    patch remains, it replaces the empty source range at offset 2 by the
    empty string, and the output equals the source. *)
Lemma fix_string_unchanged_with_patches :
  ~ unchanged_iff_no_patches SliceMap.templated_slice_to_source_slice
                             SliceMap.untouchable_slices.
Proof.
  intros Hclaim.
  destruct (Hclaim Examples.gen_linted Examples.gen_file Examples.gen_tree
                   [(Py.Slice 2 2, "")] "a b" false
                   eq_refl eq_refl eq_refl eq_refl) as [[Hempty _] _].
  discriminate (Hempty eq_refl).
Qed.

(** C5 amended, on a file whose tree is untouched. *)
Lemma fix_string_no_patches_unchanged_witness :
  fix_string SliceMap.templated_slice_to_source_slice SliceMap.untouchable_slices
             Examples.clean_linted
  = Ok (Examples.tag_source, false).
Proof.
  apply (fix_string_no_patches_unchanged
           SliceMap.templated_slice_to_source_slice SliceMap.untouchable_slices
           Examples.clean_linted Examples.tag_file _ eq_refl eq_refl).
  reflexivity.
Defined.

(** *** Untouchable ranges and the slice buffer *)

(** C3, the code at a failing input.  The source has an [if] block whose
    opening tag is an untouchable range; the fix that replaced the blanks
    around the tag by one blank gives one patch, over the source range
    [1, 11), which contains the tag: the tag is gone from the output. *)
Lemma fix_string_replaces_untouchable :
  SliceMap.untouchable_slices Examples.tag_file = [Py.Slice 2 10; Py.Slice 13 22]
  /\ Py.getslice Examples.tag_source (Py.Slice 2 10) = "{%if c%}"
  /\ source_patches SliceMap.templated_slice_to_source_slice
                    Examples.tag_file Examples.tag_tree_one_fix
     = Ok [(Py.Slice 1 11, " ")]
  /\ fix_string SliceMap.templated_slice_to_source_slice
                SliceMap.untouchable_slices Examples.tag_linted_one_fix
     = Ok ("1 +2{%endif%}", true)
  /\ Py.contains "{%if c%}" "1 +2{%endif%}" = false.
Proof. vm_compute. repeat split; reflexivity. Qed.

(** C4, the code at a failing input.  With a second patch behind the
    first, the untouchable range [2, 10) is appended after the patch slot
    [1, 11) that already covers it: the buffer does not tile the source,
    offset 5 is covered twice. *)
Lemma slice_buffer_overlaps :
  let patches := [(Py.Slice 1 11, " "); (Py.Slice 12 13, "3")] in
  let buff :=
    build_slice_buff Examples.tag_source
                     (SliceMap.untouchable_slices Examples.tag_file) patches in
  source_patches SliceMap.templated_slice_to_source_slice
                 Examples.tag_file Examples.tag_tree_two_fixes
  = Ok patches
  /\ buff = [Py.Slice 0 1; Py.Slice 1 11; Py.Slice 2 10; Py.Slice 10 12;
             Py.Slice 12 13; Py.Slice 13 22]
  /\ cover_count buff 5 = 2%nat
  /\ ~ tiles (Z.of_nat (String.length Examples.tag_source)) buff.
Proof.
  cbv zeta. split; [vm_compute; reflexivity|].
  split; [vm_compute; reflexivity|]. split; [vm_compute; reflexivity|].
  intros [_ Hcover]. specialize (Hcover 5). vm_compute in Hcover. discriminate.
Qed.

(** *** When the slice buffer does tile the source *)

Lemma contiguous_le (a b : Z) (buff : list Py.slice) :
  contiguous a buff b -> a <= b.
Proof. induction 1; lia. Qed.

Lemma contiguous_snoc (a b : Z) (buff : list Py.slice) (s : Py.slice) :
  contiguous a buff b -> Py.start s = b -> b <= Py.stop s ->
  contiguous a (buff ++ [s]) (Py.stop s).
Proof.
  induction 1 as [a|a s' buff b Hs Hle Hc IH]; intros Hstart Hstop; simpl.
  - apply contiguous_cons; [assumption|lia|constructor].
  - apply contiguous_cons; auto.
Qed.

Lemma contiguous_sorted (a b : Z) (buff : list Py.slice) :
  contiguous a buff b ->
  Sorted (fun s1 s2 => Py.start s1 <= Py.start s2) buff.
Proof.
  induction 1 as [a|a s buff b Hs Hle Hc IH]; constructor; [exact IH|].
  inversion Hc; subst; constructor. lia.
Qed.

Lemma contiguous_cover (a b : Z) (buff : list Py.slice) :
  contiguous a buff b ->
  forall i, cover_count buff i = if (a <=? i) && (i <? b) then 1%nat else 0%nat.
Proof.
  unfold cover_count.
  induction 1 as [a|a s buff b Hs Hle Hc IH]; intros i; cbn [List.filter].
  - destruct (Z.leb_spec a i), (Z.ltb_spec i a); simpl; try reflexivity; lia.
  - pose proof (contiguous_le _ _ _ Hc) as Hb. specialize (IH i).
    assert (Hcov : covers s i = (a <=? i) && (i <? Py.stop s))
      by (unfold covers; now rewrite Hs).
    rewrite Hcov.
    destruct (Z.leb_spec a i), (Z.ltb_spec i (Py.stop s)),
      (Z.leb_spec (Py.stop s) i), (Z.ltb_spec i b);
      cbn [andb length] in *; try lia; rewrite ?IH; reflexivity.
Qed.

Lemma contiguous_tiles (len : Z) (buff : list Py.slice) :
  contiguous 0 buff len -> tiles len buff.
Proof.
  intros Hc. split; [exact (contiguous_sorted _ _ _ Hc)|].
  exact (contiguous_cover _ _ _ Hc).
Qed.

Lemma untouchables_rebase (lo lo' len : Z) (us : list Py.slice) :
  untouchables_ordered lo len us ->
  match us with u :: _ => lo' <= Py.start u | [] => True end ->
  untouchables_ordered lo' len us.
Proof. destruct us as [|u rest]; simpl; intuition. Qed.

(** What the slicing loop keeps between two patches: the buffer runs from
    0 to [source_idx] without gap or overlap, and the untouchables remaining
    are in order from [source_idx] on. *)
Definition slicing_invariant (len : Z) (us : list Py.slice)
    (st : list Py.slice * Z * list Py.slice) : Prop :=
  let '(remaining, source_idx, slice_buff) := st in
  contiguous 0 slice_buff source_idx
  /\ 0 <= source_idx <= len
  /\ untouchables_ordered source_idx len remaining
  /\ forall u, u ∈ remaining -> u ∈ us.

Lemma pop_untouchables_invariant (len : Z) (us remaining : list Py.slice)
    (patch_start source_idx : Z) (slice_buff : list Py.slice) :
  slicing_invariant len us (remaining, source_idx, slice_buff) ->
  slicing_invariant len us
    (pop_untouchables remaining patch_start source_idx slice_buff)
  /\ match fst (fst (pop_untouchables remaining patch_start source_idx slice_buff)) with
     | u :: _ => patch_start <= Py.start u
     | [] => True
     end.
Proof.
  revert source_idx slice_buff.
  induction remaining as [|u rest IH]; intros source_idx slice_buff; simpl.
  - auto.
  - intros (Hc & Hidx & (Hlo & Hu & Hlen & Hrest) & Hsub).
    destruct (Z.ltb_spec (Py.start u) patch_start) as [Hlt|Hge].
    + apply IH. split; [|split; [lia|split; [exact Hrest|]]].
      * destruct (Z.gtb_spec (Py.start u) source_idx) as [Hgap|Hnogap].
        -- apply (contiguous_snoc 0 (Py.start u)); [|reflexivity|exact Hu].
           apply (contiguous_snoc 0 source_idx _
                    (Py.Slice source_idx (Py.start u)));
             [exact Hc|reflexivity|simpl; lia].
        -- apply (contiguous_snoc 0 source_idx); [exact Hc|lia|lia].
      * intros u' Hu'. apply Hsub. now right.
    + simpl. repeat split; auto; lia.
Qed.

Lemma slice_step_invariant (len : Z) (us : list Py.slice)
    (st : list Py.slice * Z * list Py.slice) (patch : SourcePatch) :
  patch_in_bounds len patch ->
  (forall u, u ∈ us -> ~ reaches_into patch u) ->
  slicing_invariant len us st ->
  slicing_invariant len us (slice_step st patch).
Proof.
  intros ((Hp0 & Hp1) & Hp2) Hclear Hinv.
  destruct st as [[remaining source_idx] slice_buff]. unfold slice_step.
  pose proof (pop_untouchables_invariant len us remaining (Py.start (fst patch))
                source_idx slice_buff Hinv) as [Hinv' Hhead].
  destruct (pop_untouchables remaining (Py.start (fst patch)) source_idx slice_buff)
    as [[remaining' idx'] buff'].
  cbn [fst] in Hhead. destruct Hinv' as (Hc & Hidx & Hord & Hsub).
  assert (Hord' : untouchables_ordered (Py.stop (fst patch)) len remaining').
  { apply (untouchables_rebase idx'); [exact Hord|].
    destruct remaining' as [|u rest]; [exact I|].
    assert (Hu : u ∈ us) by (apply Hsub; now left).
    specialize (Hclear u Hu). unfold reaches_into in Hclear. lia. }
  destruct (Z.ltb_spec (Py.start (fst patch)) idx') as [Hskip|Hnoskip].
  - destruct (Z.gtb_spec (Py.start (fst patch)) idx'); [lia|].
    repeat split; auto; lia.
  - destruct (Z.gtb_spec (Py.start (fst patch)) idx') as [Hgap|Hnogap];
      (split; [|split; [lia|split; [exact Hord'|exact Hsub]]]).
    + apply (contiguous_snoc 0 (Py.start (fst patch))); [|reflexivity|lia].
      apply (contiguous_snoc 0 idx' _ (Py.Slice idx' (Py.start (fst patch))));
        [exact Hc|reflexivity|simpl; lia].
    + apply (contiguous_snoc 0 idx'); [exact Hc|lia|lia].
Qed.

(** X2.  The slice buffer tiles the source when the patches lie inside
    the source, the untouchable ranges are in order and disjoint, and no patch
    reaches into an untouchable range from its start or from before it. *)
Theorem slice_buffer_tiles_when_clear (source : string)
    (us : list Py.slice) (patches : list SourcePatch) :
  let len := Z.of_nat (String.length source) in
  Forall (patch_in_bounds len) patches ->
  untouchables_ordered 0 len us ->
  (forall patch u, patch ∈ patches -> u ∈ us -> ~ reaches_into patch u) ->
  tiles len (build_slice_buff source us patches).
Proof.
  cbv zeta. intros Hbounds Hord Hclear. apply contiguous_tiles.
  unfold build_slice_buff.
  assert (Hinv : slicing_invariant (Z.of_nat (String.length source)) us
                   (fold_left slice_step patches (us, 0, []))).
  { assert (H0 : slicing_invariant (Z.of_nat (String.length source)) us (us, 0, [])).
    { repeat split; auto; try lia. constructor. }
    revert H0. generalize (us, 0, @nil Py.slice).
    induction patches as [|patch patches IH]; intros st Hst; simpl; [exact Hst|].
    apply Forall_cons in Hbounds as [Hb Hbs].
    apply IH; [exact Hbs| |].
    - intros p u Hp. apply Hclear. now right.
    - apply slice_step_invariant; [exact Hb| |exact Hst].
      intros u. apply Hclear. now left. }
  destruct (fold_left slice_step patches (us, 0, [])) as [[remaining idx] buff].
  destruct Hinv as (Hc & Hidx & _ & _).
  destruct (Z.ltb_spec idx (Z.of_nat (String.length source))) as [Htail|Hend].
  - apply (contiguous_snoc 0 idx _
             (Py.Slice idx (Z.of_nat (String.length source))));
      [exact Hc|reflexivity|simpl; lia].
  - now replace (Z.of_nat (String.length source)) with idx by lia.
Qed.

(** The file with the [if] block, with its two tags as untouchable
    ranges, and three patches that keep clear of them: one before the
    opening tag, an insertion right behind it, and one between the
    tags.  The buffer tiles the source. *)
Lemma slice_buffer_tiles_when_clear_witness :
  tiles 22
    (build_slice_buff Examples.tag_source [Py.Slice 2 10; Py.Slice 13 22]
       [(Py.Slice 0 1, "7"); (Py.Slice 10 10, "y"); (Py.Slice 12 13, "3")])
  /\ build_slice_buff Examples.tag_source [Py.Slice 2 10; Py.Slice 13 22]
       [(Py.Slice 0 1, "7"); (Py.Slice 10 10, "y"); (Py.Slice 12 13, "3")]
     = [Py.Slice 0 1; Py.Slice 1 2; Py.Slice 2 10; Py.Slice 10 10;
        Py.Slice 10 12; Py.Slice 12 13; Py.Slice 13 22].
Proof.
  split; [|reflexivity].
  apply (slice_buffer_tiles_when_clear Examples.tag_source
           [Py.Slice 2 10; Py.Slice 13 22]
           [(Py.Slice 0 1, "7"); (Py.Slice 10 10, "y"); (Py.Slice 12 13, "3")]).
  - repeat constructor; simpl; lia.
  - simpl. lia.
  - intros patch u Hp Hu. unfold reaches_into.
    repeat (apply elem_of_cons in Hp as [->|Hp]); try (now inversion Hp);
      repeat (apply elem_of_cons in Hu as [->|Hu]); try (now inversion Hu);
      simpl; lia.
Defined.

(** ** The fix loop of [lint_string] *)

Section LinterFacts.

Context {Fixes : Type} `{EqDecision Fixes}.
Variable fixes_truthy : Fixes -> bool.
Variable get_ruleset : Config -> list (Crawler Fixes).
Variable apply_fixes : Segment -> Fixes -> Segment * Fixes.
Variable parse_string :
  string -> string -> Config ->
  option Segment * list Violation * option TemplatedFile.
Variable recursive_crawl : Segment -> string -> list Segment.
Variable raw_trimmed : Segment -> string.
Variable ignore_if_in : Violation -> list string -> Violation.

Local Abbreviation crawl_step := (crawl_step fixes_truthy apply_fixes).
Local Abbreviation run_rules := (run_rules fixes_truthy get_ruleset apply_fixes).
Local Abbreviation fix_loop := (fix_loop fixes_truthy get_ruleset apply_fixes).
Local Abbreviation lint_loop := (lint_loop fixes_truthy get_ruleset apply_fixes).
Local Abbreviation initial_vars := (initial_vars (Fixes := Fixes)).
Local Abbreviation step_outcome := (step_outcome fixes_truthy apply_fixes).
Local Abbreviation lint_string :=
  (lint_string fixes_truthy get_ruleset apply_fixes parse_string
               recursive_crawl raw_trimmed ignore_if_in).

Lemma last_applying_app (records : list (LogRecord Fixes)) (r : LogRecord Fixes) :
  last_applying (records ++ [r])
  = match r with
    | ApplyingFixes _ f => Some f
    | _ => last_applying records
    end.
Proof.
  induction records as [|r0 records IH]; simpl.
  - now destruct r.
  - rewrite IH. destruct r; try reflexivity.
Qed.

(** *** One rule *)

(** The code tests [last_fixes and fixes == last_fixes]; once the fixes
    are truthy this is [last_fixes == fixes]. *)
Lemma same_as_last_spec (last : option Fixes) (fixes : Fixes) :
  fixes_truthy fixes = true ->
  same_as_last fixes_truthy last fixes = true <-> last = Some fixes.
Proof.
  intros Ht. unfold same_as_last. destruct last as [lf|]; [|easy].
  rewrite andb_true_iff, bool_decide_eq_true. split.
  - now intros [_ ->].
  - intros [= ->]. auto.
Qed.

Lemma crawl_step_outcome (config : Config) (fixing : bool) (idx : Z)
    (vars : LoopVars Fixes) (changed : bool) (crawler : Crawler Fixes) :
  step_outcome config fixing idx vars changed crawler
    (crawl_step config fixing idx (vars, changed) crawler).
Proof.
  unfold crawl_step, add_log.
  destruct (crawl crawler (working vars) (dialect config) fixing)
    as [lerrs fixes] eqn:Hcrawl.
  destruct (fixing && fixes_truthy fixes) eqn:Hfix;
    cbn [previous_versions log working linting_errors last_fixes].
  - assert (Ht : fixes_truthy fixes = true)
      by (now apply andb_true_iff in Hfix).
    destruct (same_as_last fixes_truthy (last_fixes vars) fixes) eqn:Hsame.
    + apply same_as_last_spec in Hsame; [|exact Ht].
      eapply step_same_fix; eauto.
    + assert (Hne : last_fixes vars <> Some fixes).
      { intros Heq. apply same_as_last_spec in Heq; [|exact Ht]. congruence. }
      destruct (apply_fixes (working vars) fixes) as [new_working unused] eqn:Happ.
      cbn [previous_versions log working linting_errors last_fixes].
      case_bool_decide as Hseen.
      * rewrite <- !app_assoc.
        eapply step_commit; eauto.
      * rewrite <- !app_assoc.
        eapply step_seen; eauto.
  - eapply step_no_fix; eauto.
Qed.

(** *** The loop over the rules *)

(** Membership of an [ApplyingFixes] record in an explicit list. *)
Ltac log_member H :=
  repeat (apply elem_of_cons in H as [H|H];
          [try discriminate H; try (injection H as -> _; reflexivity)|]);
  try (now inversion H).

Lemma run_rules_fold_invariant (I : LoopVars Fixes -> Prop) (config : Config)
    (fixing : bool) (idx : Z) :
  (forall vars changed crawler st,
      I vars -> step_outcome config fixing idx vars changed crawler st ->
      I (fst st)) ->
  forall rules vars changed,
    I vars ->
    I (fst (fold_left (crawl_step config fixing idx) rules (vars, changed))).
Proof.
  intros Hstep rules. induction rules as [|crawler rules IH];
    intros vars changed HI; cbn [fold_left]; [exact HI|].
  pose proof (crawl_step_outcome config fixing idx vars changed crawler) as Ho.
  destruct (crawl_step config fixing idx (vars, changed) crawler)
    as [vars' changed'].
  apply IH. exact (Hstep _ _ _ _ HI Ho).
Qed.

Lemma run_rules_invariant (I : LoopVars Fixes -> Prop) (config : Config)
    (fixing : bool) (idx : Z) (vars : LoopVars Fixes) :
  (forall vars changed crawler st,
      I vars -> step_outcome config fixing idx vars changed crawler st ->
      I (fst st)) ->
  I vars -> I (fst (run_rules config fixing idx vars)).
Proof.
  intros Hstep HI. unfold_def run_rules.
  now apply run_rules_fold_invariant.
Qed.

Lemma step_last_fixes_logged (config : Config) (fixing : bool) (idx : Z)
    (vars : LoopVars Fixes) (changed : bool) (crawler : Crawler Fixes)
    (st : LoopVars Fixes * bool) :
  last_fixes_logged vars ->
  step_outcome config fixing idx vars changed crawler st ->
  last_fixes_logged (fst st).
Proof.
  unfold last_fixes_logged. intros HI Ho.
  destruct Ho; cbn [fst last_fixes log]; rewrite ?app_assoc;
    rewrite ?last_applying_app; try assumption; try reflexivity.
Qed.

Lemma step_errors_extend (config : Config) (fixing : bool) (idx : Z)
    (vars0 vars : LoopVars Fixes) (changed : bool) (crawler : Crawler Fixes)
    (st : LoopVars Fixes * bool) :
  errors_extend vars0 vars ->
  step_outcome config fixing idx vars changed crawler st ->
  errors_extend vars0 (fst st).
Proof.
  intros [later Hl] Ho.
  destruct Ho; cbn [fst linting_errors]; exists (later ++ lerrs);
    now rewrite Hl, <- app_assoc.
Qed.

Lemma step_log_extends (config : Config) (fixing : bool) (idx : Z)
    (vars : LoopVars Fixes) (changed : bool) (crawler : Crawler Fixes)
    (st : LoopVars Fixes * bool) :
  step_outcome config fixing idx vars changed crawler st ->
  exists extra,
    log (fst st) = log vars ++ extra
    /\ forall k fixes, ApplyingFixes k fixes ∈ extra -> k = idx.
Proof.
  intros Ho. destruct Ho; cbn [fst log].
  - exists []. rewrite app_nil_r. split; [reflexivity|]. intros k f Hin.
    inversion Hin.
  - eexists. split; [reflexivity|]. intros k f Hin. log_member Hin.
  - eexists. split; [reflexivity|]. intros k f Hin. log_member Hin.
  - eexists. split; [reflexivity|]. intros k f Hin. log_member Hin.
Qed.

Lemma step_applications_within (lo hi : Z) (config : Config) (fixing : bool)
    (idx : Z) (vars0 vars : LoopVars Fixes) (changed : bool)
    (crawler : Crawler Fixes) (st : LoopVars Fixes * bool) :
  lo < idx <= hi ->
  applications_within lo hi vars0 vars ->
  step_outcome config fixing idx vars changed crawler st ->
  applications_within lo hi vars0 (fst st).
Proof.
  unfold applications_within. intros Hidx HI Ho k f.
  destruct (step_log_extends _ _ _ _ _ _ _ Ho) as (extra & -> & Hextra).
  rewrite elem_of_app. intros [Hin|Hin]; [now apply HI|].
  right. now rewrite (Hextra _ _ Hin).
Qed.

(** *** The [while True] loop *)

Lemma run_rules_last_fixes_logged (config : Config) (fixing : bool) (idx : Z)
    (vars : LoopVars Fixes) :
  last_fixes_logged vars ->
  last_fixes_logged (fst (run_rules config fixing idx vars)).
Proof.
  apply run_rules_invariant. intros ? ? ? ?. apply step_last_fixes_logged.
Qed.

(** The three ways out of a turn that passed the limit test. *)
Ltac loop_turn idx fixing :=
  let Hround := fresh "Hround" in
  let Hchanged := fresh "Hchanged" in
  destruct ((idx + 1 =? 1) && negb fixing) eqn:Hround;
  [|match goal with
    | |- context [negb (snd ?r)] => destruct (negb (snd r)) eqn:Hchanged
    end];
  cbn [final_vars parsed_tree initial_linting_errors fix_loop_idx loop_exit].

Lemma fix_loop_last_fixes_logged (config : Config) (fixing : bool) (idx : Z)
    (parsed : Segment) (initial : option (list Violation))
    (vars : LoopVars Fixes) :
  last_fixes_logged vars ->
  last_fixes_logged
    (final_vars (fix_loop config fixing idx parsed initial vars)).
Proof.
  funelim (fix_loop config fixing idx parsed initial vars); intros HI.
  - unfold last_fixes_logged, add_log. cbn [final_vars last_fixes log].
    now rewrite last_applying_app.
  - loop_turn idx fixing; try now apply run_rules_last_fixes_logged.
    apply H. now apply run_rules_last_fixes_logged.
Qed.

Lemma errors_extend_refl (vars : LoopVars Fixes) : errors_extend vars vars.
Proof. exists []. now rewrite app_nil_r. Qed.

Lemma errors_extend_trans (v1 v2 v3 : LoopVars Fixes) :
  errors_extend v1 v2 -> errors_extend v2 v3 -> errors_extend v1 v3.
Proof.
  intros [l1 H1] [l2 H2]. exists (l1 ++ l2). now rewrite H2, H1, <- app_assoc.
Qed.

Lemma run_rules_errors_extend (config : Config) (fixing : bool) (idx : Z)
    (vars : LoopVars Fixes) :
  errors_extend vars (fst (run_rules config fixing idx vars)).
Proof.
  apply (run_rules_invariant (errors_extend vars)).
  - intros ? ? ? ?. apply step_errors_extend.
  - apply errors_extend_refl.
Qed.

Lemma fix_loop_errors_extend (config : Config) (fixing : bool) (idx : Z)
    (parsed : Segment) (initial : option (list Violation))
    (vars : LoopVars Fixes) :
  errors_extend vars
    (final_vars (fix_loop config fixing idx parsed initial vars)).
Proof.
  funelim (fix_loop config fixing idx parsed initial vars).
  - exists []. cbn [final_vars add_log linting_errors]. now rewrite app_nil_r.
  - loop_turn idx fixing; try apply run_rules_errors_extend.
    eapply errors_extend_trans; [apply run_rules_errors_extend|apply H].
Qed.

(** After round 1 the snapshot is not assigned again. *)
Lemma fix_loop_initial_kept (config : Config) (fixing : bool) (idx : Z)
    (parsed : Segment) (initial : option (list Violation))
    (vars : LoopVars Fixes) :
  1 <= idx ->
  initial_linting_errors (fix_loop config fixing idx parsed initial vars)
  = initial.
Proof.
  funelim (fix_loop config fixing idx parsed initial vars); intros Hidx.
  - reflexivity.
  - assert (Hne : (idx + 1 =? 1) = false) by lia.
    rewrite Hne in *. cbn [andb] in *.
    destruct (negb (snd (run_rules config fixing (idx + 1) vars)));
      [reflexivity|].
    apply H. lia.
Qed.

(** The snapshot after the loop: the errors of the first pass over the
    rules when the limit allows a first round, unbound otherwise. *)
Lemma lint_loop_initial (config : Config) (fixing : bool) (parsed : Segment) :
  initial_linting_errors (lint_loop config fixing parsed)
  = if 1 <=? runaway_limit config
    then Some (linting_errors
                 (fst (run_rules config fixing 1 (initial_vars parsed))))
    else None.
Proof.
  unfold_def lint_loop. rewrite fix_loop_equation_1.
  destruct (decide (0 + 1 > runaway_limit config)) as [Hgt|Hle];
    cbn [fix_loop_unfold_clause_1].
  - cbn [initial_linting_errors]. destruct (Z.leb_spec 1 (runaway_limit config));
      [lia|reflexivity].
  - cbv zeta. change (0 + 1) with 1. cbn [Z.eqb Pos.eqb andb].
    destruct (Z.leb_spec 1 (runaway_limit config)); [|lia].
    destruct (negb fixing); [reflexivity|].
    destruct (negb (snd (run_rules config fixing 1 (initial_vars parsed))));
      [reflexivity|].
    now apply fix_loop_initial_kept.
Qed.

Lemma run_rules_applications_within (lo hi : Z) (config : Config)
    (fixing : bool) (idx : Z) (vars : LoopVars Fixes) :
  lo < idx <= hi ->
  applications_within lo hi vars (fst (run_rules config fixing idx vars)).
Proof.
  intros Hidx. apply (run_rules_invariant (applications_within lo hi vars)).
  - intros ? ? ? ?. now apply step_applications_within.
  - intros k f Hin. now left.
Qed.

Lemma fix_loop_applications_within (config : Config) (fixing : bool) (idx : Z)
    (parsed : Segment) (initial : option (list Violation))
    (vars : LoopVars Fixes) :
  applications_within idx (runaway_limit config) vars
    (final_vars (fix_loop config fixing idx parsed initial vars)).
Proof.
  funelim (fix_loop config fixing idx parsed initial vars).
  - intros k f. cbn [final_vars add_log log]. rewrite elem_of_app.
    intros [Hin|Hin]; [now left|]. log_member Hin.
  - assert (Hsweep := run_rules_applications_within idx (runaway_limit config)
                        config fixing (idx + 1) vars ltac:(lia)).
    loop_turn idx fixing; try exact Hsweep.
    intros k f Hin. destruct (H k f Hin) as [Hin'|Hk]; [|right; lia].
    exact (Hsweep k f Hin').
Qed.

(** How the loop is left, and with which value of [fix_loop_idx]. *)
Lemma fix_loop_exit (config : Config) (fixing : bool) (idx : Z)
    (parsed : Segment) (initial : option (list Violation))
    (vars : LoopVars Fixes) :
  let r := fix_loop config fixing idx parsed initial vars in
  let limit := runaway_limit config in
  idx < fix_loop_idx r
  /\ (loop_exit r = LoopLimitReached ->
      fix_loop_idx r = Z.max (idx + 1) (limit + 1)
      /\ last (log (final_vars r)) = Some (LoopLimitWarning limit))
  /\ (loop_exit r <> LoopLimitReached -> fix_loop_idx r <= limit)
  /\ (loop_exit r = NotFixing -> fixing = false /\ fix_loop_idx r = 1)
  /\ (loop_exit r = Unchanged ->
      exists before,
        run_rules config fixing (fix_loop_idx r) before = (final_vars r, false)).
Proof.
  cbv zeta. funelim (fix_loop config fixing idx parsed initial vars).
  - cbn [final_vars add_log log fix_loop_idx loop_exit].
    split; [lia|]. split; [|split; [|split]]; try discriminate; try congruence.
    intros _. split; [lia|apply last_snoc].
  - destruct H as (Hlt & Hlimit & Hother & Hnofix & Hunch).
    loop_turn idx fixing.
    + apply andb_true_iff in Hround as [Hone Hfix].
      split; [lia|]. split; [|split; [|split]]; try discriminate.
      * intros _. lia.
      * intros _. split; [now destruct fixing|lia].
    + split; [lia|]. split; [|split; [|split]]; try discriminate.
      * intros _. lia.
      * intros _. exists vars.
        destruct (run_rules config fixing (idx + 1) vars) as [vars' changed].
        cbn [fst snd] in *. now destruct changed.
    + split; [lia|]. split; [|split; [|split]].
      * intros Hl. destruct (Hlimit Hl) as [-> Hlast]. split; [lia|exact Hlast].
      * exact Hother.
      * exact Hnofix.
      * exact Hunch.
Qed.

Lemma lint_loop_after_first_pass (config : Config) (fixing : bool)
    (parsed : Segment) :
  1 <= runaway_limit config ->
  errors_extend (fst (run_rules config fixing 1 (initial_vars parsed)))
                (final_vars (lint_loop config fixing parsed)).
Proof.
  intros Hlimit. unfold_def lint_loop. rewrite fix_loop_equation_1.
  destruct (decide (0 + 1 > runaway_limit config)) as [Hgt|Hle]; [lia|].
  cbn [fix_loop_unfold_clause_1]. cbv zeta. change (0 + 1) with 1.
  cbn [Z.eqb Pos.eqb andb].
  destruct (negb fixing); [apply errors_extend_refl|].
  destruct (negb (snd (run_rules config fixing 1 (initial_vars parsed))));
    [apply errors_extend_refl|].
  apply fix_loop_errors_extend.
Qed.

(** *** [lint_string] *)

Lemma lint_string_parsed (in_str fname : string) (fixing : bool)
    (config : Config) (parsed : Segment) (vs : list Violation)
    (tf : option TemplatedFile) :
  parse_string in_str fname config = (Some parsed, vs, tf) ->
  lint_string in_str fname fixing config
  = match initial_linting_errors (lint_loop config fixing parsed) with
    | Some initial =>
        Ok {| path := fname;
              violations :=
                map (fun v => ignore_if_in v (cfg_ignore config))
                    (fst (collect_noqa recursive_crawl raw_trimmed parsed vs)
                     ++ initial);
              tree := Some (parsed_tree (lint_loop config fixing parsed));
              ignore_mask :=
                snd (collect_noqa recursive_crawl raw_trimmed parsed vs);
              templated_file := tf |}
    | None => Err UnboundLocalError
    end.
Proof.
  intros Hparse. unfold_def lint_string. rewrite Hparse.
  destruct (collect_noqa recursive_crawl raw_trimmed parsed vs)
    as [vs' ignore_buff].
  now destruct (initial_linting_errors (lint_loop config fixing parsed)).
Qed.

(** C1.  When parsing gave a tree and the runaway limit allows a first
    round, the snapshot [initial_linting_errors] holds the linting errors
    accumulated by the first pass over the rules; the errors accumulated
    when the loop ends are these followed by those of the later rounds;
    and the violations of the returned [LintedFile] are the violations
    that preceded linting followed by the snapshot alone (each passed
    through [ignore_if_in]), whatever the later rounds produced. *)
Theorem lint_string_reports_first_pass (in_str fname : string) (fixing : bool)
    (config : Config) (parsed : Segment) (vs : list Violation)
    (tf : option TemplatedFile) :
  parse_string in_str fname config = (Some parsed, vs, tf) ->
  1 <= runaway_limit config ->
  let first_pass := fst (run_rules config fixing 1 (initial_vars parsed)) in
  let r := lint_loop config fixing parsed in
  initial_linting_errors r = Some (linting_errors first_pass)
  /\ (exists later,
        linting_errors (final_vars r) = linting_errors first_pass ++ later)
  /\ exists lf,
       lint_string in_str fname fixing config = Ok lf
       /\ violations lf
          = map (fun v => ignore_if_in v (cfg_ignore config))
                (fst (collect_noqa recursive_crawl raw_trimmed parsed vs)
                 ++ linting_errors first_pass).
Proof.
  intros Hparse Hlimit. cbv zeta.
  assert (Hinit := lint_loop_initial config fixing parsed).
  destruct (Z.leb_spec 1 (runaway_limit config)); [|lia].
  split; [exact Hinit|]. split; [now apply lint_loop_after_first_pass|].
  rewrite (lint_string_parsed _ _ _ _ _ _ _ Hparse), Hinit.
  eexists. split; reflexivity.
Qed.

(** C2.  The fix loop is a total function of its input, and it makes at
    most [L] full iterations, [L] being the runaway limit (none when [L]
    is not positive).  It is left at the limit test exactly when
    [fix_loop_idx] exceeds [L], which happens on entering turn [L + 1],
    with the loop-limit warning as the last log record; it is left
    earlier after round 1 when [fix] is false, or after a pass over the
    rules that left [changed] false.  Every fix application logged
    belongs to a round between 1 and [L]. *)
Theorem fix_loop_within_runaway_limit (config : Config) (fixing : bool)
    (parsed : Segment) :
  let r := lint_loop config fixing parsed in
  let L := runaway_limit config in
  0 <= full_iterations r <= Z.max 0 L
  /\ (loop_exit r = LoopLimitReached <-> fix_loop_idx r > L)
  /\ (loop_exit r = LoopLimitReached ->
      fix_loop_idx r = Z.max 1 (L + 1)
      /\ last (log (final_vars r)) = Some (LoopLimitWarning L))
  /\ (loop_exit r = NotFixing -> fixing = false /\ fix_loop_idx r = 1)
  /\ (loop_exit r = Unchanged ->
      1 <= fix_loop_idx r <= L
      /\ exists before,
           run_rules config fixing (fix_loop_idx r) before
           = (final_vars r, false))
  /\ (forall k fixes,
        ApplyingFixes k fixes ∈ log (final_vars r) -> 1 <= k <= L).
Proof.
  cbv zeta. unfold_def lint_loop.
  pose proof (fix_loop_exit config fixing 0 parsed None (initial_vars parsed))
    as (Hlt & Hlimit & Hother & Hnofix & Hunch).
  cbv zeta in *. unfold full_iterations.
  set (r := fix_loop config fixing 0 parsed None (initial_vars parsed)) in *.
  split; [|split; [|split; [|split; [|split]]]].
  - destruct (loop_exit r) eqn:Hexit.
    + destruct (Hlimit eq_refl) as [-> _]. lia.
    + specialize (Hother ltac:(discriminate)). lia.
    + specialize (Hother ltac:(discriminate)). lia.
  - split.
    + intros Hl. destruct (Hlimit Hl) as [-> _]. lia.
    + intros Hgt. destruct (loop_exit r) eqn:Hexit; [reflexivity| |];
        specialize (Hother ltac:(discriminate)); lia.
  - intros Hl. destruct (Hlimit Hl) as [-> Hlast]. split; [lia|exact Hlast].
  - exact Hnofix.
  - intros Hu. split; [|now apply Hunch].
    rewrite Hu in Hother. specialize (Hother ltac:(discriminate)). lia.
  - intros k f Hin.
    destruct (fix_loop_applications_within config fixing 0 parsed None
                (initial_vars parsed) k f Hin) as [Hin0|Hk]; [|lia].
    inversion Hin0.
Qed.

(** What one turn of the loop over the rules does to [last_fixes], read
    off [crawl_step] and the results of [crawl] and [apply_fixes]. *)
Lemma crawl_step_last_fixes (config : Config) (fixing : bool) (idx : Z)
    (vars : LoopVars Fixes) (changed : bool) (crawler : Crawler Fixes)
    (lerrs : list Violation) (fixes : Fixes) (new_working : Segment)
    (unused : Fixes) :
  crawl crawler (working vars) (dialect config) fixing = (lerrs, fixes) ->
  apply_fixes (working vars) fixes = (new_working, unused) ->
  let st := crawl_step config fixing idx (vars, changed) crawler in
  (fixing = true -> fixes_truthy fixes = true ->
     (last_fixes vars = Some fixes ->
        last_fixes (fst st) = last_fixes vars
        /\ working (fst st) = working vars /\ snd st = changed)
     /\ (last_fixes vars <> Some fixes ->
           last_fixes (fst st) = Some fixes
           /\ (raw new_working ∈ previous_versions vars ->
                 working (fst st) = working vars
                 /\ previous_versions (fst st) = previous_versions vars
                 /\ snd st = changed)
           /\ (raw new_working ∉ previous_versions vars ->
                 working (fst st) = new_working
                 /\ previous_versions (fst st)
                    = previous_versions vars ∪ {[ raw new_working ]}
                 /\ snd st = true)))
  /\ (fixing = false \/ fixes_truthy fixes = false ->
        last_fixes (fst st) = last_fixes vars
        /\ working (fst st) = working vars /\ snd st = changed).
Proof.
  intros Hcrawl Happly. cbv zeta.
  pose proof (crawl_step_outcome config fixing idx vars changed crawler) as Ho.
  destruct Ho as [lerrs' fixes' Hc Hf|lerrs' fixes' Hc Hf Hl
                 |lerrs' fixes' nw un Hc Hf Hl Ha Hs
                 |lerrs' fixes' nw un Hc Hf Hl Ha Hs];
    cbn [fst snd last_fixes working previous_versions];
    rewrite Hcrawl in Hc; injection Hc as <- <-;
    try (rewrite Happly in Ha; injection Ha as <- <-).
  - split.
    + intros -> Ht. rewrite Ht in Hf. discriminate.
    + auto.
  - apply andb_true_iff in Hf as [-> Ht]. split.
    + intros _ _. split; [auto|]. intros Hne. contradiction.
    + intros [?|Hfalse]; [discriminate|congruence].
  - apply andb_true_iff in Hf as [-> Ht]. split.
    + intros _ _. split; [intros Heq; contradiction|].
      intros _. split; [reflexivity|]. split; [intros Hin; contradiction|auto].
    + intros [?|Hfalse]; [discriminate|congruence].
  - apply andb_true_iff in Hf as [-> Ht]. split.
    + intros _ _. split; [intros Heq; contradiction|].
      intros _. split; [reflexivity|]. split; [auto|intros Hnin; contradiction].
    + intros [?|Hfalse]; [discriminate|congruence].
Qed.

(** C6, amended.  Throughout the fix loop [last_fixes] is the most
    recent edit set whose application was attempted.  One turn of the
    loop over the rules, for the fixes its rule proposes and what
    [apply_fixes] makes of them: in fix mode a truthy edit set that
    differs from [last_fixes] becomes [last_fixes], and this also when
    the text of the new tree is among the previous versions, so that the
    tree is rejected, the working tree stays and [changed] is not set;
    an edit set equal to [last_fixes] is skipped and leaves everything
    as it is, and so does a turn without fix mode or with falsy fixes.
    Through the loop: [last_fixes] equals the fixes of the last
    [Applying Fixes] record of the log when the loop is entered, after
    every turn, and when the loop is left. *)
Theorem last_fixes_is_last_attempted (config : Config) (fixing : bool)
    (parsed : Segment) :
  (forall idx vars changed crawler lerrs fixes new_working unused,
     crawl crawler (working vars) (dialect config) fixing = (lerrs, fixes) ->
     apply_fixes (working vars) fixes = (new_working, unused) ->
     let st := crawl_step config fixing idx (vars, changed) crawler in
     (fixing = true -> fixes_truthy fixes = true ->
        (last_fixes vars = Some fixes ->
           last_fixes (fst st) = last_fixes vars
           /\ working (fst st) = working vars /\ snd st = changed)
        /\ (last_fixes vars <> Some fixes ->
              last_fixes (fst st) = Some fixes
              /\ (raw new_working ∈ previous_versions vars ->
                    working (fst st) = working vars
                    /\ previous_versions (fst st) = previous_versions vars
                    /\ snd st = changed)
              /\ (raw new_working ∉ previous_versions vars ->
                    working (fst st) = new_working
                    /\ previous_versions (fst st)
                       = previous_versions vars ∪ {[ raw new_working ]}
                    /\ snd st = true)))
     /\ (fixing = false \/ fixes_truthy fixes = false ->
           last_fixes (fst st) = last_fixes vars
           /\ working (fst st) = working vars /\ snd st = changed))
  /\ last_fixes_logged (initial_vars parsed)
  /\ (forall idx vars changed crawler,
        last_fixes_logged vars ->
        last_fixes_logged
          (fst (crawl_step config fixing idx (vars, changed) crawler)))
  /\ last_fixes_logged (final_vars (lint_loop config fixing parsed))
  /\ (forall idx vars changed crawler,
        let st := crawl_step config fixing idx (vars, changed) crawler in
        last_fixes (fst st) <> last_fixes vars ->
        exists lerrs fixes,
          crawl crawler (working vars) (dialect config) fixing = (lerrs, fixes)
          /\ fixing = true /\ fixes_truthy fixes = true
          /\ last_fixes (fst st) = Some fixes).
Proof.
  split.
  { intros idx vars changed crawler lerrs fixes new_working unused Hc Ha.
    exact (crawl_step_last_fixes config fixing idx vars changed crawler
             lerrs fixes new_working unused Hc Ha). }
  split; [reflexivity|]. split; [|split].
  - intros idx vars changed crawler HI.
    eapply step_last_fixes_logged; [exact HI|apply crawl_step_outcome].
  - now apply fix_loop_last_fixes_logged.
  - intros idx vars changed crawler. cbv zeta.
    pose proof (crawl_step_outcome config fixing idx vars changed crawler) as Ho.
    destruct Ho as [lerrs fixes Hc Hf|lerrs fixes Hc Hf Hl
                   |lerrs fixes nw un Hc Hf Hl Ha Hs
                   |lerrs fixes nw un Hc Hf Hl Ha Hs];
      cbn [fst last_fixes]; intros Hne; try contradiction;
      apply andb_true_iff in Hf as [-> Ht]; eauto 10.
Qed.

(** C10.  When parsing gave a tree, the read of [initial_linting_errors]
    after the loop is defined exactly when the runaway limit is at least
    1: then [lint_string] returns a [LintedFile]; with a smaller limit
    the loop is left at the limit test of its first turn, the name was
    never bound and [lint_string] raises [UnboundLocalError].  The name
    is bound in round 1 only: a loop that continues after round 1 leaves
    it as it is. *)
Theorem initial_linting_errors_bound_iff_limit (in_str fname : string)
    (fixing : bool) (config : Config) (parsed : Segment)
    (vs : list Violation) (tf : option TemplatedFile) :
  parse_string in_str fname config = (Some parsed, vs, tf) ->
  let r := lint_loop config fixing parsed in
  (1 <= runaway_limit config ->
     is_Some (initial_linting_errors r)
     /\ exists lf, lint_string in_str fname fixing config = Ok lf)
  /\ (runaway_limit config < 1 ->
        initial_linting_errors r = None
        /\ loop_exit r = LoopLimitReached
        /\ fix_loop_idx r = 1
        /\ lint_string in_str fname fixing config = Err UnboundLocalError)
  /\ (forall idx p initial vars,
        1 <= idx ->
        initial_linting_errors (fix_loop config fixing idx p initial vars)
        = initial).
Proof.
  intros Hparse. cbv zeta.
  assert (Hinit := lint_loop_initial config fixing parsed).
  rewrite (lint_string_parsed _ _ _ _ _ _ _ Hparse).
  split; [|split].
  - intros Hlimit. destruct (Z.leb_spec 1 (runaway_limit config)); [|lia].
    rewrite Hinit. split; [eauto|]. eexists. reflexivity.
  - intros Hlimit. destruct (Z.leb_spec 1 (runaway_limit config)); [lia|].
    rewrite Hinit. split; [reflexivity|].
    unfold_def lint_loop. rewrite fix_loop_equation_1.
    destruct (decide (0 + 1 > runaway_limit config)) as [Hgt|Hle]; [|lia].
    cbn [fix_loop_unfold_clause_1 loop_exit fix_loop_idx]. auto.
  - intros idx p initial vars. apply fix_loop_initial_kept.
Qed.

End LinterFacts.



(** ** The comments of [lint_string] *)

Section NoqaLinter.

Context {Fixes : Type} `{EqDecision Fixes}.
Variable fixes_truthy : Fixes -> bool.
Variable get_ruleset : Config -> list (Crawler Fixes).
Variable apply_fixes : Segment -> Fixes -> Segment * Fixes.
Variable parse_string :
  string -> string -> Config ->
  option Segment * list Violation * option TemplatedFile.
Variable recursive_crawl : Segment -> string -> list Segment.
Variable raw_trimmed : Segment -> string.
Variable ignore_if_in : Violation -> list string -> Violation.

Local Abbreviation lint_loop := (lint_loop fixes_truthy get_ruleset apply_fixes).
Local Abbreviation lint_string :=
  (lint_string fixes_truthy get_ruleset apply_fixes parse_string
               recursive_crawl raw_trimmed ignore_if_in).
Local Abbreviation extract := (extract_ignore_from_comment raw_trimmed).

(** The loop over the comments appends, in the order of the comments,
    the parse errors to the violations and the entries to the ignore
    buffer. *)
Lemma noqa_fold (comments : list Segment) (vs : list Violation)
    (ignore_buff : list IgnoreEntry) :
  fold_left (noqa_step raw_trimmed) comments (vs, ignore_buff)
  = (vs ++ noqa_errors raw_trimmed comments, ignore_buff ++ noqa_entries raw_trimmed comments).
Proof.
  revert vs ignore_buff.
  induction comments as [|comment comments IH]; intros vs ignore_buff;
    cbn [fold_left].
  - unfold noqa_errors, noqa_entries. cbn [flat_map].
    now rewrite !app_nil_r.
  - unfold noqa_errors, noqa_entries in *. cbn [flat_map].
    unfold noqa_step at 2.
    destruct (String.eqb (name comment) "inline_comment").
    + destruct (extract comment) as [err|entry|]; rewrite IH;
        cbn [app]; rewrite <- ?app_assoc; reflexivity.
    + rewrite IH. reflexivity.
Qed.

Lemma collect_noqa_spec (parsed : Segment) (vs : list Violation) :
  collect_noqa recursive_crawl raw_trimmed parsed vs
  = (vs ++ noqa_errors raw_trimmed (recursive_crawl parsed "comment"),
     noqa_entries raw_trimmed (recursive_crawl parsed "comment")).
Proof. unfold collect_noqa. now rewrite noqa_fold. Qed.

Lemma elem_of_noqa_entries (comments : list Segment) (entry : IgnoreEntry) :
  entry ∈ noqa_entries raw_trimmed comments
  <-> exists comment,
        comment ∈ comments /\ name comment = "inline_comment"
        /\ extract comment = NoqaEntry entry.
Proof.
  unfold noqa_entries. rewrite list_elem_of_In, in_flat_map. split.
  - intros (comment & Hin & Hentry). exists comment.
    split; [now apply list_elem_of_In|].
    destruct (String.eqb_spec (name comment) "inline_comment") as [Hn|_];
      [|destruct Hentry].
    split; [exact Hn|].
    destruct (extract comment) as [err|entry'|]; try destruct Hentry.
    + now subst.
    + contradiction.
  - intros (comment & Hin & Hn & Hentry). exists comment.
    split; [now apply list_elem_of_In|].
    rewrite Hn, Hentry. cbn. now left.
Qed.

Lemma elem_of_noqa_errors (comments : list Segment) (err : Violation) :
  err ∈ noqa_errors raw_trimmed comments
  <-> exists comment,
        comment ∈ comments /\ name comment = "inline_comment"
        /\ extract comment = NoqaError err.
Proof.
  unfold noqa_errors. rewrite list_elem_of_In, in_flat_map. split.
  - intros (comment & Hin & Herr). exists comment.
    split; [now apply list_elem_of_In|].
    destruct (String.eqb_spec (name comment) "inline_comment") as [Hn|_];
      [|destruct Herr].
    split; [exact Hn|].
    destruct (extract comment) as [err'|entry|]; try destruct Herr.
    + now subst.
    + contradiction.
  - intros (comment & Hin & Hn & Herr). exists comment.
    split; [now apply list_elem_of_In|].
    rewrite Hn, Herr. cbn. now left.
Qed.

(** The file [lint_string] returns for a parsed tree: its ignore mask
    and its violations, in terms of the comments of the tree. *)
Lemma lint_string_comments (in_str fname : string) (fixing : bool)
    (config : Config) (parsed : Segment) (vs : list Violation)
    (tf : option TemplatedFile) (lf : LintedFile) :
  parse_string in_str fname config = (Some parsed, vs, tf) ->
  lint_string in_str fname fixing config = Ok lf ->
  ignore_mask lf = noqa_entries raw_trimmed (recursive_crawl parsed "comment")
  /\ exists initial,
       initial_linting_errors (lint_loop config fixing parsed) = Some initial
       /\ violations lf
          = map (fun v => ignore_if_in v (cfg_ignore config))
                (vs ++ noqa_errors raw_trimmed (recursive_crawl parsed "comment")
                    ++ initial).
Proof.
  intros Hparse.
  rewrite (lint_string_parsed fixes_truthy get_ruleset apply_fixes parse_string
             recursive_crawl raw_trimmed ignore_if_in _ _ _ _ _ _ _ Hparse).
  rewrite collect_noqa_spec. cbn [fst snd].
  destruct (initial_linting_errors (lint_loop config fixing parsed))
    as [initial|]; [|discriminate].
  intros [= <-]. cbn [ignore_mask violations]. split; [reflexivity|].
  exists initial. split; [reflexivity|]. now rewrite <- app_assoc.
Qed.

(** C7.  With ignore filtering on, a violation survives [get_violations]
    exactly when it passes the other filters, its ignore flag is unset
    and no entry of the ignore mask applies to it; an entry
    [(line_no, rules)] applies when the violation is on that line and
    [rules] is [None] or contains the violation's rule code.  The mask
    of the file that [lint_string] returns holds the entries of the
    inline comments of the parsed tree, in their order, and nothing
    else.  Hence in that file a comment [noqa: R] on line [n] removes
    the violations of rule [R] on line [n], a bare [noqa] removes all
    violations on its line, and a violation that passes the other
    filters and has its flag unset is removed only by an entry that
    such a comment gives; when the comment is the only one to give an
    entry, it removes exactly those violations. *)
Theorem get_violations_ignore_mask :
  (forall (lf : LintedFile) (rules : list string) (types : list ErrClass)
          (fixable_arg : option bool) (v : Violation),
      let kept := get_violations lf rules types true fixable_arg in
      let unfiltered := get_violations lf rules types false fixable_arg in
      v ∈ kept <->
        v ∈ unfiltered /\ ignore v = false
        /\ forall entry, entry ∈ ignore_mask lf -> ~ entry_applies entry v)
  /\ (forall (in_str fname : string) (fixing : bool) (config : Config)
             (parsed : Segment) (vs : list Violation)
             (tf : option TemplatedFile) (lf : LintedFile),
        parse_string in_str fname config = (Some parsed, vs, tf) ->
        lint_string in_str fname fixing config = Ok lf ->
        let comments := recursive_crawl parsed "comment" in
        ignore_mask lf = noqa_entries raw_trimmed comments
        /\ forall (rules : list string) (types : list ErrClass)
                  (fixable_arg : option bool) (v : Violation),
             let kept := get_violations lf rules types true fixable_arg in
             let unfiltered := get_violations lf rules types false fixable_arg in
             (v ∈ kept <->
                v ∈ unfiltered /\ ignore v = false
                /\ forall comment entry,
                     comment ∈ comments ->
                     name comment = "inline_comment" ->
                     extract comment = NoqaEntry entry ->
                     ~ entry_applies entry v)
             /\ (forall comment rest,
                   comment ∈ comments ->
                   name comment = "inline_comment" ->
                   Py.strip (raw_trimmed comment) = "noqa:" +:+ rest ->
                   Py.contains "," rest = false ->
                   let n := pm_line_no (pos_marker comment) in
                   let R := Py.strip rest in
                   extract comment = NoqaEntry (n, Some [R])
                   /\ (n, Some [R]) ∈ ignore_mask lf
                   /\ (v ∈ kept -> ~ (line_no v = n /\ rule_code v = R))
                   /\ (noqa_entries raw_trimmed comments = [(n, Some [R])] ->
                       (v ∈ kept <->
                          v ∈ unfiltered /\ ignore v = false
                          /\ ~ (line_no v = n /\ rule_code v = R))))
             /\ (forall comment,
                   comment ∈ comments ->
                   name comment = "inline_comment" ->
                   Py.strip (raw_trimmed comment) = "noqa" ->
                   let n := pm_line_no (pos_marker comment) in
                   extract comment = NoqaEntry (n, None)
                   /\ (n, None) ∈ ignore_mask lf
                   /\ (v ∈ kept -> line_no v <> n)
                   /\ (noqa_entries raw_trimmed comments = [(n, None)] ->
                       (v ∈ kept <->
                          v ∈ unfiltered /\ ignore v = false
                          /\ line_no v <> n)))).
Proof.
  split.
  { intros lf rules types fixable_arg v. cbv zeta.
    apply get_violations_survivor. }
  intros in_str fname fixing config parsed vs tf lf Hparse Hlint. cbv zeta.
  destruct (lint_string_comments _ _ _ _ _ _ _ _ Hparse Hlint) as [Hmask _].
  split; [exact Hmask|].
  intros rules types fixable_arg v.
  pose proof (get_violations_mask_entries lf rules types fixable_arg v)
    as (Hsurv & Hrule & Hbare).
  cbv zeta in Hsurv, Hrule, Hbare.
  split; [|split].
  - rewrite Hsurv, Hmask. split.
    + intros (Hin & Hign & Hno). split; [exact Hin|]. split; [exact Hign|].
      intros comment entry Hc Hn He. apply Hno.
      apply elem_of_noqa_entries. eauto.
    + intros (Hin & Hign & Hno). split; [exact Hin|]. split; [exact Hign|].
      intros entry He. apply elem_of_noqa_entries in He as (c & Hc & Hn & Hx).
      eauto.
  - intros comment rest Hc Hn Hcontent Hcomma.
    destruct (Hrule raw_trimmed comment rest Hcontent Hcomma) as [Hx Hexact].
    assert (Hentry : (pm_line_no (pos_marker comment), Some [Py.strip rest])
                     ∈ ignore_mask lf).
    { rewrite Hmask. apply elem_of_noqa_entries. eauto. }
    split; [exact Hx|]. split; [exact Hentry|]. split.
    + intros Hkept [Hl Hr]. apply Hsurv in Hkept as (_ & _ & Hno).
      apply (Hno _ Hentry). split; [exact Hl|]. right.
      eexists. split; [reflexivity|]. cbn [snd]. rewrite Hr.
      apply list_elem_of_singleton. reflexivity.
    + intros Honly. apply Hexact. now rewrite Hmask.
  - intros comment Hc Hn Hcontent.
    destruct (Hbare raw_trimmed comment Hcontent) as [Hx Hexact].
    assert (Hentry : (pm_line_no (pos_marker comment), None) ∈ ignore_mask lf).
    { rewrite Hmask. apply elem_of_noqa_entries. eauto. }
    split; [exact Hx|]. split; [exact Hentry|]. split.
    + intros Hkept Hl. apply Hsurv in Hkept as (_ & _ & Hno).
      apply (Hno _ Hentry). split; [exact Hl|now left].
    + intros Honly. apply Hexact. now rewrite Hmask.
Qed.

(** C8.  [extract_ignore_from_comment] on a comment whose stripped
    content is [content]: a bare [noqa] gives [(line_no, None)];
    [noqa:] followed by [rest] gives [(line_no, codes)] with the
    comma-separated pieces of [rest], each stripped; [noqa] followed by
    anything that does not start with a colon gives a [SQLParseError];
    content that does not start with [noqa] gives no entry.
    [lint_string] records the error: the violations of the file it
    returns are the violations of parsing, then the parse errors of the
    malformed inline comments of the tree in their order, then the
    linting errors of the first pass, each passed through
    [ignore_if_in]; so the error of every malformed inline comment is
    among them, and the comment adds nothing to the ignore mask. *)
Theorem extract_ignore_from_comment_cases :
  (forall comment : Segment,
      let content := Py.strip (raw_trimmed comment) in
      let line := pm_line_no (pos_marker comment) in
      let result := extract comment in
      (content = "noqa" -> result = NoqaEntry (line, None))
      /\ (forall rest, content = "noqa:" +:+ rest ->
            result = NoqaEntry (line, Some (map Py.strip (Py.split "," rest)))
            /\ Py.join "," (Py.split "," rest) = rest)
      /\ (forall c rest, content = "noqa" +:+ String c rest -> c <> ":"%char ->
            exists err,
              result = NoqaError err
              /\ v_class err = SQLParseError
              /\ line_no err = line
              /\ forall vs ignore_buff,
                   name comment = "inline_comment" ->
                   noqa_step raw_trimmed (vs, ignore_buff) comment
                   = (vs ++ [err], ignore_buff))
      /\ (Py.startswith content "noqa" = false -> result = NoqaNone))
  /\ (forall (in_str fname : string) (fixing : bool) (config : Config)
             (parsed : Segment) (vs : list Violation)
             (tf : option TemplatedFile) (lf : LintedFile),
        parse_string in_str fname config = (Some parsed, vs, tf) ->
        lint_string in_str fname fixing config = Ok lf ->
        let comments := recursive_crawl parsed "comment" in
        (exists initial,
           initial_linting_errors (lint_loop config fixing parsed)
           = Some initial
           /\ violations lf
              = map (fun v => ignore_if_in v (cfg_ignore config))
                    (vs ++ noqa_errors raw_trimmed comments ++ initial))
        /\ (forall err,
              err ∈ noqa_errors raw_trimmed comments
              <-> exists comment,
                    comment ∈ comments /\ name comment = "inline_comment"
                    /\ extract comment = NoqaError err)
        /\ forall comment c rest,
             comment ∈ comments ->
             name comment = "inline_comment" ->
             Py.strip (raw_trimmed comment) = "noqa" +:+ String c rest ->
             c <> ":"%char ->
             let err :=
               new_SQLParseError
                 "Malformed 'noqa' section. Expected 'noqa: <rule>[,...]"
                 comment in
             err ∈ noqa_errors raw_trimmed comments
             /\ ignore_if_in err (cfg_ignore config) ∈ violations lf
             /\ noqa_entries raw_trimmed [comment] = []).
Proof.
  split; [intros comment; apply extract_cases|].
  intros in_str fname fixing config parsed vs tf lf Hparse Hlint. cbv zeta.
  destruct (lint_string_comments _ _ _ _ _ _ _ _ Hparse Hlint)
    as [_ (initial & Hinit & Hvs)].
  split; [eauto|]. split; [intros err; apply elem_of_noqa_errors|].
  intros comment c rest Hc Hn Hcontent Hcolon.
  pose proof (extract_malformed raw_trimmed comment c rest Hcontent Hcolon)
    as Hmal.
  assert (Herr : new_SQLParseError
                   "Malformed 'noqa' section. Expected 'noqa: <rule>[,...]"
                   comment ∈ noqa_errors raw_trimmed (recursive_crawl parsed "comment")).
  { apply elem_of_noqa_errors. eauto. }
  split; [exact Herr|]. split.
  - rewrite Hvs. apply list_elem_of_In.
    apply (in_map (fun v => ignore_if_in v (cfg_ignore config))).
    apply list_elem_of_In.
    apply elem_of_app. right. apply elem_of_app. now left.
  - unfold noqa_entries. cbn [flat_map]. now rewrite Hn, Hmal.
Qed.

End NoqaLinter.

(** The toy linter on the file with the two comments. *)
Lemma lint_commented_result :
  NoqaExamples.lint_commented = Ok NoqaExamples.commented_linted.
Proof. vm_compute. reflexivity. Qed.

(** C7 on two lines [SELECT  1] as [lint_string] returns them, the first
    one ending in [-- noqa: L001]: the mask holds the entry of that
    comment, the [L001] violation of line 1 goes, those of other rules
    and other lines stay; and under the mask of a bare [-- noqa] line 1
    is empty. *)
Lemma get_violations_ignore_mask_witness :
  ignore_mask NoqaExamples.commented_linted = [(1, Some ["L001"])]
  /\ (Examples.lint_error "L001" 1 7
      ∉ get_violations_default NoqaExamples.commented_linted)
  /\ Examples.lint_error "L003" 1 9
     ∈ get_violations_default NoqaExamples.commented_linted
  /\ Examples.lint_error "L001" 2 7
     ∈ get_violations_default NoqaExamples.commented_linted
  /\ (Examples.lint_error "L003" 1 9
      ∉ get_violations_default Examples.bare_noqa_linted).
Proof.
  pose proof (get_violations_ignore_mask
                Examples.toy_truthy (fun _ => [NoqaExamples.reporting_rule])
                Examples.toy_apply_fixes NoqaExamples.parse_commented
                Examples.toy_recursive_crawl Examples.toy_raw_trimmed
                Examples.toy_ignore_if_in) as [Hany Hlinted].
  destruct (Hlinted "SELECT  1 -- noqa: L001 SELECT  1 -- noqa L003"
              "<string input>" false (Examples.toy_config 10)
              NoqaExamples.commented_tree [] None NoqaExamples.commented_linted
              eq_refl lint_commented_result) as [Hmask Hkept].
  cbv zeta in Hkept.
  assert (Hrule := fun v =>
    proj1 (proj2 (Hkept [] [] None v))
      (Examples.comment_segment "-- noqa: L001" 1) " L001"
      ltac:(apply list_elem_of_In; vm_compute; tauto) eq_refl eq_refl eq_refl).
  cbv zeta in Hrule.
  split; [reflexivity|]. unfold get_violations_default. split.
  { intros Hin. destruct (Hrule (Examples.lint_error "L001" 1 7)) as (_ & _ & Hno & _).
    apply (Hno Hin). split; reflexivity. }
  split.
  { destruct (Hrule (Examples.lint_error "L003" 1 9)) as (_ & _ & _ & Hexact).
    apply (Hexact eq_refl). split; [|split; [reflexivity|]].
    - apply list_elem_of_In. vm_compute. tauto.
    - intros [_ Hc]. discriminate Hc. }
  split.
  { destruct (Hrule (Examples.lint_error "L001" 2 7)) as (_ & _ & _ & Hexact).
    apply (Hexact eq_refl). split; [|split; [reflexivity|]].
    - apply list_elem_of_In. vm_compute. tauto.
    - intros [Hl _]. discriminate Hl. }
  { intros Hin.
    apply (Hany Examples.bare_noqa_linted [] [] None) in Hin as (_ & _ & Hno).
    apply (Hno (1, None)); [apply list_elem_of_singleton; reflexivity|].
    split; [reflexivity|now left]. }
Defined.

(** C8 on four comments, and on the file that [lint_string] returns for
    the tree with a [noqa: L001] and a malformed [noqa L003] comment:
    the parse error of the second is among its violations. *)
Lemma extract_ignore_from_comment_cases_witness :
  let rt := Examples.toy_raw_trimmed in
  extract_ignore_from_comment rt (Examples.comment_segment "-- noqa" 3)
  = NoqaEntry (3, None)
  /\ extract_ignore_from_comment rt (Examples.comment_segment "--noqa: L001 , L003" 4)
     = NoqaEntry (4, Some ["L001"; "L003"])
  /\ (exists err,
        extract_ignore_from_comment rt (Examples.comment_segment "-- noqa L001" 5)
        = NoqaError err /\ v_class err = SQLParseError /\ line_no err = 5)
  /\ extract_ignore_from_comment rt (Examples.comment_segment "-- a comment" 6)
     = NoqaNone
  /\ NoqaExamples.malformed_error ∈ violations NoqaExamples.commented_linted.
Proof.
  cbv zeta.
  pose proof (extract_ignore_from_comment_cases
                Examples.toy_truthy (fun _ => [NoqaExamples.reporting_rule])
                Examples.toy_apply_fixes NoqaExamples.parse_commented
                Examples.toy_recursive_crawl Examples.toy_raw_trimmed
                Examples.toy_ignore_if_in) as [Hcases Hlinted].
  destruct (Hcases (Examples.comment_segment "-- noqa" 3)) as (H1 & _).
  destruct (Hcases (Examples.comment_segment "--noqa: L001 , L003" 4))
    as (_ & H2 & _).
  destruct (Hcases (Examples.comment_segment "-- noqa L001" 5))
    as (_ & _ & H3 & _).
  destruct (Hcases (Examples.comment_segment "-- a comment" 6))
    as (_ & _ & _ & H4).
  split; [exact (H1 eq_refl)|].
  split; [exact (proj1 (H2 " L001 , L003" eq_refl))|].
  split.
  { destruct (H3 " "%char "L001" eq_refl ltac:(discriminate))
      as (err & He & Hc & Hl & _).
    exists err. auto. }
  split; [exact (H4 eq_refl)|].
  destruct (Hlinted "SELECT  1 -- noqa: L001 SELECT  1 -- noqa L003"
              "<string input>" false (Examples.toy_config 10)
              NoqaExamples.commented_tree [] None NoqaExamples.commented_linted
              eq_refl lint_commented_result) as (_ & _ & Hmal).
  destruct (Hmal (Examples.comment_segment "-- noqa L003" 2) " "%char "L003"
              ltac:(apply list_elem_of_In; vm_compute; tauto) eq_refl eq_refl
              ltac:(discriminate)) as (_ & Hin & _).
  exact Hin.
Defined.

(** *** The loop on the toy rules *)

(** C1 on two rules that undo each other: round 2 reports [L002] once
    more, the returned file holds the two violations of round 1. *)
Lemma lint_string_reports_first_pass_witness :
  exists lf,
    Examples.toy_lint_string Examples.oscillating_rules 10 true "A" = Ok lf
    /\ violations lf
       = [Examples.lint_error "L001" 1 1; Examples.lint_error "L002" 1 1]
    /\ length (linting_errors
                 (final_vars
                    (Examples.toy_lint_loop Examples.oscillating_rules 10 true "A")))
       = 3%nat.
Proof.
  destruct (lint_string_reports_first_pass
              Examples.toy_truthy Examples.oscillating_rules
              Examples.toy_apply_fixes Examples.toy_parse_string
              Examples.toy_recursive_crawl Examples.toy_raw_trimmed
              Examples.toy_ignore_if_in
              "A" "<string input>" true (Examples.toy_config 10)
              (Examples.toy_tree "A") [] None eq_refl ltac:(simpl; lia))
    as (_ & _ & lf & Hlf & Hvs).
  exists lf. split; [exact Hlf|]. split; [|vm_compute; reflexivity].
  rewrite Hvs. vm_compute. reflexivity.
Defined.

(** C2 on a rule that never settles, with limit 3: the loop is left on
    entering turn 4, with the warning; and on the oscillating rules, where
    it is left in round 2 because nothing changed. *)
Lemma fix_loop_within_runaway_limit_witness :
  let r := Examples.toy_lint_loop (fun _ => [Examples.growing_rule]) 3 true "A" in
  let r' := Examples.toy_lint_loop Examples.oscillating_rules 10 true "A" in
  (fix_loop_idx r = 4
   /\ last (log (final_vars r)) = Some (LoopLimitWarning 3)
   /\ raw (parsed_tree r) = "Axxx")
  /\ 1 <= fix_loop_idx r' <= 10.
Proof.
  cbv zeta. split.
  - pose proof (fix_loop_within_runaway_limit
                  Examples.toy_truthy (fun _ => [Examples.growing_rule])
                  Examples.toy_apply_fixes (Examples.toy_config 3) true
                  (Examples.toy_tree "A")) as (_ & _ & Hlimit & _).
    destruct (Hlimit ltac:(vm_compute; reflexivity)) as [Hidx Hlast].
    split; [exact Hidx|]. split; [exact Hlast|]. vm_compute. reflexivity.
  - pose proof (fix_loop_within_runaway_limit
                  Examples.toy_truthy Examples.oscillating_rules
                  Examples.toy_apply_fixes (Examples.toy_config 10) true
                  (Examples.toy_tree "A")) as (_ & _ & _ & _ & Hunch & _).
    exact (proj1 (Hunch ltac:(vm_compute; reflexivity))).
Defined.

(** C6, the claim as written fails.  The first rule rewrote [A] to [B] and
    its fixes were committed; the second rule proposes to rewrite [B] to
    [A]: [last_fixes] becomes that edit set, its result [A] is found among
    the previous versions, and the tree stays [B]. *)
Lemma last_fixes_assigned_on_rejected_fixes :
  ~ last_fixes_assigned_only_on_commit Examples.toy_truthy Examples.toy_apply_fixes.
Proof.
  intros Hclaim.
  pose (vars := fst (crawl_step Examples.toy_truthy Examples.toy_apply_fixes
                       (Examples.toy_config 10) true 1
                       (initial_vars (Examples.toy_tree "A"), false)
                       (Examples.rewrite_rule "L001" "A" "B"))).
  specialize (Hclaim (Examples.toy_config 10) true 1 vars false
                     (Examples.rewrite_rule "L002" "B" "A")).
  cbv zeta in Hclaim. destruct Hclaim as [Hchanged _].
  - vm_compute. discriminate.
  - vm_compute in Hchanged. discriminate.
Qed.

(** The same run to its end: [last_fixes] is the rejected edit set. *)
Example oscillation_run :
  let r := Examples.toy_lint_loop Examples.oscillating_rules 10 true "A" in
  last_fixes (final_vars r) = Some [("B", "A")]
  /\ raw (working (final_vars r)) = "B"
  /\ log (final_vars r)
     = [ApplyingFixes 1 [("A", "B")]; RemainderFixes 1 [];
        ApplyingFixes 1 [("B", "A")]; RemainderFixes 1 [];
        FixNotAppliedWarning "L002"; FixNotAppliedWarning "L002"]
  /\ loop_exit r = Unchanged /\ fix_loop_idx r = 2.
Proof. vm_compute. repeat split; reflexivity. Qed.

(** C6 amended, on the second rule of the oscillating pair: the first
    rule rewrote [A] to [B]; the second proposes to rewrite [B] to [A],
    which differs from [last_fixes]; its result [A] is a previous
    version.  [last_fixes] is that edit set, the working tree is still
    [B], and [changed] is as it was. *)
Lemma last_fixes_is_last_attempted_witness :
  let vars :=
    fst (crawl_step Examples.toy_truthy Examples.toy_apply_fixes
           (Examples.toy_config 10) true 1
           (initial_vars (Examples.toy_tree "A"), false)
           (Examples.rewrite_rule "L001" "A" "B")) in
  let st :=
    crawl_step Examples.toy_truthy Examples.toy_apply_fixes
      (Examples.toy_config 10) true 1 (vars, false)
      (Examples.rewrite_rule "L002" "B" "A") in
  last_fixes vars = Some [("A", "B")]
  /\ last_fixes (fst st) = Some [("B", "A")]
  /\ working (fst st) = working vars
  /\ previous_versions (fst st) = previous_versions vars
  /\ snd st = false.
Proof.
  cbv zeta.
  pose proof (last_fixes_is_last_attempted
                Examples.toy_truthy Examples.oscillating_rules
                Examples.toy_apply_fixes (Examples.toy_config 10) true
                (Examples.toy_tree "A")) as (Hstep & _).
  split; [vm_compute; reflexivity|].
  destruct (Hstep 1
              (fst (crawl_step Examples.toy_truthy Examples.toy_apply_fixes
                      (Examples.toy_config 10) true 1
                      (initial_vars (Examples.toy_tree "A"), false)
                      (Examples.rewrite_rule "L001" "A" "B")))
              false (Examples.rewrite_rule "L002" "B" "A")
              [Examples.lint_error "L002" 1 1] [("B", "A")]
              (Examples.toy_tree "A") []
              ltac:(vm_compute; reflexivity) ltac:(vm_compute; reflexivity))
    as [Hfix _].
  destruct (Hfix eq_refl eq_refl) as [_ Hdiffers].
  destruct Hdiffers as (Hlast & Hrejected & _);
    [vm_compute; discriminate|].
  destruct Hrejected as (Hw & Hp & Hc); [vm_compute; set_solver|].
  auto.
Defined.

(** C10 with limits 10 and 0. *)
Lemma initial_linting_errors_bound_iff_limit_witness :
  (exists lf, Examples.toy_lint_string Examples.oscillating_rules 10 true "A" = Ok lf)
  /\ Examples.toy_lint_string Examples.oscillating_rules 0 true "A"
     = Err UnboundLocalError.
Proof.
  split.
  - apply (initial_linting_errors_bound_iff_limit
             Examples.toy_truthy Examples.oscillating_rules
             Examples.toy_apply_fixes Examples.toy_parse_string
             Examples.toy_recursive_crawl Examples.toy_raw_trimmed
             Examples.toy_ignore_if_in
             "A" "<string input>" true (Examples.toy_config 10)
             (Examples.toy_tree "A") [] None eq_refl).
    simpl. lia.
  - apply (initial_linting_errors_bound_iff_limit
             Examples.toy_truthy Examples.oscillating_rules
             Examples.toy_apply_fixes Examples.toy_parse_string
             Examples.toy_recursive_crawl Examples.toy_raw_trimmed
             Examples.toy_ignore_if_in
             "A" "<string input>" true (Examples.toy_config 0)
             (Examples.toy_tree "A") [] None eq_refl).
    simpl. lia.
Defined.

(** * Further properties *)

(** Splits a conjunction into its parts, and nothing else. *)
Ltac conjs := repeat match goal with |- _ /\ _ => split end.

(** ** Strings and slices *)

Lemma append_cons (c : ascii) (s t : string) :
  String c s +:+ t = String c (s +:+ t).
Proof. reflexivity. Qed.

Lemma append_nil_l (s : string) : "" +:+ s = s.
Proof. reflexivity. Qed.

Lemma append_nil_r (s : string) : s +:+ "" = s.
Proof.
  induction s as [|c s IH]; [reflexivity|]. now rewrite append_cons, IH.
Qed.

Lemma append_assoc (s t u : string) : (s +:+ t) +:+ u = s +:+ t +:+ u.
Proof.
  induction s as [|c s IH]; [reflexivity|]. now rewrite !append_cons, IH.
Qed.

Lemma length_append (s t : string) :
  String.length (s +:+ t) = (String.length s + String.length t)%nat.
Proof.
  induction s as [|c s IH]; [reflexivity|].
  rewrite append_cons. simpl. now rewrite IH.
Qed.

Lemma take_nil (n : nat) : Py.take n "" = "".
Proof. now destruct n. Qed.

Lemma drop_nil (n : nat) : Py.drop n "" = "".
Proof. now destruct n. Qed.

Lemma take_then_take (n m : nat) (s : string) :
  Py.take n s +:+ Py.take m (Py.drop n s) = Py.take (n + m) s.
Proof.
  revert s. induction n as [|n IH]; intros s.
  - now rewrite drop_zero.
  - destruct s as [|c s]; [now rewrite drop_nil, !take_nil|].
    cbn [Py.take Py.drop Nat.add]. now rewrite append_cons, IH.
Qed.

Lemma drop_drop (a n : nat) (s : string) :
  Py.drop n (Py.drop a s) = Py.drop (a + n) s.
Proof.
  revert s. induction a as [|a IH]; intros s.
  - now rewrite drop_zero.
  - destruct s as [|c s]; [now rewrite !drop_nil|]. apply IH.
Qed.

Lemma clamp_inside (len i : Z) : 0 <= i <= len -> Py.clamp len i = i.
Proof.
  intros Hi. unfold Py.clamp. destruct (Z.ltb_spec i 0); lia.
Qed.

Lemma getslice_inside (s : string) (a b : Z) :
  0 <= a <= b -> b <= Z.of_nat (String.length s) ->
  Py.getslice s (Py.Slice a b)
  = Py.take (Z.to_nat (b - a)) (Py.drop (Z.to_nat a) s).
Proof.
  intros Ha Hb. unfold Py.getslice. cbn [Py.start Py.stop].
  now rewrite !clamp_inside by lia.
Qed.

Lemma getslice_empty (s : string) (a : Z) : Py.getslice s (Py.Slice a a) = "".
Proof.
  unfold Py.getslice. cbn [Py.start Py.stop]. now rewrite Z.sub_diag.
Qed.

(** Two adjacent slices of a string make the slice over both. *)
Lemma getslice_concat (s : string) (a b c : Z) :
  0 <= a <= b -> b <= c -> c <= Z.of_nat (String.length s) ->
  Py.getslice s (Py.Slice a b) +:+ Py.getslice s (Py.Slice b c)
  = Py.getslice s (Py.Slice a c).
Proof.
  intros Ha Hb Hc. rewrite !getslice_inside by lia.
  replace (Z.to_nat b) with (Z.to_nat a + Z.to_nat (b - a))%nat by lia.
  rewrite <- drop_drop, take_then_take. f_equal. lia.
Qed.

(** ** Rendering the slice buffer *)

Lemma render_from (source : string) (patches : list SourcePatch)
    (buff : list Py.slice) (acc : string) :
  fold_left (fun str_buff sl => str_buff +:+ render_slice source patches sl)
            buff acc
  = acc +:+ render source patches buff.
Proof.
  unfold render. revert acc. induction buff as [|sl buff IH]; intros acc.
  - cbn [fold_left]. now rewrite append_nil_r.
  - cbn [fold_left]. rewrite IH, (IH ("" +:+ _)), append_nil_l.
    apply append_assoc.
Qed.

Lemma render_cons (source : string) (patches : list SourcePatch)
    (sl : Py.slice) (buff : list Py.slice) :
  render source patches (sl :: buff)
  = render_slice source patches sl +:+ render source patches buff.
Proof.
  unfold render at 1. cbn [fold_left]. now rewrite render_from, append_nil_l.
Qed.

Lemma render_app (source : string) (patches : list SourcePatch)
    (buff1 buff2 : list Py.slice) :
  render source patches (buff1 ++ buff2)
  = render source patches buff1 +:+ render source patches buff2.
Proof.
  induction buff1 as [|sl buff1 IH]; [reflexivity|].
  cbn [app]. now rewrite !render_cons, IH, append_assoc.
Qed.

(** A slice that is the range of no patch is rendered from the source. *)
Lemma render_slice_raw (source : string) (patches : list SourcePatch)
    (sl : Py.slice) :
  (forall patch, patch ∈ patches -> fst patch <> sl) ->
  render_slice source patches sl = Py.getslice source sl.
Proof.
  intros Hraw. unfold render_slice.
  induction patches as [|patch patches IH]; [reflexivity|].
  cbn [find]. rewrite bool_decide_eq_false_2 by (apply Hraw; now left).
  apply IH. intros q Hq. apply Hraw. now right.
Qed.

(** The range of a patch is rendered as the text of that patch when no
    other patch has the same range. *)
Lemma render_slice_patch (source : string) (patches : list SourcePatch)
    (patch : SourcePatch) :
  NoDup (map fst patches) -> patch ∈ patches ->
  render_slice source patches (fst patch) = snd patch.
Proof.
  unfold render_slice. induction patches as [|q patches IH]; intros Hnd Hin.
  - inversion Hin.
  - cbn [map] in Hnd. apply NoDup_cons in Hnd as [Hq Hnd]. cbn [find].
    case_bool_decide as Heq.
    + apply elem_of_cons in Hin as [->|Hin]; [reflexivity|].
      exfalso. apply Hq. rewrite Heq. now apply list_elem_of_fmap_2.
    + apply elem_of_cons in Hin as [->|Hin]; [contradiction|]. now apply IH.
Qed.

(** Slices that follow one another and are ranges of no patch render as
    the source text they span. *)
Lemma render_raw_contiguous (source : string) (patches : list SourcePatch)
    (a b : Z) (buff : list Py.slice) :
  contiguous a buff b -> 0 <= a -> b <= Z.of_nat (String.length source) ->
  (forall sl patch, sl ∈ buff -> patch ∈ patches -> fst patch <> sl) ->
  render source patches buff = Py.getslice source (Py.Slice a b).
Proof.
  induction 1 as [a|a sl buff b Hs Hle Hc IH]; intros Ha Hb Hraw.
  - now rewrite getslice_empty.
  - pose proof (contiguous_le _ _ _ Hc) as Hsb.
    rewrite render_cons, render_slice_raw, IH; try lia.
    + destruct sl as [s0 s1]. cbn [Py.start Py.stop] in *. subst s0.
      apply getslice_concat; lia.
    + intros sl' q Hsl'. apply Hraw. now right.
    + intros q Hq. apply Hraw; [now left|exact Hq].
Qed.

(** ** The slicing loop on patches that keep apart from the untouchables *)

Lemma contiguous_app (a b c : Z) (buff1 buff2 : list Py.slice) :
  contiguous a buff1 b -> contiguous b buff2 c -> contiguous a (buff1 ++ buff2) c.
Proof.
  induction 1 as [a|a sl buff1 b Hs Hle Hc IH]; intros H2; [exact H2|].
  cbn [app]. apply contiguous_cons; auto.
Qed.

Lemma well_separated_lower (idx : Z) (patches : list SourcePatch) :
  well_separated idx patches ->
  forall patch, patch ∈ patches -> idx <= Py.start (fst patch).
Proof.
  revert idx. induction patches as [|q patches IH]; intros idx Hws patch Hin.
  - inversion Hin.
  - destruct Hws as (Hlo & Hq & Hws).
    apply elem_of_cons in Hin as [->|Hin]; [exact Hlo|].
    specialize (IH _ Hws _ Hin). lia.
Qed.

Section SlicingApart.

Variable source : string.
Variable us : list Py.slice.
Variable patches : list SourcePatch.

Let len : Z := Z.of_nat (String.length source).

Hypothesis patches_apart :
forall patch u, patch ∈ patches -> u ∈ us -> apart patch u.

(** A slice the inner loop appends before a patch that starts at
  [patch_start], the loop having started at [idx]: an untouchable range,
  or a gap that ends before the patch. *)
Let piece (idx patch_start : Z) (sl : Py.slice) : Prop :=
sl ∈ us
\/ (idx <= Py.start sl /\ Py.start sl < Py.stop sl /\ Py.stop sl < patch_start).

Lemma pop_untouchables_pieces (remaining : list Py.slice)
  (patch_start idx : Z) (buff : list Py.slice) :
untouchables_ordered idx len remaining ->
(forall u, u ∈ remaining -> u ∈ us) ->
(forall u, u ∈ remaining -> Py.start u < patch_start -> Py.stop u <= patch_start) ->
exists remaining' idx' extra,
  pop_untouchables remaining patch_start idx buff
  = (remaining', idx', buff ++ extra)
  /\ contiguous idx extra idx'
  /\ (idx' = idx \/ idx' <= patch_start)
  /\ untouchables_ordered idx' len remaining'
  /\ (forall u, u ∈ remaining' -> u ∈ us)
  /\ match remaining' with
     | u :: _ => patch_start <= Py.start u
     | [] => True
     end
  /\ forall sl, sl ∈ extra -> piece idx patch_start sl.
Proof.
revert idx buff.
induction remaining as [|u rest IH]; intros idx buff Hord Hsub Hbefore.
- exists [], idx, []. rewrite app_nil_r. cbn [pop_untouchables].
  split; [reflexivity|]. split; [constructor|]. split; [now left|].
  split; [exact Hord|]. split; [exact Hsub|]. split; [exact I|].
  intros sl Hsl. inversion Hsl.
- cbn [pop_untouchables]. destruct Hord as (Hlo & Hu & Hlen & Hrest).
  destruct (Z.ltb_spec (Py.start u) patch_start) as [Hlt|Hge].
  + assert (Hstop : Py.stop u <= patch_start)
      by (apply Hbefore; [now left|exact Hlt]).
    destruct (IH (Py.stop u)
                ((if Py.start u >? idx
                  then buff ++ [Py.Slice idx (Py.start u)] else buff) ++ [u])
                Hrest) as (rem' & idx' & extra & Heq & Hc & Hidx & Hord' & Hsub' & Hhead & Hpieces).
    { intros u' Hu'. apply Hsub. now right. }
    { intros u' Hu'. apply Hbefore. now right. }
    rewrite Heq.
    pose proof (contiguous_le _ _ _ Hc) as Hle.
    destruct (Z.gtb_spec (Py.start u) idx) as [Hgap|Hnogap].
    * exists rem', idx', ([Py.Slice idx (Py.start u)] ++ [u] ++ extra).
      rewrite <- !app_assoc. split; [reflexivity|]. split; [|split; [|split; [|split; [|split]]]]; auto.
      -- apply contiguous_cons; [reflexivity|simpl; lia|].
         apply contiguous_cons; [reflexivity|exact Hu|exact Hc].
      -- right. lia.
      -- intros sl Hsl. apply elem_of_cons in Hsl as [->|Hsl].
         { right. simpl. lia. }
         apply elem_of_cons in Hsl as [->|Hsl].
         { left. apply Hsub. now left. }
         destruct (Hpieces sl Hsl) as [?|?]; [now left|right; lia].
    * exists rem', idx', ([u] ++ extra).
      rewrite <- !app_assoc. split; [reflexivity|]. split; [|split; [|split; [|split; [|split]]]]; auto.
      -- apply contiguous_cons; [lia|lia|exact Hc].
      -- right. lia.
      -- intros sl Hsl. apply elem_of_cons in Hsl as [->|Hsl].
         { left. apply Hsub. now left. }
         destruct (Hpieces sl Hsl) as [?|?]; [now left|right; lia].
  + exists (u :: rest), idx, []. rewrite app_nil_r.
    split; [reflexivity|]. split; [constructor|]. split; [now left|].
    split; [cbn [untouchables_ordered]; auto|]. split; [exact Hsub|].
    split; [exact Hge|]. intros sl Hsl. inversion Hsl.
Qed.

(** One turn of the loop over the patches renders the source up to the
  patch and then the text of the patch. *)
Lemma slice_step_renders (remaining : list Py.slice) (idx : Z)
  (buff : list Py.slice) (patch : SourcePatch) :
NoDup (map fst patches) -> patch ∈ patches ->
0 <= idx -> idx <= Py.start (fst patch) ->
Py.start (fst patch) <= Py.stop (fst patch) -> Py.stop (fst patch) <= len ->
untouchables_ordered idx len remaining ->
(forall u, u ∈ remaining -> u ∈ us) ->
(forall q, q ∈ patches ->
   Py.stop (fst q) <= idx \/ Py.start (fst patch) <= Py.start (fst q)) ->
exists remaining' buff',
  slice_step (remaining, idx, buff) patch
  = (remaining', Py.stop (fst patch), buff')
  /\ untouchables_ordered (Py.stop (fst patch)) len remaining'
  /\ (forall u, u ∈ remaining' -> u ∈ us)
  /\ render source patches buff'
     = render source patches buff
       +:+ Py.getslice source (Py.Slice idx (Py.start (fst patch)))
       +:+ snd patch.
Proof.
intros Hnd Hin Hidx Hstart Hrange Hstop Hord Hsub Hsplit.
unfold slice_step.
destruct (pop_untouchables_pieces remaining (Py.start (fst patch)) idx buff
            Hord Hsub) as (rem' & idx' & extra & Heq & Hc & Hidx' & Hord' & Hsub' & Hhead & Hpieces).
{ intros u Hu Hlt. destruct (patches_apart patch u Hin (Hsub u Hu)) as [_ [[_ H]|H]];
    [exact H|lia]. }
rewrite Heq. pose proof (contiguous_le _ _ _ Hc) as Hle.
assert (Hidx'' : idx' <= Py.start (fst patch)) by lia.
assert (Hraw : forall sl q, sl ∈ extra -> q ∈ patches -> fst q <> sl).
{ intros sl q Hsl Hq Heq'. destruct (Hpieces sl Hsl) as [Hu|(H1 & H2 & H3)].
  - now destruct (patches_apart q sl Hq Hu) as [Hne _].
  - subst sl. destruct (Hsplit q Hq); lia. }
assert (Hord'' : untouchables_ordered (Py.stop (fst patch)) len rem').
{ apply (untouchables_rebase idx'); [exact Hord'|].
  destruct rem' as [|u rest]; [exact I|].
  destruct (patches_apart patch u Hin (Hsub' u ltac:(now left))) as [_ [[H _]|H]];
    [lia|exact H]. }
destruct (Z.ltb_spec (Py.start (fst patch)) idx') as [Hskip|_]; [lia|].
destruct (Z.gtb_spec (Py.start (fst patch)) idx') as [Hgap|Hnogap].
- eexists _, _. split; [reflexivity|]. split; [exact Hord''|]. split; [exact Hsub'|].
  rewrite <- !app_assoc, !render_app. f_equal.
  rewrite <- append_assoc. f_equal.
  + rewrite <- render_app.
    apply (render_raw_contiguous _ _ idx); [|lia|lia|].
    * eapply contiguous_app; [exact Hc|].
      apply contiguous_cons; [reflexivity|simpl; lia|constructor].
    * intros sl q Hsl Hq. apply elem_of_app in Hsl as [Hsl|Hsl]; [now apply Hraw|].
      apply list_elem_of_singleton in Hsl. subst sl. intros Heq'.
      destruct (Hsplit q Hq) as [H|H]; rewrite Heq' in H; simpl in H; lia.
  + rewrite render_cons. cbn [render fold_left]. rewrite append_nil_r.
    now apply render_slice_patch.
- assert (idx' = Py.start (fst patch)) by lia. subst idx'.
  eexists _, _. split; [reflexivity|]. split; [exact Hord''|]. split; [exact Hsub'|].
  rewrite <- !app_assoc, !render_app. f_equal. f_equal.
  + apply (render_raw_contiguous _ _ idx); [exact Hc|lia|lia|exact Hraw].
  + rewrite render_cons. cbn [render fold_left]. rewrite append_nil_r.
    now apply render_slice_patch.
Qed.

Lemma slicing_loop_renders (todo : list SourcePatch) :
NoDup (map fst patches) ->
forall remaining idx buff,
  0 <= idx <= len ->
  untouchables_ordered idx len remaining ->
  (forall u, u ∈ remaining -> u ∈ us) ->
  well_separated idx todo ->
  Forall (fun q => Py.stop (fst q) <= len) todo ->
  (forall q, q ∈ todo -> q ∈ patches) ->
  (forall q, q ∈ patches -> q ∈ todo \/ Py.stop (fst q) <= idx) ->
  exists remaining' idx' buff',
    fold_left slice_step todo (remaining, idx, buff) = (remaining', idx', buff')
    /\ 0 <= idx' <= len
    /\ (forall q, q ∈ patches -> Py.stop (fst q) <= idx')
    /\ render source patches buff' +:+ Py.getslice source (Py.Slice idx' len)
       = render source patches buff +:+ apply_patches source idx todo.
Proof.
intros Hnd. induction todo as [|patch todo IH];
  intros remaining idx buff Hidx Hord Hsub Hws Hbound Hin Hdone.
- exists remaining, idx, buff. cbn [fold_left apply_patches].
  conjs; auto; try lia.
  intros q Hq. destruct (Hdone q Hq) as [H|H]; [inversion H|exact H].
- destruct Hws as (Hlo & Hrange & Hws). apply Forall_cons in Hbound as [Hb Hbound].
  destruct (slice_step_renders remaining idx buff patch Hnd) as (rem' & buff' & Hstep & Hord' & Hsub' & Hrender);
    try lia; auto.
  + apply Hin. now left.
  + intros q Hq. destruct (Hdone q Hq) as [Hq'|H]; [|now left].
    right. apply elem_of_cons in Hq' as [->|Hq']; [lia|].
    pose proof (well_separated_lower _ _ Hws q Hq'). lia.
  + cbn [fold_left]. rewrite Hstep.
    destruct (IH rem' (Py.stop (fst patch)) buff') as (rem'' & idx'' & buff'' & Hfold & Hidx'' & Hdone'' & Hrender'');
      auto; try lia.
    * intros q Hq. apply Hin. now right.
    * intros q Hq. destruct (Hdone q Hq) as [Hq'|H]; [|right; lia].
      apply elem_of_cons in Hq' as [->|Hq']; [right; lia|now left].
    * exists rem'', idx'', buff''. split; [exact Hfold|]. split; [exact Hidx''|].
      split; [exact Hdone''|]. rewrite Hrender'', Hrender.
      cbn [apply_patches]. now rewrite !append_assoc.
Qed.

End SlicingApart.

(** X1.  [fix_string] after deduplication, on patches that come in
    source order without overlap, with distinct ranges inside the source, and
    keep apart from the untouchable ranges: the string returned is the
    source with each patch range replaced by the text of its patch;
    everything else, the untouchable ranges included, is copied. *)
Theorem fix_source_applies_patches (source : string) (us : list Py.slice)
    (patches : list SourcePatch) :
  let len := Z.of_nat (String.length source) in
  well_separated 0 patches ->
  Forall (fun patch => Py.stop (fst patch) <= len) patches ->
  NoDup (map fst patches) ->
  untouchables_ordered 0 len us ->
  (forall patch u, patch ∈ patches -> u ∈ us -> apart patch u) ->
  fst (fix_source source us patches) = apply_patches source 0 patches.
Proof.
  cbv zeta. intros Hws Hbound Hnd Hord Hapart.
  unfold fix_source, build_slice_buff. cbn [fst].
  destruct (slicing_loop_renders source us patches Hapart patches Hnd us 0 [])
    as (rem' & idx' & buff' & Hfold & Hidx' & Hdone & Hrender); auto; try lia.
  rewrite Hfold. cbn [render fold_left] in Hrender. rewrite append_nil_l in Hrender.
  rewrite <- Hrender.
  destruct (Z.ltb_spec idx' (Z.of_nat (String.length source))) as [Htail|Hend].
  - rewrite render_app. f_equal. rewrite render_cons.
    cbn [render fold_left]. rewrite append_nil_r. apply render_slice_raw.
    intros q Hq Heq. specialize (Hdone q Hq). rewrite Heq in Hdone.
    simpl in Hdone. lia.
  - replace idx' with (Z.of_nat (String.length source)) by lia.
    now rewrite getslice_empty, append_nil_r.
Qed.

Ltac list_cases H :=
  repeat (apply elem_of_cons in H as [->|H]); try (now inversion H).

(** The theorem on the file with the [if] block: a patch before the
    opening tag, an insertion right behind it and a patch before the
    closing tag leave both tags in place. *)
Lemma fix_source_applies_patches_witness :
  fst (fix_source Examples.tag_source [Py.Slice 2 10; Py.Slice 13 22]
         [(Py.Slice 0 1, "7"); (Py.Slice 10 10, "y"); (Py.Slice 12 13, "3")])
  = "7 {%if c%}y +3{%endif%}".
Proof.
  rewrite (fix_source_applies_patches Examples.tag_source
             [Py.Slice 2 10; Py.Slice 13 22]
             [(Py.Slice 0 1, "7"); (Py.Slice 10 10, "y"); (Py.Slice 12 13, "3")]).
  - reflexivity.
  - simpl. lia.
  - repeat constructor; simpl; lia.
  - apply (bool_decide_unpack _). reflexivity.
  - simpl. lia.
  - intros patch u Hp Hu. list_cases Hp; list_cases Hu;
      (split; [discriminate|simpl; lia]).
Defined.

(** ** The patches of [fix_string] *)

Section DedupeFacts.

Context {A : Type} `{EqDecision A}.

Lemma dedupe_from_spec (seen l : list A) :
NoDup (Py.dedupe_from seen l)
/\ forall x, x ∈ Py.dedupe_from seen l <-> x ∈ l /\ x ∉ seen.
Proof.
revert seen. induction l as [|y l IH]; intros seen; cbn [Py.dedupe_from].
- split; [constructor|]. intros x. split; [inversion 1|intros [H _]; inversion H].
- destruct (IH (seen ++ [y])) as [Hnd Hin].
  assert (Hrest : forall x, (x ∈ Py.dedupe_from (seen ++ [y]) l)
                            <-> (x ∈ l /\ (x ∉ seen) /\ x <> y)).
  { intros x. rewrite Hin, not_elem_of_app, list_elem_of_singleton. tauto. }
  case_bool_decide as Hseen.
  + split; [exact Hnd|]. intros x. rewrite Hrest, elem_of_cons. split.
    * intros (? & ? & ?). auto.
    * intros [[->|?] Hx]; [contradiction|].
      repeat split; auto. intros ->. contradiction.
  + split.
    * constructor; [|exact Hnd]. rewrite Hrest. tauto.
    * intros x. rewrite !elem_of_cons, Hrest. split.
      -- intros [->|(? & ? & ?)]; auto.
      -- intros [[->|?] Hx]; [now left|].
         destruct (decide (x = y)) as [->|Hne]; [now left|right; auto].
Qed.

(** The comprehension that removes repeated patches keeps one copy of
  each element, the first, and drops nothing else. *)
Lemma dedupe_spec (l : list A) :
NoDup (Py.dedupe l) /\ forall x, x ∈ Py.dedupe l <-> x ∈ l.
Proof.
unfold Py.dedupe. destruct (dedupe_from_spec [] l) as [Hnd Hin].
split; [exact Hnd|]. intros x. rewrite Hin. split; [tauto|].
intros Hx. split; [exact Hx|]. inversion 1.
Qed.

Lemma dedupe_from_sublist (seen l : list A) : sublist (Py.dedupe_from seen l) l.
Proof.
revert seen. induction l as [|y l IH]; intros seen; cbn [Py.dedupe_from].
- constructor.
- case_bool_decide; [apply sublist_cons|apply sublist_skip]; apply IH.
Qed.

End DedupeFacts.

(** ** When [fix_string] raises *)

Section SegmentInduction.

Variable P : Segment -> Prop.
Hypothesis step :
forall r m n c b children,
  Forall P children -> P (mkSegment r m n c b children).

Lemma Segment_forall_ind : forall seg : Segment, P seg.
Proof.
exact
  (fix segment_ind (seg : Segment) : P seg :=
     match seg with
     | mkSegment r m n c b children =>
         step r m n c b children
           ((fix children_ind (l : list Segment) : Forall P l :=
               match l with
               | [] => @List.Forall_nil _ P
               | x :: l' =>
                   @List.Forall_cons _ P x l' (segment_ind x) (children_ind l')
               end) children)
     end).
Qed.

End SegmentInduction.

Lemma iter_patches_plain (templated : string) (seg : Segment) :
  ~ enriched seg -> iter_patches templated seg = Err AttributeError.
Proof.
  destruct seg as [r m n c b children]. unfold enriched. cbn.
  destruct m; [reflexivity|tauto].
Qed.

Lemma iter_patches_enriched (templated : string) (seg : Segment) :
  enriched seg -> exists patches, iter_patches templated seg = Ok patches.
Proof.
  induction seg as [r m n c b children IH] using Segment_forall_ind.
  unfold enriched. cbn [pos_marker].
  destruct m as [|line pos ts ss lit]; [tauto|intros _].
  cbn [iter_patches].
  destruct (String.eqb r (Py.getslice templated ts)); [eauto|].
  destruct lit; [eauto|].
  match goal with
  | |- exists p, ?f children ?a ?b ?c = _ =>
      enough (Hloop : forall idx buff pp, exists p, f children idx buff pp = Ok p)
        by apply Hloop
  end.
  induction IH as [|child rest Hchild _ IHrest]; intros idx buff pp.
  - destruct (_ || _); eauto.
  - destruct (pos_marker child) as [|l p cts css clit] eqn:Hm.
    + apply IHrest.
    + destruct Hchild as [inner Hinner]; [unfold enriched; now rewrite Hm|].
      rewrite Hinner. cbn [res_bind].
      match goal with
      | |- context [res_bind (?f rest ?i ?b ?q)] =>
          destruct (IHrest i b q) as [ps Hps]
      end.
      rewrite Hps. cbn [res_bind]. eauto.
Qed.

(** X5.  The patch generator of [fix_string] raises exactly when the
    segment it is called on carries a plain position marker, and what it
    raises is the [AttributeError].  Segments with plain markers further
    down the tree, the insertions of a fix, never make it raise. *)
Theorem iter_patches_raises_iff_plain (templated : string) (seg : Segment) :
  (iter_patches templated seg = Err AttributeError <-> ~ enriched seg)
  /\ ((exists patches, iter_patches templated seg = Ok patches) <-> enriched seg).
Proof.
  assert (Hdec : enriched seg \/ ~ enriched seg).
  { unfold enriched. destruct (pos_marker seg); tauto. }
  split; split.
  - intros Herr Hen. apply (iter_patches_enriched templated) in Hen as [ps Hps].
    congruence.
  - apply iter_patches_plain.
  - intros [ps Hps]. destruct Hdec as [Hen|Hpl]; [exact Hen|].
    rewrite (iter_patches_plain templated seg Hpl) in Hps. discriminate.
  - apply iter_patches_enriched.
Qed.

Lemma res_mapM_ok {A B : Type} (f : A -> res B) (l : list A) (ys : list B) :
  res_mapM f l = Ok ys -> Forall2 (fun x y => f x = Ok y) l ys.
Proof.
  revert ys. induction l as [|x l IH]; intros ys; cbn [res_mapM].
  - intros [= <-]. constructor.
  - destruct (f x) as [y|e] eqn:Hx; cbn [res_bind]; [|discriminate].
    destruct (res_mapM f l) as [ys'|e]; cbn [res_bind]; [|discriminate].
    intros [= <-]. constructor; auto.
Qed.

Lemma res_mapM_err {A B : Type} (f : A -> res B) (l : list A) (e : exn) :
  res_mapM f l = Err e -> exists x, x ∈ l /\ f x = Err e.
Proof.
  induction l as [|x l IH]; cbn [res_mapM]; [discriminate|].
  destruct (f x) as [y|e'] eqn:Hx; cbn [res_bind].
  - destruct (res_mapM f l) as [ys'|e']; cbn [res_bind]; [discriminate|].
    intros [= <-]. destruct IH as (x' & Hin & Hx'); [reflexivity|].
    exists x'. split; [now apply elem_of_cons; right|exact Hx'].
  - intros [= <-]. exists x. split; [now apply elem_of_cons; left|exact Hx].
Qed.

Lemma sorted_elem_of {A : Type} (leb : A -> A -> bool) (l : list A) (x : A) :
  x ∈ Py.sorted leb l <-> x ∈ l.
Proof. now rewrite (sorted_perm leb l). Qed.

Section FixStringRaises.

Variable templated_slice_to_source_slice :
TemplatedFile -> Py.slice -> res Py.slice.
Variable untouchable_slices : TemplatedFile -> list Py.slice.

Local Abbreviation source_patches :=
(source_patches templated_slice_to_source_slice).
Local Abbreviation fix_string :=
(fix_string templated_slice_to_source_slice untouchable_slices).

(** X4.  The source-space patches [fix_string] works on hold no patch
  twice, and they are exactly the templated patches of the tree with
  their ranges mapped to the source: mapping and deduplication drop a
  patch only when an equal one stays, and add none. *)
Theorem source_patches_deduplicated (tf : TemplatedFile) (seg : Segment)
  (patches : list SourcePatch) :
source_patches tf seg = Ok patches ->
NoDup patches
/\ exists tpatches,
     iter_patches (templated_str tf) seg = Ok tpatches
     /\ forall patch,
          patch ∈ patches
          <-> exists tpatch,
                tpatch ∈ tpatches
                /\ templated_slice_to_source_slice tf (fst (fst tpatch))
                   = Ok (fst patch)
                /\ snd (fst tpatch) = snd patch.
Proof.
unfold_def source_patches.
destruct (iter_patches (templated_str tf) seg) as [tpatches|e];
  cbn [res_bind]; [|discriminate].
match goal with
| |- context [res_mapM ?f ?l] =>
    destruct (res_mapM f l) as [lifted|e] eqn:Hmap
end; cbn [res_bind]; [|discriminate].
intros [= <-]. destruct (dedupe_spec lifted) as [Hnd Hin].
split; [exact Hnd|]. exists tpatches. split; [reflexivity|].
intros patch. rewrite Hin. apply res_mapM_ok in Hmap. split.
- intros Hp. apply list_elem_of_lookup in Hp as [i Hi].
  destruct (Forall2_lookup_r _ _ _ _ _ Hmap Hi) as (tp & Htp & Hf).
  exists tp. apply list_elem_of_lookup_2 in Htp.
  apply sorted_elem_of in Htp. split; [exact Htp|].
  destruct (templated_slice_to_source_slice tf (fst (fst tp))) as [s|e];
    cbn [res_bind] in Hf; [|discriminate].
  injection Hf as <-. now split.
- intros (tp & Htp & Hs & Ht).
  apply (sorted_elem_of
           (fun p q : TemplatedPatch =>
              (Py.start (fst (fst p)) <=? Py.start (fst (fst q)))%Z)) in Htp.
  apply list_elem_of_lookup in Htp as [i Hi].
  destruct (Forall2_lookup_l _ _ _ _ _ Hmap Hi) as (p & Hp & Hf).
  rewrite Hs in Hf. cbn [res_bind] in Hf. injection Hf as <-.
  apply list_elem_of_lookup_2 in Hp. rewrite Ht in Hp.
  now destruct patch.
Qed.

(** X6.  [fix_string] raises only in two ways: an [AttributeError] when
  the file has no templated file or no tree, or the root of the tree
  carries a plain marker; or whatever the slice map raises on the
  templated range of one of the patches.  The slicing and rendering of
  the source never raise. *)
Theorem fix_string_raises_only (lf : LintedFile) (e : exn) :
fix_string lf = Err e ->
(e = AttributeError
 /\ (templated_file lf = None \/ tree lf = None
     \/ exists seg, tree lf = Some seg /\ ~ enriched seg))
\/ exists tf seg tpatches tpatch,
     templated_file lf = Some tf /\ tree lf = Some seg
     /\ iter_patches (templated_str tf) seg = Ok tpatches
     /\ tpatch ∈ tpatches
     /\ templated_slice_to_source_slice tf (fst (fst tpatch)) = Err e.
Proof.
unfold_def fix_string.
destruct (templated_file lf) as [tf|] eqn:Htf;
  [|intros [= <-]; left; split; [reflexivity|now left]].
destruct (tree lf) as [seg|] eqn:Htree;
  [|intros [= <-]; left; split; [reflexivity|right; now left]].
unfold_def source_patches.
destruct (iter_patches (templated_str tf) seg) as [tpatches|e'] eqn:Hit;
  cbn [res_bind].
- match goal with
  | |- context [res_mapM ?f ?l] =>
      destruct (res_mapM f l) as [lifted|e'] eqn:Hmap
  end; cbn [res_bind]; [discriminate|].
  intros [= <-]. right.
  apply res_mapM_err in Hmap as (tp & Htp & Hf).
  apply sorted_elem_of in Htp.
  exists tf, seg, tpatches, tp.
  destruct (templated_slice_to_source_slice tf (fst (fst tp))) as [s|e''];
    cbn [res_bind] in Hf; [discriminate|].
  injection Hf as ->. auto.
- intros [= <-]. left.
  assert (Hdec : enriched seg \/ ~ enriched seg).
  { unfold enriched. destruct (pos_marker seg); tauto. }
  destruct Hdec as [Hen|Hpl'].
  + apply (iter_patches_enriched (templated_str tf)) in Hen as [ps Hps].
    congruence.
  + rewrite (iter_patches_plain _ _ Hpl') in Hit. injection Hit as <-.
    split; [reflexivity|]. right; right. eauto.
Qed.

(** X3.  A tree whose root still reads as the templated text it was
  parsed from gives the source back: [fix_string] returns the original
  source string and [False], whatever the slice map and the
  untouchable ranges are. *)
Theorem fix_string_unfixed_tree (lf : LintedFile) (tf : TemplatedFile)
  (seg : Segment) (line pos : Z) (ts ss : Py.slice) (lit : bool) :
templated_file lf = Some tf -> tree lf = Some seg ->
pos_marker seg = EnrichedFilePositionMarker line pos ts ss lit ->
raw seg = Py.getslice (templated_str tf) ts ->
fix_string lf = Ok (source_str tf, false).
Proof.
intros Htf Htree Hm Hraw. unfold_def fix_string. rewrite Htf, Htree.
unfold_def source_patches.
destruct seg as [r m n c b children]. cbn [pos_marker raw] in Hm, Hraw.
subst m. cbn [iter_patches]. rewrite Hraw, String.eqb_refl.
cbn. now rewrite fix_source_no_patches.
Qed.

End FixStringRaises.

(** The two patches of the file with the [if] block after two fixes. *)
Lemma source_patches_deduplicated_witness :
  NoDup [(Py.Slice 1 11, " "); (Py.Slice 12 13, "3")].
Proof.
  exact (proj1 (source_patches_deduplicated
                  SliceMap.templated_slice_to_source_slice
                  Examples.tag_file Examples.tag_tree_two_fixes _ eq_refl)).
Defined.

(** A file that failed to parse has neither tree nor templated file. *)
Lemma fix_string_raises_only_witness :
  (AttributeError = AttributeError
   /\ (templated_file Examples.unsorted_linted = None
       \/ tree Examples.unsorted_linted = None
       \/ exists seg, tree Examples.unsorted_linted = Some seg /\ ~ enriched seg))
  \/ exists tf seg tpatches tpatch,
       templated_file Examples.unsorted_linted = Some tf
       /\ tree Examples.unsorted_linted = Some seg
       /\ iter_patches (templated_str tf) seg = Ok tpatches
       /\ tpatch ∈ tpatches
       /\ SliceMap.templated_slice_to_source_slice tf (fst (fst tpatch))
          = Err AttributeError.
Proof.
  apply (fix_string_raises_only SliceMap.templated_slice_to_source_slice
           SliceMap.untouchable_slices Examples.unsorted_linted AttributeError).
  reflexivity.
Defined.

(** The untouched tree of the file with the [if] block. *)
Lemma fix_string_unfixed_tree_witness :
  fix_string SliceMap.templated_slice_to_source_slice
    SliceMap.untouchable_slices Examples.clean_linted
  = Ok (Examples.tag_source, false).
Proof.
  eapply (fix_string_unfixed_tree SliceMap.templated_slice_to_source_slice
            SliceMap.untouchable_slices Examples.clean_linted Examples.tag_file);
    reflexivity.
Defined.

(** ** The filters of [get_violations] *)

Lemma filter_true {A : Type} (l : list A) : List.filter (fun _ => true) l = l.
Proof. induction l as [|x l IH]; simpl; [reflexivity|now rewrite IH]. Qed.

Lemma get_violations_unignored (lf : LintedFile) (rules : list string)
    (types : list ErrClass) (fixable_arg : option bool) :
  get_violations lf rules types false fixable_arg
  = List.filter (keep_unignored rules types fixable_arg) (violations lf).
Proof.
  unfold get_violations. cbv zeta.
  transitivity
    (List.filter
       (fun v => match fixable_arg with
                 | Some b => Bool.eqb (fixable v) b | None => true end)
       (List.filter
          (fun v => match rules with
                    | [] => true | _ => bool_decide (rule_code v ∈ rules) end)
          (List.filter
             (fun v => match types with
                       | [] => true | _ => existsb (isinstance v) types end)
             (violations lf)))).
  - destruct types, rules, fixable_arg; now rewrite ?filter_true.
  - rewrite !filter_filter_and. reflexivity.
Qed.

(** X7.  [get_violations] is one filter of the violations of the file:
    it returns, in their order and as often as they occur, the
    violations that pass every filter given, and nothing else. *)
Theorem get_violations_selects (lf : LintedFile) (kwargs : Kwargs) :
  exists keep : Violation -> bool,
    get_violations_kw lf kwargs = List.filter keep (violations lf)
    /\ forall v, keep v = true <-> passes_filters lf kwargs v.
Proof.
  destruct kwargs as [rules types filter_ignore fixable_arg].
  unfold get_violations_kw, passes_filters. cbn [kw_rules kw_types kw_filter_ignore kw_fixable].
  assert (Hun : forall v,
             keep_unignored rules types fixable_arg v = true
             <-> (types = [] \/ exists cls, cls ∈ types /\ isinstance v cls = true)
                 /\ (rules = [] \/ rule_code v ∈ rules)
                 /\ (forall b, fixable_arg = Some b -> fixable v = b)).
  { intros v. unfold keep_unignored. rewrite !andb_true_iff.
    assert (Ht : match types with [] => true | _ => existsb (isinstance v) types end
                 = true
                 <-> types = [] \/ exists cls, cls ∈ types /\ isinstance v cls = true).
    { destruct types as [|t types]; [intuition auto|].
      rewrite existsb_exists. split.
      - intros (cls & Hin & Hc). right. exists cls.
        split; [now apply list_elem_of_In|exact Hc].
      - intros [?|(cls & Hin & Hc)]; [discriminate|].
        exists cls. split; [now apply list_elem_of_In|exact Hc]. }
    assert (Hr : match rules with [] => true | _ => bool_decide (rule_code v ∈ rules) end
                 = true
                 <-> rules = [] \/ rule_code v ∈ rules).
    { destruct rules as [|r rules]; [intuition auto|].
      rewrite bool_decide_eq_true. split; [auto|].
      intros [?|?]; [discriminate|assumption]. }
    assert (Hf : match fixable_arg with
                 | Some b => Bool.eqb (fixable v) b | None => true end = true
                 <-> forall b, fixable_arg = Some b -> fixable v = b).
    { destruct fixable_arg as [b|].
      - rewrite Bool.eqb_true_iff. split; [now intros -> b' [= <-]|auto].
      - split; [discriminate|reflexivity]. }
    rewrite Ht, Hr, Hf. tauto. }
  destruct filter_ignore.
  - exists (fun v =>
              keep_unignored rules types fixable_arg v
              && (negb (ignore v)
                  && forallb (fun entry => negb (mask_matches entry v))
                       (ignore_mask lf))).
    split.
    + rewrite get_violations_ignore_as_filter, get_violations_unignored.
      apply filter_filter_and.
    + intros v. rewrite andb_true_iff, Hun, andb_true_iff, negb_true_iff,
        forallb_forall.
      assert (Hm : (forall entry, In entry (ignore_mask lf) ->
                      negb (mask_matches entry v) = true)
                   <-> forall entry, entry ∈ ignore_mask lf -> ~ entry_applies entry v).
      { split; intros H entry He.
        - apply list_elem_of_In in He. specialize (H entry He).
          rewrite <- mask_matches_spec. now destruct (mask_matches entry v).
        - apply list_elem_of_In in He. specialize (H entry He).
          rewrite <- mask_matches_spec in H. now destruct (mask_matches entry v). }
      rewrite Hm. split.
      * intros ((Ht & Hr & Hf) & Hi & Hmk). auto 6.
      * intros (Ht & Hr & Hf & Hig). destruct (Hig eq_refl). auto.
  - exists (keep_unignored rules types fixable_arg).
    split; [apply get_violations_unignored|].
    intros v. rewrite Hun. split.
    + intros (Ht & Hr & Hf). split; [exact Ht|]. split; [exact Hr|].
      split; [exact Hf|discriminate].
    + intros (Ht & Hr & Hf & _). auto.
Qed.

(** ** The collections [LintedPath] and [LintingResult] *)

Lemma fold_left_app_flat_map {A B : Type} (f : A -> list B) (l : list A)
    (acc : list B) :
  fold_left (fun buff x => buff ++ f x) l acc = acc ++ flat_map f l.
Proof.
  revert acc. induction l as [|x l IH]; intros acc; simpl.
  - now rewrite app_nil_r.
  - now rewrite IH, app_assoc.
Qed.

Lemma fold_left_flat_map {A B : Type} (f : A -> list B) (l : list A) :
  fold_left (fun buff x => buff ++ f x) l [] = flat_map f l.
Proof. apply (fold_left_app_flat_map f l []). Qed.

Lemma py_sum_from (l : list Z) (acc : Z) : fold_left Z.add l acc = acc + py_sum l.
Proof.
  unfold py_sum. revert acc. induction l as [|x l IH]; intros acc;
    cbn [fold_left].
  - lia.
  - rewrite (IH (acc + x)), (IH (0 + x)). lia.
Qed.

Lemma py_sum_cons (x : Z) (l : list Z) : py_sum (x :: l) = x + py_sum l.
Proof. unfold py_sum at 1. cbn [fold_left]. rewrite py_sum_from. lia. Qed.

Lemma py_sum_lengths {A B : Type} (f : A -> list B) (l : list A) :
  py_sum (map (fun x => Z.of_nat (length (f x))) l)
  = Z.of_nat (length (flat_map f l)).
Proof.
  induction l as [|x l IH]; [reflexivity|].
  cbn [map flat_map]. rewrite py_sum_cons, IH, length_app. lia.
Qed.

Lemma path_get_violations_flat (files : list LintedFile) (kwargs : Kwargs) :
  LintedPath.get_violations files kwargs
  = flat_map (fun file => get_violations_kw file kwargs) files.
Proof. unfold LintedPath.get_violations. apply fold_left_flat_map. Qed.

Lemma path_num_violations_length (files : list LintedFile) (kwargs : Kwargs) :
  LintedPath.num_violations files kwargs
  = Z.of_nat (length (LintedPath.get_violations files kwargs)).
Proof.
  rewrite path_get_violations_flat. unfold LintedPath.num_violations.
  apply (py_sum_lengths (fun file => get_violations_kw file kwargs)).
Qed.

Lemma flat_map_concat {A B : Type} (f : A -> list B) (ls : list (list A)) :
  flat_map (fun l => flat_map f l) ls = flat_map f (concat ls).
Proof.
  induction ls as [|l ls IH]; [reflexivity|].
  cbn [flat_map concat]. now rewrite flat_map_app, IH.
Qed.

Lemma result_get_violations_paths (paths : list (list LintedFile))
    (kwargs : Kwargs) :
  LintingResult.get_violations paths kwargs
  = flat_map (fun path => LintedPath.get_violations path kwargs) paths.
Proof. unfold LintingResult.get_violations. apply fold_left_flat_map. Qed.

Lemma result_get_violations_flat (paths : list (list LintedFile))
    (kwargs : Kwargs) :
  LintingResult.get_violations paths kwargs
  = flat_map (fun file => get_violations_kw file kwargs) (concat paths).
Proof.
  rewrite result_get_violations_paths, <- flat_map_concat. apply flat_map_ext.
  intros path. apply path_get_violations_flat.
Qed.

Lemma result_num_violations_length (paths : list (list LintedFile))
    (kwargs : Kwargs) :
  LintingResult.num_violations paths kwargs
  = Z.of_nat (length (LintingResult.get_violations paths kwargs)).
Proof.
  rewrite result_get_violations_paths. unfold LintingResult.num_violations.
  rewrite <- (py_sum_lengths (fun path => LintedPath.get_violations path kwargs)).
  f_equal. apply map_ext. intros path. apply path_num_violations_length.
Qed.

(** X8.  Over a whole result, [get_violations] is the lists of the files
    one after the other, path by path and file by file, under the same
    filters; [num_violations] is the length of that list. *)
Theorem result_violations_flat (paths : list (list LintedFile))
    (kwargs : Kwargs) :
  LintingResult.get_violations paths kwargs
  = flat_map (fun file => get_violations_kw file kwargs) (concat paths)
  /\ LintingResult.num_violations paths kwargs
     = Z.of_nat (length (LintingResult.get_violations paths kwargs)).
Proof.
  split; [apply result_get_violations_flat|apply result_num_violations_length].
Qed.

(** *** Check tuples *)

Lemma tuples_or_first_other_app (vs ws : list Violation)
    (result : list (string * Z * Z) + Violation) :
  Forall is_lint_error vs ->
  tuples_or_first_other ws result ->
  tuples_or_first_other (vs ++ ws)
    match result with
    | inl rest => inl (map tuple_of vs ++ rest)
    | inr v => inr v
    end.
Proof.
  intros Hvs. destruct result as [rest|v]; simpl.
  - intros [Hws ->]. split; [now apply Forall_app|now rewrite map_app].
  - intros (before & after & -> & Hb & Hv).
    exists (vs ++ before), after. split; [now rewrite app_assoc|].
    split; [now apply Forall_app|exact Hv].
Qed.

Lemma check_tuples_loop_spec (todo : list Violation) (vs : list (string * Z * Z)) :
  exists result,
    tuples_or_first_other todo result
    /\ check_tuples_loop todo vs
       = match result with
         | inl tuples => inl (vs ++ tuples)
         | inr v => inr v
         end.
Proof.
  revert vs. induction todo as [|v todo IH]; intros vs; cbn [check_tuples_loop].
  - exists (inl []). split; [split; [constructor|reflexivity]|].
    now rewrite app_nil_r.
  - unfold check_tuple.
    destruct (v_class v) eqn:Hc;
      try (exists (inr v); split; [|reflexivity];
           exists [], todo; split; [reflexivity|];
           split; [constructor|unfold is_lint_error; congruence]).
    destruct (IH (vs ++ [(rule_code v, line_no v, line_pos v)])) as (r & Hr & Heq).
    exists (match r with inl rest => inl (map tuple_of [v] ++ rest) | inr w => inr w end).
    split.
    + apply (tuples_or_first_other_app [v] todo); [|exact Hr].
      constructor; [exact Hc|constructor].
    + rewrite Heq. destruct r; [|reflexivity].
      cbn [map app]. now rewrite <- app_assoc.
Qed.

Lemma file_check_tuples_spec (lf : LintedFile) :
  tuples_or_first_other (get_violations_kw lf no_kwargs) (check_tuples lf).
Proof.
  unfold check_tuples.
  destruct (check_tuples_loop_spec (get_violations_default lf) []) as (r & Hr & ->).
  now destruct r.
Qed.

Lemma path_check_tuples_from_spec (files : list LintedFile)
    (tuple_buffer : list (string * Z * Z)) :
  exists result,
    tuples_or_first_other (LintedPath.get_violations files no_kwargs) result
    /\ LintedPath.check_tuples_from files tuple_buffer
       = match result with
         | inl tuples => inl (tuple_buffer ++ tuples)
         | inr v => inr v
         end.
Proof.
  rewrite path_get_violations_flat. revert tuple_buffer.
  induction files as [|file files IH]; intros buff;
    cbn [LintedPath.check_tuples_from flat_map].
  - exists (inl []). split; [split; [constructor|reflexivity]|].
    now rewrite app_nil_r.
  - pose proof (file_check_tuples_spec file) as Hfile.
    destruct (check_tuples file) as [tuples|v].
    + destruct Hfile as [Hlint ->].
      destruct (IH (buff ++ map tuple_of (get_violations_kw file no_kwargs)))
        as (r & Hr & Heq).
      eexists. split; [apply tuples_or_first_other_app; [exact Hlint|exact Hr]|].
      rewrite Heq. destruct r; [|reflexivity]. now rewrite <- app_assoc.
    + destruct Hfile as (before & after & Hvs & Hb & Hv).
      exists (inr v). split; [|reflexivity].
      exists before, (after ++ flat_map (fun f => get_violations_kw f no_kwargs) files).
      rewrite Hvs, <- app_assoc. auto.
Qed.

(** X9.  [check_tuples] of a whole result goes through the violations
    that [get_violations] lists for it: when all of them are linting
    violations it returns their tuples [(code, line, position)] in that
    order, otherwise it raises the first one that is not. *)
Theorem result_check_tuples (paths : list (list LintedFile)) :
  tuples_or_first_other (LintingResult.get_violations paths no_kwargs)
                        (LintingResult.check_tuples paths).
Proof.
  rewrite result_get_violations_paths. unfold LintingResult.check_tuples.
  enough (H : forall buff, exists result,
             tuples_or_first_other
               (flat_map (fun path => LintedPath.get_violations path no_kwargs) paths)
               result
             /\ LintingResult.check_tuples_from paths buff
                = match result with
                  | inl tuples => inl (buff ++ tuples)
                  | inr v => inr v
                  end).
  { destruct (H []) as (r & Hr & ->). now destruct r. }
  induction paths as [|path paths IH]; intros buff;
    cbn [LintingResult.check_tuples_from flat_map].
  - exists (inl []). split; [split; [constructor|reflexivity]|].
    now rewrite app_nil_r.
  - unfold LintedPath.check_tuples.
    destruct (path_check_tuples_from_spec path []) as (rp & Hrp & ->).
    destruct rp as [tuples|v]; cbn [app].
    + destruct Hrp as [Hlint ->].
      destruct (IH (buff ++ map tuple_of (LintedPath.get_violations path no_kwargs)))
        as (r & Hr & Heq).
      eexists. split; [apply tuples_or_first_other_app; [exact Hlint|exact Hr]|].
      rewrite Heq. destruct r; [|reflexivity]. now rewrite <- app_assoc.
    + destruct Hrp as (before & after & Hvs & Hb & Hv).
      exists (inr v). split; [|reflexivity].
      exists before,
        (after ++ flat_map (fun p => LintedPath.get_violations p no_kwargs) paths).
      rewrite Hvs, <- app_assoc. auto.
Qed.

(** *** Statistics *)

Lemma lookup_sum_dicts (d1 d2 : gmap string Z) (key : string) :
  LintingResult.sum_dicts d1 d2 !! key
  = match d1 !! key, d2 !! key with
    | None, None => None
    | v1, v2 => Some (default 0 v1 + default 0 v2)
    end.
Proof.
  unfold LintingResult.sum_dicts. cbv zeta. apply option_eq. intros x.
  rewrite lookup_set_to_map by (intros y y' _ _ Hyy'; exact Hyy').
  split.
  - intros (y & Hy & [= -> <-]).
    apply elem_of_union in Hy. rewrite !elem_of_dom in Hy.
    destruct (d1 !! key) as [v1|], (d2 !! key) as [v2|]; try reflexivity.
    destruct Hy as [[? [=]]|[? [=]]].
  - intros Hx. exists key. split.
    + apply elem_of_union. rewrite !elem_of_dom.
      destruct (d1 !! key) as [v1|]; [left; eauto|].
      destruct (d2 !! key) as [v2|]; [right; eauto|discriminate].
    + destruct (d1 !! key) as [v1|], (d2 !! key) as [v2|];
        try discriminate; now injection Hx as <-.
Qed.

Ltac stat_lookup :=
  unfold stats_dict;
  repeat first
    [ rewrite lookup_insert_eq
    | rewrite lookup_insert_ne by (first [discriminate|congruence]) ];
  rewrite ?lookup_empty.

Lemma sum_stats_dicts (f c u v f' c' u' v' : Z) :
  LintingResult.sum_dicts (stats_dict f c u v) (stats_dict f' c' u' v')
  = stats_dict (f + f') (c + c') (u + u') (v + v').
Proof.
  apply map_eq. intros key. rewrite lookup_sum_dicts.
  destruct (decide (key = "violations")) as [->|Hv]; [now stat_lookup|].
  destruct (decide (key = "unclean")) as [->|Hu]; [now stat_lookup|].
  destruct (decide (key = "clean")) as [->|Hc]; [now stat_lookup|].
  destruct (decide (key = "files")) as [->|Hf]; [now stat_lookup|].
  now stat_lookup.
Qed.

Lemma py_sum_count (test : LintedFile -> bool) (files : list LintedFile) :
  py_sum (map (fun file => int_of_bool (test file)) files) = count_files test files.
Proof.
  unfold count_files. induction files as [|file files IH]; [reflexivity|].
  cbn [map List.filter]. rewrite py_sum_cons, IH.
  destruct (test file); cbn [int_of_bool length]; lia.
Qed.

Lemma count_files_app (test : LintedFile -> bool) (l1 l2 : list LintedFile) :
  count_files test (l1 ++ l2) = count_files test l1 + count_files test l2.
Proof. unfold count_files. rewrite List.filter_app, length_app. lia. Qed.

Lemma count_files_split (test : LintedFile -> bool) (files : list LintedFile) :
  count_files test files + count_files (fun file => negb (test file)) files
  = Z.of_nat (length files).
Proof.
  unfold count_files. induction files as [|file files IH]; [reflexivity|].
  cbn [List.filter]. destruct (test file); cbn [negb length]; lia.
Qed.

Lemma path_stats_counts (files : list LintedFile) :
  LintedPath.stats files
  = stats_dict (Z.of_nat (length files)) (count_files is_clean files)
               (count_files (fun file => negb (is_clean file)) files)
               (LintedPath.num_violations files no_kwargs).
Proof.
  unfold LintedPath.stats, stats_dict, LintedPath.num_violations.
  now rewrite (py_sum_count is_clean),
    (py_sum_count (fun file => negb (is_clean file))).
Qed.

Lemma all_stats_counts (paths : list (list LintedFile)) (f c u v : Z) :
  fold_left
    (fun all_stats path =>
       LintingResult.sum_dicts (LintedPath.stats path) all_stats)
    paths (stats_dict f c u v)
  = stats_dict (Z.of_nat (length (concat paths)) + f)
               (count_files is_clean (concat paths) + c)
               (count_files (fun file => negb (is_clean file)) (concat paths) + u)
               (LintingResult.num_violations paths no_kwargs + v).
Proof.
  revert f c u v. induction paths as [|path paths IH]; intros f c u v.
  - reflexivity.
  - cbn [fold_left concat]. rewrite path_stats_counts, sum_stats_dicts, IH.
    unfold LintingResult.num_violations. cbn [map]. rewrite py_sum_cons.
    rewrite !count_files_app, length_app. f_equal; lia.
Qed.

Lemma is_clean_num_violations (file : LintedFile) :
  is_clean file = true <-> num_violations file no_kwargs = 0.
Proof.
  unfold is_clean, num_violations, get_violations_kw, no_kwargs.
  cbn [kw_rules kw_types kw_filter_ignore kw_fixable].
  destruct (get_violations file [] [] true None); cbn.
  - split; reflexivity.
  - split; [discriminate|lia].
Qed.

Lemma num_violations_nonneg (file : LintedFile) (kwargs : Kwargs) :
  0 <= num_violations file kwargs.
Proof. unfold num_violations. lia. Qed.

Lemma py_sum_nonneg_zero {A : Type} (f : A -> Z) (l : list A) :
  (forall x, 0 <= f x) ->
  0 <= py_sum (map f l) /\ (py_sum (map f l) = 0 <-> Forall (fun x => f x = 0) l).
Proof.
  intros Hf. induction l as [|x l [IH0 IH]]; cbn [map].
  - split; [reflexivity|]. split; [constructor|reflexivity].
  - rewrite py_sum_cons. specialize (Hf x). split; [lia|].
    rewrite Forall_cons_iff, <- IH. lia.
Qed.

Lemma result_num_violations_zero (paths : list (list LintedFile)) :
  0 <= LintingResult.num_violations paths no_kwargs
  /\ (LintingResult.num_violations paths no_kwargs = 0
      <-> forallb is_clean (concat paths) = true).
Proof.
  rewrite result_num_violations_length, result_get_violations_flat.
  rewrite <- (py_sum_lengths (fun file => get_violations_kw file no_kwargs)).
  destruct (py_sum_nonneg_zero
              (fun file => Z.of_nat (length (get_violations_kw file no_kwargs)))
              (concat paths)) as [H0 Hz]; [intros; lia|].
  split; [exact H0|]. rewrite Hz, forallb_forall, List.Forall_forall.
  split; intros H file Hin; apply (is_clean_num_violations file), H, Hin.
Qed.

Lemma getitem_stats_dict (f c u v : Z) :
  getitem (stats_dict f c u v) "files" = Returns f
  /\ getitem (stats_dict f c u v) "clean" = Returns c
  /\ getitem (stats_dict f c u v) "unclean" = Returns u
  /\ getitem (stats_dict f c u v) "violations" = Returns v.
Proof. unfold getitem. conjs; now stat_lookup. Qed.

Lemma result_stats_final (paths : list (list LintedFile)) :
  LintingResult.stats paths
  = Returns
      (final_stats (Z.of_nat (length (concat paths)))
                   (count_files is_clean (concat paths))
                   (count_files (fun file => negb (is_clean file)) (concat paths))
                   (LintingResult.num_violations paths no_kwargs)).
Proof.
  unfold LintingResult.stats. cbv zeta.
  change (<["violations" := 0]> (<["unclean" := 0]> (<["clean" := 0]>
            (<["files" := 0]> (∅ : gmap string Z)))))
    with (stats_dict 0 0 0 0).
  rewrite all_stats_counts, !Z.add_0_r.
  set (f := Z.of_nat (length (concat paths))).
  set (c := count_files is_clean (concat paths)).
  set (u := count_files (fun file => negb (is_clean file)) (concat paths)).
  set (v := LintingResult.num_violations paths no_kwargs).
  destruct (getitem_stats_dict f c u v) as (Hf & Hc & Hu & Hv).
  rewrite Hf, Hc, Hu, Hv. cbn [outcome_bind]. unfold final_stats.
  destruct (f >? 0)%Z; cbn [outcome_bind]; now rewrite ?Hf, ?Hu, ?Hv.
Qed.

Ltac final_lookup :=
  unfold final_stats;
  repeat first
    [ rewrite lookup_insert_eq
    | rewrite lookup_insert_ne by (first [discriminate|congruence]) ];
  rewrite ?lookup_fmap; stat_lookup.

(** X10.  [LintingResult.stats] always returns, never a [KeyError]:
    [files] counts the files of all paths, [clean] and [unclean] split
    them into those with and without a violation that counts,
    [violations] is [num_violations()] of the result, [clean files] and
    [unclean files] repeat the two counts, and the two rates are the
    float quotients by the number of files, or the integer 0 when there
    is no file. *)
Theorem result_stats_totals (paths : list (list LintedFile)) :
  let files := Z.of_nat (length (concat paths)) in
  let unclean := count_files (fun file => negb (is_clean file)) (concat paths) in
  let violations := LintingResult.num_violations paths no_kwargs in
  exists d,
    LintingResult.stats paths = Returns d
    /\ d !! "files" = Some (IntValue files)
    /\ d !! "clean" = Some (IntValue (files - unclean))
    /\ d !! "unclean" = Some (IntValue unclean)
    /\ d !! "violations" = Some (IntValue violations)
    /\ d !! "clean files" = Some (IntValue (files - unclean))
    /\ d !! "unclean files" = Some (IntValue unclean)
    /\ d !! "avg per file"
       = Some (if (files >? 0)%Z then FloatQuotient violations files
               else IntValue 0)
    /\ d !! "unclean rate"
       = Some (if (files >? 0)%Z then FloatQuotient unclean files
               else IntValue 0).
Proof.
  cbv zeta. eexists. split; [apply result_stats_final|].
  pose proof (count_files_split is_clean (concat paths)) as Hsplit.
  replace (Z.of_nat (length (concat paths))
           - count_files (fun file => negb (is_clean file)) (concat paths))
    with (count_files is_clean (concat paths)) by lia.
  conjs; now final_lookup.
Qed.

(** X11.  The exit code of [LintingResult.stats] is 0 and the status
    [PASS] exactly when every file of every path is clean; as soon as
    one file has a violation that is not ignored they are 65 and
    [FAIL]. *)
Theorem result_stats_exit_code (paths : list (list LintedFile)) :
  exists d,
    LintingResult.stats paths = Returns d
    /\ d !! "exit code"
       = Some (IntValue (if forallb is_clean (concat paths) then 0 else 65))
    /\ d !! "status"
       = Some (StrValue (if forallb is_clean (concat paths) then "PASS" else "FAIL")).
Proof.
  eexists. split; [apply result_stats_final|].
  destruct (result_num_violations_zero paths) as [Hnn Hz].
  assert (Hv : (LintingResult.num_violations paths no_kwargs >? 0)%Z
               = negb (forallb is_clean (concat paths))).
  { destruct (forallb is_clean (concat paths)).
    - rewrite (proj2 Hz eq_refl). reflexivity.
    - apply Z.gtb_lt.
      destruct (Z.eq_dec (LintingResult.num_violations paths no_kwargs) 0) as [H0|H0];
        [apply Hz in H0; discriminate|lia]. }
  split; final_lookup; rewrite Hv;
    now destruct (forallb is_clean (concat paths)).
Qed.

(** *** Dicts keyed by file name *)

Lemma dedupe_from_ext {A : Type} `{EqDecision A} (seen seen' l : list A) :
  (forall x, x ∈ seen <-> x ∈ seen') ->
  Py.dedupe_from seen l = Py.dedupe_from seen' l.
Proof.
  revert seen seen'. induction l as [|y l IH]; intros seen seen' Hsame;
    cbn [Py.dedupe_from]; [reflexivity|].
  rewrite (IH (seen ++ [y]) (seen' ++ [y])).
  - rewrite (bool_decide_ext (y ∈ seen) (y ∈ seen')) by apply Hsame.
    reflexivity.
  - intros x. rewrite !elem_of_app, Hsame. reflexivity.
Qed.

Lemma dict_set_keys {V : Type} (k : string) (v : V) (d : list (string * V)) :
  map fst (dict_set k v d)
  = if bool_decide (k ∈ map fst d) then map fst d else map fst d ++ [k].
Proof.
  induction d as [|[k' v'] d IH]; cbn [dict_set map fst]; [reflexivity|].
  destruct (String.eqb_spec k k') as [->|Hne].
  - cbn [map fst]. rewrite bool_decide_eq_true_2; [reflexivity|].
    apply elem_of_cons. now left.
  - cbn [map fst]. rewrite IH. case_bool_decide as Hin.
    + rewrite bool_decide_eq_true_2; [reflexivity|].
      apply elem_of_cons. now right.
    + rewrite bool_decide_eq_false_2; [reflexivity|].
      rewrite elem_of_cons. tauto.
Qed.

Lemma elem_of_dict_set {V : Type} (k : string) (v : V) (d : list (string * V))
    (kv : string * V) :
  kv ∈ dict_set k v d -> kv = (k, v) \/ kv ∈ d.
Proof.
  induction d as [|[k' v'] d IH]; cbn [dict_set].
  - intros H. apply list_elem_of_singleton in H. now left.
  - destruct (String.eqb k k').
    + rewrite !elem_of_cons. tauto.
    + rewrite !elem_of_cons. intros [->|H]; [tauto|].
      destruct (IH H); tauto.
Qed.

Lemma elem_of_dict_update {V : Type} (d other : list (string * V))
    (kv : string * V) :
  kv ∈ dict_update d other -> kv ∈ d \/ kv ∈ other.
Proof.
  unfold dict_update. revert d.
  induction other as [|[k v] other IH]; intros d; cbn [fold_left fst snd].
  - now left.
  - intros H. apply IH in H as [H|H].
    + apply elem_of_dict_set in H as [->|H]; [|now left].
      right. apply elem_of_cons. now left.
    + right. apply elem_of_cons. now right.
Qed.

Lemma violation_dict_keys_from (kwargs : Kwargs) (files : list LintedFile)
    (d : list (string * list Violation)) :
  map fst
    (fold_left
       (fun d file => dict_set (path file) (get_violations_kw file kwargs) d)
       files d)
  = map fst d ++ Py.dedupe_from (map fst d) (map path files).
Proof.
  revert d. induction files as [|file files IH]; intros d;
    cbn [fold_left map Py.dedupe_from].
  - now rewrite app_nil_r.
  - rewrite IH, dict_set_keys. case_bool_decide as Hin.
    + f_equal. apply dedupe_from_ext. intros x.
      rewrite elem_of_app, list_elem_of_singleton. split; [tauto|].
      intros [?| ->]; assumption.
    + now rewrite <- app_assoc.
Qed.

Lemma path_violation_dict_keys (files : list LintedFile) (kwargs : Kwargs) :
  map fst (LintedPath.violation_dict files kwargs) = file_names files.
Proof. apply (violation_dict_keys_from kwargs files []). Qed.

Lemma elem_of_dict_set_same {V : Type} (k : string) (v : V)
    (d : list (string * V)) :
  (k, v) ∈ dict_set k v d.
Proof.
  induction d as [|[k' v'] d IH]; cbn [dict_set].
  - apply list_elem_of_singleton. reflexivity.
  - destruct (String.eqb k k'); apply elem_of_cons; [now left|now right].
Qed.

Lemma dict_set_keeps_key {V : Type} (k a : string) (v : V)
    (d : list (string * V)) :
  a ∈ map fst d \/ a = k -> a ∈ map fst (dict_set k v d).
Proof.
  rewrite dict_set_keys. case_bool_decide as Hin.
  - intros [H| ->]; assumption.
  - rewrite elem_of_app, list_elem_of_singleton. tauto.
Qed.

Lemma dict_update_snoc {V : Type} (d other : list (string * V))
    (kv : string * V) :
  dict_update d (other ++ [kv]) = dict_set (fst kv) (snd kv) (dict_update d other).
Proof. unfold dict_update. now rewrite fold_left_app. Qed.

Lemma dict_update_keeps_key {V : Type} (d other : list (string * V))
    (a : string) :
  a ∈ map fst d \/ a ∈ map fst other -> a ∈ map fst (dict_update d other).
Proof.
  unfold dict_update. revert d.
  induction other as [|[k v] other IH]; intros d; cbn [fold_left map fst].
  - intros [H|H]; [exact H|inversion H].
  - intros H. apply IH. rewrite elem_of_cons in H.
    destruct H as [H|[->|H]].
    + left. apply dict_set_keeps_key. now left.
    + left. apply dict_set_keeps_key. now right.
    + now right.
Qed.

Lemma update_from_dicts_spec (kwargs : Kwargs) (paths : list (list LintedFile))
    (dict_buffer : list (string * string)) (index : nat) :
  match LintingResult.update_from_dicts dict_buffer index
          (map (fun path => LintedPath.violation_dict path kwargs) paths) with
  | Returns d =>
      exists pairs,
        Forall2 (fun files kv => file_names files = [fst kv; snd kv])
                paths pairs
        /\ d = dict_update dict_buffer pairs
  | Raises e =>
      exists before files after,
        paths = before ++ files :: after
        /\ Forall (fun files => exists a b, file_names files = [a; b]) before
        /\ (forall a b, file_names files <> [a; b])
        /\ e = ValueError
                 (LintingResult.update_message (index + length before)
                    (length (file_names files)))
  end.
Proof.
  revert dict_buffer index.
  induction paths as [|files paths IH]; intros buff index;
    cbn [map LintingResult.update_from_dicts].
  - exists []. split; [constructor|reflexivity].
  - rewrite path_violation_dict_keys.
    destruct (file_names files) as [|a [|b [|c names]]] eqn:Hnames;
      try (exists [], files, paths; rewrite Hnames, Nat.add_0_r;
           split; [reflexivity|]; split; [constructor|];
           split; [intros; congruence|reflexivity]).
    specialize (IH (dict_set a b buff) (S index)).
    destruct (LintingResult.update_from_dicts _ _ _) as [d|e].
    + destruct IH as (pairs & Hall & ->). exists ((a, b) :: pairs).
      split; [constructor; [exact Hnames|exact Hall]|reflexivity].
    + destruct IH as (before & bad & after & -> & Hbefore & Hbad & ->).
      exists (files :: before), bad, after. split; [reflexivity|].
      split; [constructor; eauto|]. split; [exact Hbad|].
      cbn [length]. do 2 f_equal. lia.
Qed.

(** X12.  [LintingResult.violation_dict] hands the dicts of the paths to
    [dict.update] as a sequence of pairs.  It returns only when every
    path holds exactly two file names, and the dict it returns is then
    the one built by assigning, path after path, the second name of the
    path to the first: its keys are the first names, a later path
    overwrites an earlier one with the same first name, and its values
    are file names, not violations.  In every other case it raises the
    [ValueError] of [dict.update] for the first path that does not hold
    two names, a result with one file among them. *)
Theorem result_violation_dict_pairs (paths : list (list LintedFile))
    (kwargs : Kwargs) :
  match LintingResult.violation_dict paths kwargs with
  | Returns d =>
      exists pairs,
        Forall2 (fun files kv => file_names files = [fst kv; snd kv])
                paths pairs
        /\ d = dict_update [] pairs
        /\ (forall k v,
              (k, v) ∈ d ->
              exists files, files ∈ paths /\ file_names files = [k; v])
        /\ (forall files a b,
              files ∈ paths -> file_names files = [a; b] ->
              exists v, (a, v) ∈ d)
        /\ (forall files a b,
              last paths = Some files -> file_names files = [a; b] ->
              (a, b) ∈ d)
  | Raises e =>
      exists before files after,
        paths = before ++ files :: after
        /\ Forall (fun files => exists a b, file_names files = [a; b]) before
        /\ (forall a b, file_names files <> [a; b])
        /\ e = ValueError
                 (LintingResult.update_message (length before)
                    (length (file_names files)))
  end.
Proof.
  unfold LintingResult.violation_dict.
  pose proof (update_from_dicts_spec kwargs paths [] 0%nat) as H.
  destruct (LintingResult.update_from_dicts _ _ _) as [d|e]; [|exact H].
  destruct H as (pairs & Hall & ->). exists pairs.
  split; [exact Hall|]. split; [reflexivity|]. split; [|split].
  - intros k v Hkv. apply elem_of_dict_update in Hkv as [Hnil|Hin];
      [inversion Hnil|].
    apply list_elem_of_lookup in Hin as [i Hi].
    destruct (Forall2_lookup_r _ _ _ _ _ Hall Hi) as (files & Hfiles & Hnames).
    exists files. split; [now apply list_elem_of_lookup_2 in Hfiles|exact Hnames].
  - intros files a b Hin Hnames.
    apply list_elem_of_lookup in Hin as [i Hi].
    destruct (Forall2_lookup_l _ _ _ _ _ Hall Hi) as (kv & Hkv & Hkvnames).
    rewrite Hnames in Hkvnames. injection Hkvnames as Ha Hb.
    assert (Hkey : a ∈ map fst (dict_update [] pairs)).
    { apply dict_update_keeps_key. right. rewrite Ha.
      apply list_elem_of_In, in_map, list_elem_of_In.
      now apply list_elem_of_lookup_2 in Hkv. }
    apply list_elem_of_In, in_map_iff in Hkey as ([k v] & Hk & Hkv').
    cbn [fst] in Hk. subst k. exists v. now apply list_elem_of_In.
  - intros files a b Hlast Hnames.
    apply last_Some in Hlast as [before ->].
    apply Forall2_app_inv_l in Hall as (pairs1 & pairs2 & _ & Hlastpair & ->).
    apply Forall2_cons_inv_l in Hlastpair as (kv & rest & Hkv & Hrest & ->).
    apply Forall2_nil_inv_l in Hrest as ->.
    rewrite Hnames in Hkv. injection Hkv as -> ->.
    rewrite dict_update_snoc. apply elem_of_dict_set_same.
Qed.

(** Two files in one path, and one file: the names of the first pair
    become a key and its value, the single file raises. *)
Lemma result_violation_dict_pairs_witness :
  LintingResult.violation_dict
    [[Examples.unsorted_linted; Examples.clean_linted]] no_kwargs
  = Returns [("a.sql", "tag.sql")]
  /\ LintingResult.violation_dict [[Examples.unsorted_linted]] no_kwargs
     = Raises (ValueError
                 "dictionary update sequence element #0 has length 1; 2 is required").
Proof.
  split.
  - pose proof (result_violation_dict_pairs
                  [[Examples.unsorted_linted; Examples.clean_linted]] no_kwargs)
      as H.
    destruct (LintingResult.violation_dict _ _) as [d|e].
    + destruct H as (pairs & Hall & -> & _).
      apply Forall2_cons_inv_l in Hall as ([k v] & rest & Hkv & Hrest & ->).
      apply Forall2_nil_inv_l in Hrest as ->.
      injection Hkv as <- <-. reflexivity.
    + destruct H as (before & files & after & Hpaths & _ & Hbad & _).
      exfalso. destruct before as [|b0 before].
      * injection Hpaths as <- _. now apply (Hbad "a.sql" "tag.sql").
      * injection Hpaths as _ Hrest. now destruct before.
  - pose proof (result_violation_dict_pairs [[Examples.unsorted_linted]] no_kwargs)
      as H.
    destruct (LintingResult.violation_dict _ _) as [d|e].
    + destruct H as (pairs & Hall & _).
      apply Forall2_cons_inv_l in Hall as (kv & rest & Hkv & _).
      discriminate Hkv.
    + destruct H as (before & files & after & Hpaths & _ & _ & ->).
      destruct before as [|b0 before].
      * injection Hpaths as <- _. reflexivity.
      * injection Hpaths as _ Hrest. now destruct before.
Defined.

Lemma more_than_one {A : Type} (l : list A) :
  (Z.of_nat (length l) >? 1)%Z
  = match l with _ :: _ :: _ => true | _ => false end.
Proof.
  destruct l as [|x [|y l]]; [reflexivity|reflexivity|].
  apply Z.gtb_lt. cbn [length]. lia.
Qed.

(** X13.  The property [tree] of a result returns exactly when the
    result holds one path with one file, and then the tree of that
    file.  More than one path or more than one file is a [ValueError];
    a result without a path, or whose path is empty, is an
    [IndexError]. *)
Theorem result_tree_single (paths : list (list LintedFile)) :
  match LintingResult.tree paths with
  | Returns t => exists file, paths = [[file]] /\ t = tree file
  | Raises IndexError => paths = [] \/ paths = [[]]
  | Raises (ValueError _) =>
      (1 < length paths)%nat
      \/ exists files, paths = [files] /\ (1 < length files)%nat
  | Raises (KeyError _) | Raises (IOError _) => False
  end.
Proof.
  unfold LintingResult.tree. rewrite more_than_one.
  destruct paths as [|files [|path' paths]].
  - now left.
  - rewrite more_than_one. destruct files as [|file [|file' files]].
    + now right.
    + eauto.
    + right. eexists. split; [reflexivity|]. cbn [length]. lia.
  - left. cbn [length]. lia.
Qed.

(** *** Records *)

Lemma dict_set_fresh {V : Type} (k : string) (v : V) (d : list (string * V)) :
  k ∉ map fst d -> dict_set k v d = d ++ [(k, v)].
Proof.
  induction d as [|[k' v'] d IH]; cbn [dict_set map fst app]; [reflexivity|].
  rewrite not_elem_of_cons. intros [Hne Hnin].
  destruct (String.eqb_spec k k') as [->|_]; [contradiction|].
  now rewrite IH.
Qed.

Lemma violation_dict_distinct_from (files : list LintedFile)
    (d : list (string * list Violation)) :
  NoDup (map fst d ++ map path files) ->
  fold_left (fun d file => dict_set (path file) (get_violations_default file) d)
            files d
  = d ++ map (fun file => (path file, get_violations_default file)) files.
Proof.
  revert d. induction files as [|file files IH]; intros d Hnd;
    cbn [fold_left map].
  - now rewrite app_nil_r.
  - cbn [map] in Hnd. apply NoDup_app in Hnd as (Hd & Hsep & Hfiles).
    apply NoDup_cons in Hfiles as [Hfile Hfiles].
    rewrite dict_set_fresh.
    + rewrite IH; [now rewrite <- app_assoc|].
      rewrite map_app. cbn [map fst]. rewrite <- app_assoc. cbn [app].
      apply NoDup_app. split; [exact Hd|]. split.
      * intros x Hx. apply Hsep in Hx. exact Hx.
      * now apply NoDup_cons.
    + intros Hin. apply (Hsep _ Hin). apply elem_of_cons. now left.
Qed.

(** X14.  When the files of each path have distinct names, [as_records]
    holds one record for every file that is not clean, in the order of
    the paths and of the files, and none for a clean file. *)
Theorem as_records_unclean_files (paths : list (list LintedFile)) :
  Forall (fun files => NoDup (map path files)) paths ->
  as_records paths
  = flat_map (fun file => if is_clean file then [] else [record_of file])
             (concat paths).
Proof.
  intros Hnd. unfold as_records. rewrite <- flat_map_concat.
  induction Hnd as [|files paths Hfiles _ IH]; [reflexivity|].
  cbn [flat_map]. rewrite IH. f_equal. clear IH.
  unfold violation_dict. rewrite (violation_dict_distinct_from files []) by exact Hfiles.
  cbn [app]. clear Hfiles.
  induction files as [|file files IH]; [reflexivity|].
  cbn [map flat_map]. rewrite IH. f_equal.
  unfold is_clean, record_of, get_violations_default.
  now destruct (get_violations file [] [] true None).
Qed.

(** A path with a file that has two violations and a clean file. *)
Lemma as_records_unclean_files_witness :
  as_records [[Examples.unsorted_linted; Examples.clean_linted]]
  = [record_of Examples.unsorted_linted].
Proof.
  rewrite (as_records_unclean_files
             [[Examples.unsorted_linted; Examples.clean_linted]]).
  - reflexivity.
  - constructor; [|constructor]. apply (bool_decide_unpack _). reflexivity.
Defined.

(** ** Persisting the fixes *)

Lemma elem_of_combine_dicts {V : Type} (ds : list (list (string * V)))
    (kv : string * V) :
  kv ∈ LintingResult.combine_dicts ds -> exists d, d ∈ ds /\ kv ∈ d.
Proof.
  unfold LintingResult.combine_dicts.
  enough (H : forall acc,
             kv ∈ fold_left (fun buff dct => dict_update buff dct) ds acc ->
             kv ∈ acc \/ exists d, d ∈ ds /\ kv ∈ d).
  { intros Hin. destruct (H [] Hin) as [Hnil|Hd]; [inversion Hnil|exact Hd]. }
  induction ds as [|d ds IH]; intros acc; cbn [fold_left].
  - now left.
  - intros Hin. destruct (IH _ Hin) as [Hacc|(d' & Hd' & Hkv)].
    + apply elem_of_dict_update in Hacc as [Hacc|Hd]; [now left|].
      right. exists d. split; [apply elem_of_cons; now left|exact Hd].
    + right. exists d'. split; [apply elem_of_cons; now right|exact Hkv].
Qed.

Lemma length_zero_empty (s : string) : String.length s = 0%nat -> s = "".
Proof. destruct s; [reflexivity|discriminate]. Qed.

Section PersistFacts.

Variable templated_slice_to_source_slice :
TemplatedFile -> Py.slice -> res Py.slice.
Variable untouchable_slices : TemplatedFile -> list Py.slice.
Variable splitext : string -> string * string.

Local Abbreviation fix_string :=
(fix_string templated_slice_to_source_slice untouchable_slices).
Local Abbreviation persist_tree :=
(persist_tree templated_slice_to_source_slice untouchable_slices splitext).
Local Abbreviation persist_step :=
(persist_step templated_slice_to_source_slice untouchable_slices splitext).
Local Abbreviation files_loop :=
(persist_loop templated_slice_to_source_slice untouchable_slices splitext).
Local Abbreviation path_persist_changes :=
(path_persist_changes templated_slice_to_source_slice untouchable_slices
                      splitext).
Local Abbreviation paths_loop :=
(persist_paths templated_slice_to_source_slice untouchable_slices splitext).
Local Abbreviation persist_changes :=
(persist_changes templated_slice_to_source_slice untouchable_slices splitext).
Local Abbreviation persisted :=
(persisted templated_slice_to_source_slice untouchable_slices splitext).
Local Abbreviation fixed_to :=
(fixed_to templated_slice_to_source_slice untouchable_slices).

Lemma persisted_start (linted : LintedFile -> Prop) (suffix : string)
  (kwargs : Kwargs) (fs : FileSystem) :
persisted linted suffix kwargs fs [] fs.
Proof. split; [now left|]. intros fname H. inversion H. Qed.

Lemma persisted_reset (linted : LintedFile -> Prop) (suffix : string)
  (kwargs : Kwargs) (before after : FileSystem)
  (results : list (string * bool)) :
persisted linted suffix kwargs before results after ->
persisted linted suffix kwargs before [] after.
Proof. intros [Hfs _]. split; [exact Hfs|]. intros fname H. inversion H. Qed.

Lemma persist_step_persisted (linted : LintedFile -> Prop) (suffix : string)
  (kwargs : Kwargs) (before : FileSystem) (file : LintedFile)
  (buffer buffer' : list (string * bool)) (fs fs' : FileSystem) :
linted file ->
persisted linted suffix kwargs before buffer fs ->
persist_step suffix kwargs (buffer, fs) file = Ok (buffer', fs') ->
persisted linted suffix kwargs before buffer' fs'.
Proof.
intros Hfile [Hfs Hres]. unfold_def persist_step.
destruct (Z.gtb_spec (num_violations file (with_fixable kwargs)) 0)
  as [Hnum|Hnum].
- unfold_def persist_tree.
  destruct (fix_string file) as [[out success]|e] eqn:Hfix;
    cbn [res_bind]; [|discriminate].
  destruct success; cbn [res_bind fst snd]; intros [= <- <-].
  + split.
    * intros fname.
      destruct (decide (target_name splitext file suffix = fname)) as [Heq|Hne].
      -- right. exists file, out. split; [exact Hfile|]. split; [exact Heq|].
         split; [split; [lia|exact Hfix]|].
         rewrite <- Heq. apply lookup_insert_eq.
      -- rewrite lookup_insert_ne by exact Hne. apply Hfs.
    * intros fname Hin. apply elem_of_dict_set in Hin as [[=]|Hin].
      now apply Hres.
  + split; [exact Hfs|].
    intros fname Hin. apply elem_of_dict_set in Hin as [[= ->]|Hin].
    * exists file, out. split; [exact Hfile|]. split; [reflexivity|].
      split; [lia|exact Hfix].
    * now apply Hres.
- intros [= <- <-]. split; [exact Hfs|].
  intros fname Hin. apply elem_of_dict_set in Hin as [[=]|Hin].
  now apply Hres.
Qed.

Lemma persist_loop_persisted (linted : LintedFile -> Prop) (suffix : string)
  (kwargs : Kwargs) (before : FileSystem) (files : list LintedFile)
  (buffer buffer' : list (string * bool)) (fs fs' : FileSystem) :
(forall file, file ∈ files -> linted file) ->
persisted linted suffix kwargs before buffer fs ->
files_loop suffix kwargs files (buffer, fs) = Ok (buffer', fs') ->
persisted linted suffix kwargs before buffer' fs'.
Proof.
revert buffer fs. induction files as [|file files IH]; intros buffer fs Hin Hst;
  cbn [persist_loop].
- now intros [= <- <-].
- destruct (persist_step suffix kwargs (buffer, fs) file)
    as [[buffer1 fs1]|e] eqn:Hstep; cbn [res_bind]; [|discriminate].
  apply IH.
  + intros f Hf. apply Hin, elem_of_cons. now right.
  + eapply persist_step_persisted; [|exact Hst|exact Hstep].
    apply Hin, elem_of_cons. now left.
Qed.

Lemma persist_paths_persisted (linted : LintedFile -> Prop) (suffix : string)
  (kwargs : Kwargs) (before : FileSystem) (paths : list (list LintedFile))
  (fs fs' : FileSystem) (ds : list (list (string * bool))) :
(forall file, file ∈ concat paths -> linted file) ->
persisted linted suffix kwargs before [] fs ->
paths_loop suffix kwargs paths fs = Ok (ds, fs') ->
forall results,
  (forall kv, kv ∈ results -> exists d, d ∈ ds /\ kv ∈ d) ->
  persisted linted suffix kwargs before results fs'.
Proof.
revert fs ds. induction paths as [|path paths IH]; intros fs ds Hin Hst;
  cbn [persist_paths].
- intros [= <- <-] results Hres. split; [apply Hst|].
  intros fname Hf. destruct (Hres _ Hf) as (d & Hd & _). inversion Hd.
- unfold_def path_persist_changes.
  destruct (files_loop suffix kwargs path ([], fs))
    as [[buffer1 fs1]|e] eqn:Hloop; cbn [res_bind]; [|discriminate].
  assert (H1 : persisted linted suffix kwargs before buffer1 fs1).
  { eapply persist_loop_persisted; [|exact Hst|exact Hloop].
    intros f Hf. apply Hin. cbn [concat]. apply elem_of_app. now left. }
  cbn [fst snd].
  destruct (paths_loop suffix kwargs paths fs1) as [[ds2 fs2]|e] eqn:Hrest;
    cbn [res_bind]; [|discriminate].
  cbn [fst snd]. intros [= <- <-] results Hres.
  assert (H2 : persisted linted suffix kwargs before [] fs2).
  { eapply (IH fs1 ds2); [|eapply persisted_reset; exact H1|exact Hrest|].
    - intros f Hf. apply Hin. cbn [concat]. apply elem_of_app. now right.
    - intros kv Hkv. inversion Hkv. }
  split; [apply H2|].
  intros fname Hf. destruct (Hres _ Hf) as (d & Hd & Hkv).
  apply elem_of_cons in Hd as [->|Hd].
  + now apply H1.
  + assert (H3 : persisted linted suffix kwargs before d fs2).
    { eapply (IH fs1 ds2); [|eapply persisted_reset; exact H1|exact Hrest|].
      - intros f Hf'. apply Hin. cbn [concat]. apply elem_of_app. now right.
      - intros kv Hkv'. exists d. split; [exact Hd|exact Hkv']. }
    now apply H3.
Qed.

(** X15.  What [persist_changes] does to the files on disk when it
  returns: every file is as it was before, or holds the fixed text of
  a file of the result that has a fixable violation and that
  [fix_string] changed; and a [False] in the returned dict stands for
  a file of the result with a fixable violation that [fix_string]
  left unchanged.  Files without fixable violations are not
  written. *)
Theorem persist_changes_writes_fixed (suffix : string) (kwargs : Kwargs)
  (paths : list (list LintedFile)) (fs fs' : FileSystem)
  (results : list (string * bool)) :
persist_changes suffix kwargs paths fs = Ok (results, fs') ->
persisted (fun file => file ∈ concat paths) suffix kwargs fs results fs'.
Proof.
unfold_def persist_changes.
destruct (paths_loop suffix kwargs paths fs) as [[ds fs2]|e] eqn:Hpaths;
  cbn [res_bind]; [|discriminate].
cbn [fst snd]. intros [= <- <-].
eapply persist_paths_persisted; [|apply persisted_start|exact Hpaths|].
- auto.
- intros kv. apply elem_of_combine_dicts.
Qed.

(** X16.  With a suffix, [persist_tree] writes beside the file and
  leaves the file itself as it is: whenever [splitext] splits a name
  into two parts that make up the name, the name written to differs
  from the path of the file. *)
Theorem persist_tree_keeps_original (lf : LintedFile) (suffix : string)
  (fs fs' : FileSystem) (success : bool) :
(forall fname, fst (splitext fname) +:+ snd (splitext fname) = fname) ->
suffix <> "" ->
persist_tree lf suffix fs = Ok (success, fs') ->
target_name splitext lf suffix <> path lf
/\ fs' !! path lf = fs !! path lf.
Proof.
intros Hsplit Hsuffix Hpersist.
assert (Hname : target_name splitext lf suffix <> path lf).
{ unfold target_name. destruct suffix as [|c suffix]; [contradiction|].
  specialize (Hsplit (path lf)).
  destruct (splitext (path lf)) as [root ext]. cbn [fst snd] in Hsplit.
  intros Heq. rewrite <- Hsplit in Heq.
  apply (f_equal String.length) in Heq.
  rewrite !length_append in Heq. cbn [String.length] in Heq. lia. }
split; [exact Hname|].
revert Hpersist. unfold_def persist_tree.
destruct (fix_string lf) as [[out ok]|e]; cbn [res_bind]; [|discriminate].
destruct ok; intros [= <- <-]; [|reflexivity].
now rewrite lookup_insert_ne.
Qed.

End PersistFacts.

Lemma split_last_dot_parts (s root ext : string) :
  DiskExamples.split_last_dot s = Some (root, ext) -> root +:+ ext = s.
Proof.
  revert root ext. induction s as [|c s IH]; intros root ext;
    cbn [DiskExamples.split_last_dot]; [discriminate|].
  destruct (DiskExamples.split_last_dot s) as [[root' ext']|].
  - intros [= <- <-]. rewrite append_cons. f_equal. now apply IH.
  - destruct (Ascii.eqb c "."); [|discriminate].
    intros [= <- <-]. apply append_nil_l.
Qed.

Lemma split_last_sep_parts (s : string) :
  fst (DiskExamples.split_last_sep s) +:+ snd (DiskExamples.split_last_sep s) = s.
Proof.
  induction s as [|c s IH]; cbn [DiskExamples.split_last_sep]; [reflexivity|].
  destruct (DiskExamples.split_last_sep s) as [head tail]. cbn [fst snd] in IH.
  destruct head as [|h head].
  - rewrite append_nil_l in IH. subst tail.
    destruct (Ascii.eqb c "/"); cbn [fst snd];
      [now rewrite append_cons, append_nil_l|apply append_nil_l].
  - cbn [fst snd]. rewrite append_cons. now f_equal.
Qed.

Lemma splitext_parts (fname : string) :
  fst (DiskExamples.splitext fname) +:+ snd (DiskExamples.splitext fname) = fname.
Proof.
  unfold DiskExamples.splitext.
  pose proof (split_last_sep_parts fname) as Hsep.
  destruct (DiskExamples.split_last_sep fname) as [head tail].
  cbn [fst snd] in Hsep.
  destruct (DiskExamples.split_last_dot tail) as [[root ext]|] eqn:Hsplit;
    cbn [fst snd]; [|apply append_nil_r].
  destruct (DiskExamples.all_dots root); cbn [fst snd]; [apply append_nil_r|].
  apply split_last_dot_parts in Hsplit.
  now rewrite append_assoc, Hsplit.
Qed.

(** Two files on disk, one of them with a fixable violation and a fixed
    tree, the other with a parse error only: the first is rewritten,
    the second is left alone, and both are reported as [True]. *)
Lemma persist_changes_writes_fixed_witness :
  persisted SliceMap.templated_slice_to_source_slice
    SliceMap.untouchable_slices DiskExamples.splitext
    (fun file =>
       file ∈ concat [[DiskExamples.fixable_linted; DiskExamples.unparsed_linted]])
    "" no_kwargs DiskExamples.disk
    [("tag.sql", true); ("other.sql", true)]
    (<["tag.sql" := "1 {%if c%} +3{%endif%}"]> DiskExamples.disk).
Proof.
  apply (persist_changes_writes_fixed SliceMap.templated_slice_to_source_slice
           SliceMap.untouchable_slices DiskExamples.splitext "" no_kwargs
           [[DiskExamples.fixable_linted; DiskExamples.unparsed_linted]]).
  vm_compute. reflexivity.
Defined.

(** The same file persisted under the suffix [_fixed]: the text goes to
    [tag_fixed.sql]. *)
Lemma persist_tree_keeps_original_witness :
  target_name DiskExamples.splitext DiskExamples.fixable_linted "_fixed"
  <> "tag.sql"
  /\ (<["tag_fixed.sql" := "1 {%if c%} +3{%endif%}"]> DiskExamples.disk)
     !! "tag.sql"
     = DiskExamples.disk !! "tag.sql".
Proof.
  apply (persist_tree_keeps_original SliceMap.templated_slice_to_source_slice
           SliceMap.untouchable_slices DiskExamples.splitext
           DiskExamples.fixable_linted "_fixed" DiskExamples.disk _ true).
  - apply splitext_parts.
  - discriminate.
  - vm_compute. reflexivity.
Defined.

(** ** The tree that the fix loop returns *)

Section LoopFacts.

Context {Fixes : Type} `{EqDecision Fixes}.
Variable fixes_truthy : Fixes -> bool.
Variable get_ruleset : Config -> list (Crawler Fixes).
Variable apply_fixes : Segment -> Fixes -> Segment * Fixes.
Variable parse_string :
string -> string -> Config ->
option Segment * list Violation * option TemplatedFile.
Variable recursive_crawl : Segment -> string -> list Segment.
Variable raw_trimmed : Segment -> string.
Variable ignore_if_in : Violation -> list string -> Violation.

Local Abbreviation crawl_step := (crawl_step fixes_truthy apply_fixes).
Local Abbreviation run_rules := (run_rules fixes_truthy get_ruleset apply_fixes).
Local Abbreviation fix_loop := (fix_loop fixes_truthy get_ruleset apply_fixes).
Local Abbreviation lint_loop := (lint_loop fixes_truthy get_ruleset apply_fixes).
Local Abbreviation initial_vars := (initial_vars (Fixes := Fixes)).
Local Abbreviation step_outcome := (step_outcome fixes_truthy apply_fixes).
Local Abbreviation lint_string :=
(lint_string fixes_truthy get_ruleset apply_fixes parse_string
             recursive_crawl raw_trimmed ignore_if_in).
Local Abbreviation lint_string_wrapped :=
(lint_string_wrapped fixes_truthy get_ruleset apply_fixes parse_string
                     recursive_crawl raw_trimmed ignore_if_in).

Ltac loop_case idx fixing :=
let Hround := fresh "Hround" in
let Hchanged := fresh "Hchanged" in
destruct ((idx + 1 =? 1) && negb fixing) eqn:Hround;
[|match goal with
  | |- context [negb (snd ?r)] => destruct (negb (snd r)) eqn:Hchanged
  end];
cbn [final_vars parsed_tree initial_linting_errors fix_loop_idx loop_exit].

Lemma step_on_record (seen : gset string) (config : Config) (fixing : bool)
  (idx : Z) (vars : LoopVars Fixes) (changed : bool) (crawler : Crawler Fixes)
  (st : LoopVars Fixes * bool) :
on_record seen vars ->
step_outcome config fixing idx vars changed crawler st ->
on_record seen (fst st).
Proof.
intros [Hraw Hseen] Hstep. unfold on_record.
destruct Hstep; cbn [fst working previous_versions]; try (split; assumption).
split; set_solver.
Qed.

Lemma run_rules_on_record (seen : gset string) (config : Config)
  (fixing : bool) (idx : Z) (vars : LoopVars Fixes) :
on_record seen vars -> on_record seen (fst (run_rules config fixing idx vars)).
Proof.
apply (run_rules_invariant fixes_truthy get_ruleset apply_fixes (on_record seen)).
intros ? ? ? ? HI Hst. exact (step_on_record _ _ _ _ _ _ _ _ HI Hst).
Qed.

(** A pass over the rules that leaves [changed] false has not replaced
  the working tree. *)
Lemma step_unchanged (config : Config) (fixing : bool) (idx : Z)
  (vars : LoopVars Fixes) (changed : bool) (crawler : Crawler Fixes)
  (st : LoopVars Fixes * bool) :
step_outcome config fixing idx vars changed crawler st ->
snd st = false -> working (fst st) = working vars /\ changed = false.
Proof.
intros Hstep. destruct Hstep; cbn [fst snd working]; auto; discriminate.
Qed.

Lemma fold_unchanged (config : Config) (fixing : bool) (idx : Z)
  (rules : list (Crawler Fixes)) (vars : LoopVars Fixes) (changed : bool) :
snd (fold_left (crawl_step config fixing idx) rules (vars, changed)) = false ->
working (fst (fold_left (crawl_step config fixing idx) rules (vars, changed)))
= working vars
/\ changed = false.
Proof.
revert vars changed. induction rules as [|crawler rules IH];
  intros vars changed; cbn [fold_left]; [auto|].
pose proof (crawl_step_outcome fixes_truthy apply_fixes config fixing idx
              vars changed crawler) as Ho.
destruct (crawl_step config fixing idx (vars, changed) crawler)
  as [vars' changed'].
intros Hfalse. destruct (IH vars' changed' Hfalse) as [Hw ->].
destruct (step_unchanged _ _ _ _ _ _ _ Ho eq_refl) as [Hw' ->].
cbn [fst] in Hw'. split; [congruence|reflexivity].
Qed.

Lemma run_rules_unchanged (config : Config) (fixing : bool) (idx : Z)
  (vars : LoopVars Fixes) :
snd (run_rules config fixing idx vars) = false ->
working (fst (run_rules config fixing idx vars)) = working vars.
Proof.
unfold_def run_rules. intros Hfalse. now apply fold_unchanged.
Qed.

Lemma fix_loop_returns_working (seen : gset string) (config : Config)
  (fixing : bool) (idx : Z) (parsed : Segment)
  (initial : option (list Violation)) (vars : LoopVars Fixes) :
parsed = working vars -> on_record seen vars ->
let r := fix_loop config fixing idx parsed initial vars in
parsed_tree r = working (final_vars r) /\ on_record seen (final_vars r).
Proof.
cbv zeta. funelim (fix_loop config fixing idx parsed initial vars);
  intros Hparsed Hrec.
- cbn [final_vars parsed_tree add_log working]. split; [exact Hparsed|].
  exact Hrec.
- loop_case idx fixing.
  + split; [reflexivity|now apply run_rules_on_record].
  + split; [|now apply run_rules_on_record].
    apply negb_true_iff in Hchanged.
    now rewrite run_rules_unchanged.
  + apply H; [reflexivity|now apply run_rules_on_record].
Qed.

(** X17.  The tree the fix loop hands back is the working tree it ends
  with: every fix that was committed is in it, and no tree that was
  rejected.  Its text is one of the versions on record, and the text
  of the parsed tree stays on record. *)
Theorem lint_loop_returns_working (config : Config) (fixing : bool)
  (parsed : Segment) :
let r := lint_loop config fixing parsed in
parsed_tree r = working (final_vars r)
/\ raw (parsed_tree r) ∈ previous_versions (final_vars r)
/\ raw parsed ∈ previous_versions (final_vars r).
Proof.
cbv zeta. unfold_def lint_loop.
destruct (fix_loop_returns_working {[ raw parsed ]} config fixing 0 parsed
            None (initial_vars parsed)) as (Htree & Hraw & Hseen).
- reflexivity.
- split; cbn [working previous_versions]; set_solver.
- split; [exact Htree|]. split; [now rewrite Htree|set_solver].
Qed.

(** *** Linting without fixing *)

Lemma step_not_fixing (config : Config) (idx : Z) (vars : LoopVars Fixes)
  (changed : bool) (crawler : Crawler Fixes) (st : LoopVars Fixes * bool) :
step_outcome config false idx vars changed crawler st ->
working (fst st) = working vars /\ log (fst st) = log vars
/\ previous_versions (fst st) = previous_versions vars
/\ last_fixes (fst st) = last_fixes vars.
Proof.
intros Hstep. destruct Hstep; cbn [fst working log previous_versions last_fixes];
  auto; discriminate.
Qed.

Lemma run_rules_not_fixing (config : Config) (idx : Z) (vars : LoopVars Fixes) :
let vars' := fst (run_rules config false idx vars) in
working vars' = working vars /\ log vars' = log vars
/\ previous_versions vars' = previous_versions vars
/\ last_fixes vars' = last_fixes vars.
Proof.
cbv zeta.
apply (run_rules_invariant fixes_truthy get_ruleset apply_fixes
         (fun vars' =>
            working vars' = working vars /\ log vars' = log vars
            /\ previous_versions vars' = previous_versions vars
            /\ last_fixes vars' = last_fixes vars)); [|auto].
intros v changed crawler st (Hw & Hl & Hp & Hf) Hst.
destruct (step_not_fixing _ _ _ _ _ _ Hst) as (Hw' & Hl' & Hp' & Hf').
split; [congruence|]. split; [congruence|]. split; congruence.
Qed.

(** X18.  Linting without [fix]: when parsing gave a tree and the
  runaway limit allows one round, [lint_string] returns, the tree of
  the file is the parsed tree, untouched, and the loop ends after its
  first round without having applied or logged anything. *)
Theorem lint_string_without_fix (in_str fname : string) (config : Config)
  (parsed : Segment) (vs : list Violation) (tf : option TemplatedFile) :
parse_string in_str fname config = (Some parsed, vs, tf) ->
1 <= runaway_limit config ->
let r := lint_loop config false parsed in
(exists lf,
   lint_string in_str fname false config = Ok lf
   /\ tree lf = Some parsed /\ templated_file lf = tf /\ path lf = fname)
/\ loop_exit r = NotFixing /\ fix_loop_idx r = 1
/\ log (final_vars r) = [] /\ last_fixes (final_vars r) = None
/\ previous_versions (final_vars r) = {[ raw parsed ]}.
Proof.
intros Hparse Hlimit. cbv zeta.
assert (Hloop : lint_loop config false parsed
                = {| final_vars := fst (run_rules config false 1 (initial_vars parsed));
                     parsed_tree :=
                       working (fst (run_rules config false 1 (initial_vars parsed)));
                     initial_linting_errors :=
                       Some (linting_errors
                               (fst (run_rules config false 1 (initial_vars parsed))));
                     fix_loop_idx := 1;
                     loop_exit := NotFixing |}).
{ unfold_def lint_loop. rewrite fix_loop_equation_1.
  destruct (decide (0 + 1 > runaway_limit config)) as [Hgt|Hle]; [lia|].
  cbn [fix_loop_unfold_clause_1]. cbv zeta. change (0 + 1) with 1.
  reflexivity. }
destruct (run_rules_not_fixing config 1 (initial_vars parsed))
  as (Hw & Hl & Hp & Hf).
split.
- rewrite (lint_string_parsed fixes_truthy get_ruleset apply_fixes parse_string
             recursive_crawl raw_trimmed ignore_if_in _ _ _ _ _ _ _ Hparse).
  rewrite Hloop. cbn [initial_linting_errors parsed_tree].
  eexists. split; [reflexivity|]. cbn [tree templated_file path].
  rewrite Hw. auto.
- rewrite Hloop. cbn [loop_exit fix_loop_idx final_vars].
  rewrite Hl, Hf, Hp. auto.
Qed.

(** *** [lint_string_wrapped] *)

(** X19.  The result of [lint_string_wrapped] holds the file that
  [lint_string] returns and nothing else: [tree] gives the tree of
  that file, [get_violations] its violations under the same filters,
  and [violation_dict] raises a [ValueError], the result holding one
  file name. *)
Theorem lint_string_wrapped_result (self_config : Config)
  (in_str fname : string) (fixing : bool) (result : list (list LintedFile)) :
lint_string_wrapped self_config in_str fname fixing = Ok result ->
exists lf,
  lint_string in_str fname fixing self_config = Ok lf
  /\ result = [[lf]]
  /\ LintingResult.tree result = Returns (tree lf)
  /\ (forall kwargs,
        LintingResult.get_violations result kwargs = get_violations_kw lf kwargs)
  /\ (forall kwargs,
        exists message,
          LintingResult.violation_dict result kwargs
          = Raises (ValueError message)).
Proof.
unfold_def lint_string_wrapped.
destruct (lint_string in_str fname fixing self_config) as [lf|e];
  cbn [res_bind]; [|discriminate].
intros [= <-]. exists lf. split; [reflexivity|]. split; [reflexivity|].
split; [reflexivity|]. split.
- intros kwargs. reflexivity.
- intros kwargs. eexists. reflexivity.
Qed.

End LoopFacts.

(** The toy linter on the text [A], without [fix]: the tree is the
    parsed one. *)
Lemma lint_string_without_fix_witness :
  exists lf,
    Examples.toy_lint_string Examples.oscillating_rules 10 false "A" = Ok lf
    /\ tree lf = Some (Examples.toy_tree "A").
Proof.
  destruct (lint_string_without_fix
              Examples.toy_truthy Examples.oscillating_rules
              Examples.toy_apply_fixes Examples.toy_parse_string
              Examples.toy_recursive_crawl Examples.toy_raw_trimmed
              Examples.toy_ignore_if_in
              "A" "<string input>" (Examples.toy_config 10)
              (Examples.toy_tree "A") [] None eq_refl ltac:(simpl; lia))
    as [(lf & Hlf & Htree & _) _].
  exists lf. split; assumption.
Defined.

(** The result of the toy linter for the text [A]. *)
Lemma lint_string_wrapped_result_witness :
  LintingResult.tree [[WrappedExamples.linted_A]]
  = Returns (Some (Examples.toy_tree "A"))
  /\ exists message,
       LintingResult.violation_dict [[WrappedExamples.linted_A]] no_kwargs
       = Raises (ValueError message).
Proof.
  destruct (lint_string_wrapped_result
              Examples.toy_truthy Examples.oscillating_rules
              Examples.toy_apply_fixes Examples.toy_parse_string
              Examples.toy_recursive_crawl Examples.toy_raw_trimmed
              Examples.toy_ignore_if_in (Examples.toy_config 10)
              "A" "<string input>" false [[WrappedExamples.linted_A]]
              ltac:(vm_compute; reflexivity))
    as (lf & _ & Hresult & Htree & _ & Hdict).
  injection Hresult as <-. split; [exact Htree|apply Hdict].
Defined.

(** ** The files of a path *)

Section PathsFacts.

Variable path_exists : string -> bool.
Variable isdir : string -> bool.
Variable walk : string -> list (string * list string).
Variable path_join : string -> string -> string.
Variable normpath : string -> string.
Context {Exc : Type}.
Variable match_tree : string -> string -> list string + Exc.
Variable sql_exts : list string.

Local Abbreviation scan_one := (scan_file path_join match_tree sql_exts).
Local Abbreviation scan_names := (scan_files path_join match_tree sql_exts).
Local Abbreviation scan_entries := (scan_dirs path_join match_tree sql_exts).
Local Abbreviation paths_from_path :=
(paths_from_path path_exists isdir walk path_join normpath match_tree sql_exts).
Local Abbreviation sql_file_under := (sql_file_under walk path_join sql_exts).
Local Abbreviation ignored_under := (ignored_under walk path_join match_tree).
Local Abbreviation ignore_file_read := (ignore_file_read path_join match_tree).

Lemma ignore_set_adds (dirpath : string) (matches : list string)
  (ignore_set : gset string) (x : string) :
x ∈ fold_left (fun ignore_set m => ignore_set ∪ {[ path_join dirpath m ]})
      matches ignore_set
<-> x ∈ ignore_set \/ exists m, m ∈ matches /\ x = path_join dirpath m.
Proof.
revert ignore_set. induction matches as [|m matches IH]; intros ignore_set;
  cbn [fold_left].
- split; [now left|]. intros [H|(m & Hm & _)]; [exact H|inversion Hm].
- rewrite IH, elem_of_union, elem_of_singleton. split.
  + intros [[H| ->]|(m' & Hm' & ->)].
    * now left.
    * right. exists m. split; [apply elem_of_cons; now left|reflexivity].
    * right. exists m'. split; [apply elem_of_cons; now right|reflexivity].
  + intros [H|(m' & Hm' & ->)]; [now left; left|].
    apply elem_of_cons in Hm' as [->|Hm']; [left; now right|].
    right. eauto.
Qed.

Lemma buffer_adds (fname fpath : string) (exts buffer : list string)
  (p : string) :
p ∈ fold_left (fun buffer ext =>
                 if endswith fname ext then buffer ++ [fpath] else buffer)
      exts buffer
<-> p ∈ buffer
    \/ (p = fpath /\ exists ext, ext ∈ exts /\ endswith fname ext = true).
Proof.
revert buffer. induction exts as [|ext exts IH]; intros buffer;
  cbn [fold_left].
- split; [now left|]. intros [H|(_ & ext & Hext & _)]; [exact H|inversion Hext].
- rewrite IH. destruct (endswith fname ext) eqn:Hends.
  + rewrite elem_of_app, list_elem_of_singleton. split.
    * intros [[H| ->]|(-> & ext' & Hin & He)].
      -- now left.
      -- right. split; [reflexivity|]. exists ext.
         split; [apply elem_of_cons; now left|exact Hends].
      -- right. split; [reflexivity|]. exists ext'.
         split; [apply elem_of_cons; now right|exact He].
    * intros [H|(-> & _)]; [now left; left|left; now right].
  + split.
    * intros [H|(-> & ext' & Hin & He)]; [now left|].
      right. split; [reflexivity|]. exists ext'.
      split; [apply elem_of_cons; now right|exact He].
    * intros [H|(-> & ext' & Hin & He)]; [now left|].
      apply elem_of_cons in Hin as [->|Hin]; [congruence|].
      right. eauto.
Qed.

(** The loop over the file names of one directory: the exception of its
  ignore file, or the ignore set and the buffer grown by what the
  directory holds. *)
Lemma scan_files_spec (ignore_file_name dirpath : string)
  (filenames : list string) (ignore_set : gset string)
  (buffer : list string) :
match scan_names ignore_file_name dirpath filenames (ignore_set, buffer) with
| inl st =>
    ignore_file_read ignore_file_name (dirpath, filenames)
    /\ (forall x,
          x ∈ fst st
          <-> x ∈ ignore_set
              \/ (ignore_file_name ∈ filenames
                  /\ exists matches m,
                       match_tree (path_join dirpath ignore_file_name) dirpath
                       = inl matches
                       /\ m ∈ matches /\ x = path_join dirpath m))
    /\ (forall p,
          p ∈ snd st
          <-> p ∈ buffer
              \/ exists fname,
                   fname ∈ filenames /\ fname <> ignore_file_name
                   /\ (exists ext, ext ∈ sql_exts /\ endswith fname ext = true)
                   /\ p = path_join dirpath fname)
| inr e =>
    ignore_file_name ∈ filenames
    /\ match_tree (path_join dirpath ignore_file_name) dirpath = inr e
end.
Proof.
revert ignore_set buffer.
induction filenames as [|fname filenames IH]; intros ignore_set buffer;
  cbn [scan_files].
- cbn [fst snd]. split; [intros H; inversion H|]. split.
  + intros x. split; [now left|]. intros [H|[H _]]; [exact H|inversion H].
  + intros p. split; [now left|].
    intros [H|(f & Hf & _)]; [exact H|inversion Hf].
- unfold_def scan_one.
  destruct (String.eqb_spec fname ignore_file_name) as [->|Hne].
  + destruct (match_tree (path_join dirpath ignore_file_name) dirpath)
      as [matches|e] eqn:Hread.
    * specialize (IH (fold_left
                        (fun ignore_set m =>
                           ignore_set ∪ {[ path_join dirpath m ]})
                        matches ignore_set) buffer).
      destruct (scan_names ignore_file_name dirpath filenames _) as [st|e].
      -- destruct IH as (_ & Hset & Hbuf). split; [intros _; eauto|]. split.
         ++ intros x. rewrite Hset, ignore_set_adds. split.
            ** intros [[H|(m & Hm & ->)]|(Hin & ms & m & Hms & Hm & ->)].
               --- now left.
               --- right. split; [apply elem_of_cons; now left|eauto].
               --- right. split; [apply elem_of_cons; now right|eauto].
            ** intros [H|(_ & ms & m & Hms & Hm & ->)]; [left; now left|].
               rewrite ?Hread in Hms. injection Hms as <-.
               left. right. eauto.
         ++ intros p. rewrite Hbuf. split.
            ** intros [H|(f & Hf & Hrest)]; [now left|].
               right. exists f. split; [apply elem_of_cons; now right|exact Hrest].
            ** intros [H|(f & Hf & Hfne & Hrest)]; [now left|].
               apply elem_of_cons in Hf as [->|Hf]; [contradiction|].
               right. exists f. auto.
      -- destruct IH as [Hin He]. split; [apply elem_of_cons; now right|exact He].
    * split; [apply elem_of_cons; now left|reflexivity].
  + specialize (IH ignore_set
                   (fold_left
                      (fun buffer ext =>
                         if endswith fname ext
                         then buffer ++ [path_join dirpath fname] else buffer)
                      sql_exts buffer)).
    destruct (scan_names ignore_file_name dirpath filenames _) as [st|e].
    * destruct IH as (Hread & Hset & Hbuf). split; [|split].
      -- intros Hin. apply Hread. cbn [snd] in *.
         apply elem_of_cons in Hin as [Heq|Hin]; [congruence|exact Hin].
      -- intros x. rewrite Hset. split.
         ++ intros [H|[Hin H]]; [now left|].
            right. split; [apply elem_of_cons; now right|exact H].
         ++ intros [H|[Hin H]]; [now left|].
            apply elem_of_cons in Hin as [Heq|Hin]; [congruence|].
            right. auto.
      -- intros p. rewrite Hbuf, buffer_adds. split.
         ++ intros [[H|(-> & Hext)]|(f & Hf & Hrest)].
            ** now left.
            ** right. exists fname. split; [apply elem_of_cons; now left|]. auto.
            ** right. exists f. split; [apply elem_of_cons; now right|exact Hrest].
         ++ intros [H|(f & Hf & Hfne & Hext & ->)]; [left; now left|].
            apply elem_of_cons in Hf as [->|Hf]; [left; right; auto|].
            right. exists f. auto.
    * destruct IH as [Hin He]. split; [apply elem_of_cons; now right|exact He].
Qed.

(** The loop over the directories: the exception of the first ignore
  file that raises, or the ignore set and the buffer of the whole
  walk. *)
Lemma scan_dirs_spec (ignore_file_name : string)
  (entries : list (string * list string)) (ignore_set : gset string)
  (buffer : list string) :
match scan_entries ignore_file_name entries (ignore_set, buffer) with
| inl st =>
    Forall (ignore_file_read ignore_file_name) entries
    /\ (forall x,
          x ∈ fst st
          <-> x ∈ ignore_set
              \/ exists dirpath filenames matches m,
                   (dirpath, filenames) ∈ entries
                   /\ ignore_file_name ∈ filenames
                   /\ match_tree (path_join dirpath ignore_file_name) dirpath
                      = inl matches
                   /\ m ∈ matches /\ x = path_join dirpath m)
    /\ (forall p,
          p ∈ snd st
          <-> p ∈ buffer
              \/ exists dirpath filenames fname,
                   (dirpath, filenames) ∈ entries /\ fname ∈ filenames
                   /\ fname <> ignore_file_name
                   /\ (exists ext, ext ∈ sql_exts /\ endswith fname ext = true)
                   /\ p = path_join dirpath fname)
| inr e =>
    exists before dirpath filenames after,
      entries = before ++ (dirpath, filenames) :: after
      /\ Forall (ignore_file_read ignore_file_name) before
      /\ ignore_file_name ∈ filenames
      /\ match_tree (path_join dirpath ignore_file_name) dirpath = inr e
end.
Proof.
revert ignore_set buffer.
induction entries as [|[dirpath filenames] entries IH];
  intros ignore_set buffer; cbn [scan_dirs].
- cbn [fst snd]. split; [constructor|]. split.
  + intros x. split; [now left|].
    intros [H|(d & fs & ms & m & Hin & _)]; [exact H|inversion Hin].
  + intros p. split; [now left|].
    intros [H|(d & fs & f & Hin & _)]; [exact H|inversion Hin].
- pose proof (scan_files_spec ignore_file_name dirpath filenames
                ignore_set buffer) as Hfiles.
  destruct (scan_names ignore_file_name dirpath filenames (ignore_set, buffer))
    as [[set1 buffer1]|e].
  + cbn [fst snd] in Hfiles. destruct Hfiles as (Hread1 & Hset1 & Hbuf1).
    specialize (IH set1 buffer1).
    destruct (scan_entries ignore_file_name entries (set1, buffer1)) as [st|e].
    * destruct IH as (Hread & Hset & Hbuf).
      split; [constructor; assumption|]. split.
      -- intros x. rewrite Hset, Hset1. split.
         ++ intros [[H|(Hin & ms & m & Hms & Hm & ->)]
                   |(d & fs & ms & m & Hin & Hrest)].
            ** now left.
            ** right. exists dirpath, filenames, ms, m.
               split; [apply elem_of_cons; now left|auto].
            ** right. exists d, fs, ms, m.
               split; [apply elem_of_cons; now right|exact Hrest].
         ++ intros [H|(d & fs & ms & m & Hin & Hign & Hms & Hm & ->)];
              [left; now left|].
            apply elem_of_cons in Hin as [[= -> ->]|Hin].
            ** left. right. eauto 6.
            ** right. exists d, fs, ms, m. auto.
      -- intros p. rewrite Hbuf, Hbuf1. split.
         ++ intros [[H|(f & Hf & Hrest)]|(d & fs & f & Hin & Hrest)].
            ** now left.
            ** right. exists dirpath, filenames, f.
               split; [apply elem_of_cons; now left|auto].
            ** right. exists d, fs, f.
               split; [apply elem_of_cons; now right|exact Hrest].
         ++ intros [H|(d & fs & f & Hin & Hf & Hrest)]; [left; now left|].
            apply elem_of_cons in Hin as [[= -> ->]|Hin].
            ** left. right. eauto.
            ** right. exists d, fs, f. auto.
    * destruct IH as (before & d & fs & after & -> & Hbefore & Hin & He).
      exists ((dirpath, filenames) :: before), d, fs, after.
      split; [reflexivity|]. split; [constructor; assumption|]. auto.
  + destruct Hfiles as [Hin He].
    exists [], dirpath, filenames, entries.
    split; [reflexivity|]. split; [constructor|]. auto.
Qed.

Lemma filtered_buffer_spec (ignore_set : gset string)
  (buffer filtered : list string) (p : string) :
p ∈ fold_left (fun filtered_buffer fpath =>
                 if bool_decide (fpath ∉ ignore_set)
                 then filtered_buffer ++ [normpath fpath]
                 else filtered_buffer)
      buffer filtered
<-> p ∈ filtered
    \/ exists fpath, fpath ∈ buffer /\ (fpath ∉ ignore_set) /\ p = normpath fpath.
Proof.
revert filtered. induction buffer as [|fpath buffer IH]; intros filtered;
  cbn [fold_left].
- split; [now left|]. intros [H|(f & Hf & _)]; [exact H|inversion Hf].
- rewrite IH. case_bool_decide as Hign.
  + rewrite elem_of_app, list_elem_of_singleton. split.
    * intros [[H| ->]|(f & Hf & Hrest)].
      -- now left.
      -- right. exists fpath. split; [apply elem_of_cons; now left|auto].
      -- right. exists f. split; [apply elem_of_cons; now right|exact Hrest].
    * intros [H|(f & Hf & Hnot & ->)]; [left; now left|].
      apply elem_of_cons in Hf as [->|Hf]; [left; now right|].
      right. eauto.
  + split.
    * intros [H|(f & Hf & Hrest)]; [now left|].
      right. exists f. split; [apply elem_of_cons; now right|exact Hrest].
    * intros [H|(f & Hf & Hnot & ->)]; [now left|].
      apply elem_of_cons in Hf as [->|Hf]; [contradiction|].
      right. eauto.
Qed.

Lemma string_leb_total (x y : string) :
String.leb x y = false -> String.leb y x = true.
Proof. intros Hxy. destruct (String.leb_total x y); congruence. Qed.

(** X20.  [paths_from_path] raises of its own only the [IOError] for a
  path that does not exist, unless told to ignore that, when it
  returns no file.  A path that is not a directory comes back as it
  is, ignore files or not.  For a directory, an exception of [open]
  or of [pathspec] on an ignore file is passed on, that of the first
  ignore file of the walk to raise; when every ignore file is read,
  the list returned is in string order and holds the normalised path
  of every file under the path whose name ends in one of the SQL
  extensions, except the ignore files themselves and the files that
  some ignore file under the path matches, wherever in the walk that
  ignore file comes. *)
Theorem paths_from_path_lists (path ignore_file_name : string)
  (ignore_non_existent_files : bool) :
match paths_from_path path ignore_file_name ignore_non_existent_files with
| inr e =>
    path_exists path = true /\ isdir path = true
    /\ exists before dirpath filenames after,
         walk path = before ++ (dirpath, filenames) :: after
         /\ Forall (ignore_file_read ignore_file_name) before
         /\ ignore_file_name ∈ filenames
         /\ match_tree (path_join dirpath ignore_file_name) dirpath = inr e
| inl (Raises e) =>
    e = IOError "Specified path does not exist"
    /\ path_exists path = false /\ ignore_non_existent_files = false
| inl (Returns files) =>
    if path_exists path then
      if isdir path then
        Forall (ignore_file_read ignore_file_name) (walk path)
        /\ StronglySorted (fun p q => String.leb p q = true) files
        /\ forall p,
             p ∈ files
             <-> exists fpath,
                   sql_file_under path ignore_file_name fpath
                   /\ ~ ignored_under path ignore_file_name fpath
                   /\ p = normpath fpath
      else files = [path]
    else files = [] /\ ignore_non_existent_files = true
end.
Proof.
unfold_def paths_from_path.
destruct (path_exists path); cbn [negb].
- destruct (isdir path); cbn [negb]; [|reflexivity].
  pose proof (scan_dirs_spec ignore_file_name (walk path) ∅ []) as Hscan.
  destruct (scan_entries ignore_file_name (walk path) (∅, []))
    as [[ignore_set buffer]|e].
  + cbn [fst snd] in Hscan. destruct Hscan as (Hread & Hset & Hbuf).
    split; [exact Hread|]. split.
    * apply (sorted_strongly String.leb string_leb_total string_leb_trans).
    * intros p. rewrite sorted_elem_of, filtered_buffer_spec. split.
      -- intros [H|(fpath & Hin & Hnot & ->)]; [inversion H|].
         exists fpath. split; [|split; [|reflexivity]].
         ++ apply Hbuf in Hin as [H|H]; [inversion H|exact H].
         ++ intros Hign. apply Hnot, Hset. now right.
      -- intros (fpath & Hsql & Hnot & ->). right. exists fpath.
         split; [apply Hbuf; now right|]. split; [|reflexivity].
         intros Hin. apply Hset in Hin as [H|H]; [set_solver|].
         now apply Hnot.
  + split; [reflexivity|]. split; [reflexivity|exact Hscan].
- destruct ignore_non_existent_files; auto.
Qed.

End PathsFacts.

(** The directory [src]: with the ignore file read, the file it names
    is left out and the rest comes back in order; with an ignore file
    that cannot be opened, the exception is passed on. *)
Lemma paths_from_path_lists_witness :
  PathExamples.paths PathExamples.match_tree
  = inl (Returns ["src/a.sql"; "src/gen/c.sql"])
  /\ ("src/b.sql" ∈ ["src/a.sql"; "src/gen/c.sql"]
      <-> exists fpath,
            sql_file_under PathExamples.walk PathExamples.path_join [".sql"]
              "src" ".sqlfluffignore" fpath
            /\ ~ ignored_under PathExamples.walk PathExamples.path_join
                   PathExamples.match_tree "src" ".sqlfluffignore" fpath
            /\ "src/b.sql" = PathExamples.normpath fpath)
  /\ PathExamples.paths PathExamples.unreadable = inr "PermissionError".
Proof.
  pose proof (paths_from_path_lists PathExamples.path_exists PathExamples.isdir
                PathExamples.walk PathExamples.path_join PathExamples.normpath
                PathExamples.match_tree [".sql"] "src" ".sqlfluffignore" false)
    as H.
  assert (Hval : PathExamples.paths PathExamples.match_tree
                 = inl (Returns ["src/a.sql"; "src/gen/c.sql"]))
    by (vm_compute; reflexivity).
  unfold PathExamples.paths in Hval. rewrite Hval in H.
  change (PathExamples.path_exists "src") with true in H.
  change (PathExamples.isdir "src") with true in H.
  destruct H as (_ & _ & Hiff).
  split; [exact Hval|]. split; [apply Hiff|].
  vm_compute. reflexivity.
Defined.
